(** * tm_polygon.h: ear clipping triangulation and Greiner-Hormann clipping

    A shallow embedding of [src/tm_polygon.h] (release build: [TMPO_ASSERT]
    compiled out) and the properties of its operations.

    - [float] arithmetic is a parameter ([FloatOps]); two instances are
      given: [binary32], IEEE-754 single precision as the compiler
      evaluates it (round to nearest even, built on the Standard Library's
      [SpecFloat]), and [exactQ], exact rational arithmetic, with which
      the single precision sums are compared where they do not round.
    - [tmpo_index]/[tmpo_uint16] values are [Z] reduced by [u16];
      [tmpo_size_t] values are [Z], reduced by [usize] where a subtraction
      can wrap.
    - arrays are lists; an access outside the array is [Fault]; loops the
      C code does not bound by a counter take a fuel argument and answer
      [OutOfFuel] when it is used up. *)

From stdpp Require Import base numbers list.
From Stdlib Require Import ZArith QArith Qcanon Lia Bool.
From Stdlib Require Import Floats.SpecFloat.
From Stdlib Require Import Qpower Lqa.

Open Scope Z_scope.

(** ** Results of fallible and possibly diverging code *)

Inductive res (A : Type) : Type :=
| Ok (a : A)
| Fault
| OutOfFuel.
Arguments Ok {A} a.
Arguments Fault {A}.
Arguments OutOfFuel {A}.

#[global] Instance res_ret : MRet res := fun A a => Ok a.
#[global] Instance res_bind : MBind res := fun A B f m =>
  match m with
  | Ok a => f a
  | Fault => Fault
  | OutOfFuel => OutOfFuel
  end.

(** ** Machine integers *)

Definition u16 (n : Z) : Z := n mod 65536.
Definition usize (n : Z) : Z := n mod 2 ^ 64.

(** [arr[i]] and [arr[i] = v] on an array held as a list. *)
Definition get {A : Type} (l : list A) (i : Z) : res A :=
  if i <? 0 then Fault
  else match l !! Z.to_nat i with
       | Some v => Ok v
       | None => Fault
       end.

Definition put {A : Type} (l : list A) (i : Z) (v : A) : res (list A) :=
  if i <? 0 then Fault
  else if i <? Z.of_nat (length l) then Ok (<[Z.to_nat i := v]> l)
  else Fault.

Definition zlen {A : Type} (l : list A) : Z := Z.of_nat (length l).

(** ** Floating point arithmetic *)

Class FloatOps (F : Type) : Type := {
  fadd : F -> F -> F;
  fsub : F -> F -> F;
  fmul : F -> F -> F;
  fdiv : F -> F -> F;
  fleb : F -> F -> bool;      (* x <= y *)
  fltb : F -> F -> bool;      (* x < y  *)
  fzero : F;                  (* 0, 0.0f and the bytes memset writes *)
  fone : F;                   (* 1.0f *)
  f_1em6 : F;                 (* 0.000001f *)
  f_1em5 : F;                 (* 0.00001f *)
  f_099999 : F;               (* 0.99999f *)
  f_1em4 : F                  (* 0.0001f *)
}.

(** IEEE-754 binary32: 24 bits of precision, infinities at exponent 128. *)
Definition b32_of_Z (z : Z) : spec_float := binary_normalize 24 128 z 0 false.
Definition b32_dyadic (m e : Z) : spec_float := binary_normalize 24 128 m e false.

#[global] Instance binary32 : FloatOps spec_float := {|
  fadd := SFadd 24 128;
  fsub := SFsub 24 128;
  fmul := SFmul 24 128;
  fdiv := SFdiv 24 128;
  fleb := SFleb;
  fltb := SFltb;
  fzero := S754_zero false;
  fone := b32_of_Z 1;
  f_1em6 := SFdiv 24 128 (b32_of_Z 1) (b32_of_Z 1000000);
  f_1em5 := SFdiv 24 128 (b32_of_Z 1) (b32_of_Z 100000);
  f_099999 := SFdiv 24 128 (b32_of_Z 99999) (b32_of_Z 100000);
  f_1em4 := SFdiv 24 128 (b32_of_Z 1) (b32_of_Z 10000)
|}.

(** Exact arithmetic on the rationals, the arithmetic the algorithms are
    designed in. *)
Definition exactQ : FloatOps Qc := {|
  fadd := Qcplus;
  fsub := Qcminus;
  fmul := Qcmult;
  fdiv := Qcdiv;
  fleb := fun p q => bool_decide (p ≤ q)%Qc;
  fltb := fun p q => bool_decide (p < q)%Qc;
  fzero := 0%Qc;
  fone := 1%Qc;
  f_1em6 := Qc_of_Z 1 / Qc_of_Z 1000000;
  f_1em5 := Qc_of_Z 1 / Qc_of_Z 100000;
  f_099999 := Qc_of_Z 99999 / Qc_of_Z 100000;
  f_1em4 := Qc_of_Z 1 / Qc_of_Z 10000
|}%Qc.

Declare Scope float_scope.
Delimit Scope float_scope with F.
Infix "+" := fadd : float_scope.
Infix "-" := fsub : float_scope.
Infix "*" := fmul : float_scope.
Infix "/" := fdiv : float_scope.
Infix "<=?" := fleb : float_scope.
Infix "<?" := fltb : float_scope.
Notation "x >=? y" := (fleb y x) (at level 70) : float_scope.
Notation "x >? y" := (fltb y x) (at level 70) : float_scope.

(** ** Data model *)

Section Model.
Context {F : Type} {FO : FloatOps F}.

(** [tmpo_vector] *)
Record Vec : Type := mkVec { vx : F; vy : F }.

Definition vzero : Vec := mkVec fzero fzero.

(** *** Orientation *)

(** One summand of the shoelace sum: [last.x * cur.y - last.y * cur.x]. *)
Definition shoelace_term (last cur : Vec) : F :=
  (vx last * vy cur - vy last * vx cur)%F.

(** The [for] loop of [isPolygonClockwise]: [vs] are the vertices not yet
    visited, [last] is [vertices[last]]. *)
Fixpoint shoelace_loop (last : Vec) (vs : list Vec) (sum : F) : F :=
  match vs with
  | [] => sum
  | v :: vs' => shoelace_loop v vs' (sum + shoelace_term last v)%F
  end.

Definition shoelace (vertices : list Vec) : F :=
  shoelace_loop (List.last vertices vzero) vertices fzero.

Definition isPolygonClockwise (vertices : list Vec) : bool :=
  (shoelace vertices >=? fzero)%F.

(** *** Ear clipping *)

Definition isTriangleClockwise (a b c : Vec) : bool :=
  let bx := (vx b - vx a)%F in
  let by_ := (vy b - vy a)%F in
  let cx := (vx c - vx a)%F in
  let cy := (vy c - vy a)%F in
  let cross := (bx * cy - by_ * cx)%F in
  (cross >=? fzero)%F.

Definition pointInsideTriangle (a b c v : Vec) : bool :=
  let bx := (vx b - vx a)%F in
  let by_ := (vy b - vy a)%F in
  let cx := (vx c - vx a)%F in
  let cy := (vy c - vy a)%F in
  let px := (vx v - vx a)%F in
  let py := (vy v - vy a)%F in
  let bc := (bx * cx + by_ * cy)%F in
  let vc := (px * cx + py * cy)%F in
  let vb := (px * bx + py * by_)%F in
  let cc := (cx * cx + cy * cy)%F in
  let bb := (bx * bx + by_ * by_)%F in
  let invDenom := (fone / (bb * cc - bc * bc))%F in
  let r := ((cc * vb - bc * vc) * invDenom)%F in
  let s := ((bb * vc - bc * vb) * invDenom)%F in
  (r >=? fzero)%F && (s >=? fzero)%F && (r + s <=? fone)%F.

(** The [for] loop of [isTriangleEar] from index [i] on; [vs] is
    [vertices[i..count)]. *)
Fixpoint ear_scan (a b c : Z) (va vb vc : Vec) (vs : list Vec) (i : Z) : bool :=
  match vs with
  | [] => true
  | v :: vs' =>
      if (i =? a) || (i =? b) || (i =? c) then ear_scan a b c va vb vc vs' (i + 1)
      else if pointInsideTriangle va vb vc v then false
      else ear_scan a b c va vb vc vs' (i + 1)
  end.

Definition isTriangleEar (a b c : Z) (vertices : list Vec) (cw : bool) : res bool :=
  va ← get vertices a;
  vb ← get vertices b;
  vc ← get vertices c;
  if negb (eqb (isTriangleClockwise va vb vc) cw) then Ok false
  else Ok (ear_scan a b c va vb vc vertices 0).

(** The state of the [while] loop of [triangulatePolygonEarClipping];
    [tout] is what has been written through [out], in order. *)
Record TriState : Type := mkTri {
  tquery : list Z;
  tsize : Z;
  ta : Z;
  tb : Z;
  tc : Z;
  tcurrent : Z;
  titer : Z;
  tindices : Z;
  tout : list Z
}.

(** [TMPO_MEMMOVE( queryList + b, queryList + b + 1, ( size - b ) * sizeof( tmpo_index ) )] *)
Definition memmove_left (l : list Z) (b size : Z) : res (list Z) :=
  if (b <? 0) || (size <? b) || (zlen l <? size + 1) then Fault
  else Ok (take (Z.to_nat b) l
           ++ take (Z.to_nat (size - b)) (drop (Z.to_nat (b + 1)) l)
           ++ drop (Z.to_nat size) l).

Section Triangulate.
(** The compile-time switch [TMPO_CLOCKWISE_TRIANGLES]. *)
Variable TMPO_CLOCKWISE_TRIANGLES : bool.
Variable vertices : list Vec.
Variable clockwise : bool.
Variable begin : Z.
Variable maxIndices : Z.

Definition tri_emit (qa qb qc : Z) : list Z :=
  if eqb clockwise TMPO_CLOCKWISE_TRIANGLES
  then [u16 (qa + begin); u16 (qb + begin); u16 (qc + begin)]
  else [u16 (qa + begin); u16 (qc + begin); u16 (qb + begin)].

(** The branch taken when the triple is an ear and there is room. *)
Definition tri_clip (s : TriState) (qa qb qc : Z) : res TriState :=
  let size := tsize s - 1 in
  q ← memmove_left (tquery s) (tb s) size;
  let current := ta s in
  let current := if size <=? current then current - size else current in
  let a := if 2 <=? current then current - 2 else usize (size - (2 - current)) in
  let b := if 2 <=? current then current - 1
           else if 1 <=? current then current - 1
           else usize (size - (1 - current)) in
  Ok (mkTri q size a b current current 0 (tindices s + 3)
            (tout s ++ tri_emit qa qb qc)).

(** The branch taken when the triple is not an ear, up to the liveness
    test. *)
Definition tri_advance (s : TriState) : TriState :=
  let a := tb s in
  let b := tcurrent s in
  let current := tcurrent s + 1 in
  let c := current in
  if tsize s <=? current
  then mkTri (tquery s) (tsize s) (usize (tsize s - 2)) (usize (tsize s - 1)) 0 0
             (titer s) (tindices s) (tout s)
  else mkTri (tquery s) (tsize s) a b c current (titer s) (tindices s) (tout s).

Definition tri_tick (s : TriState) : TriState :=
  mkTri (tquery s) (tsize s) (ta s) (tb s) (tc s) (tcurrent s) (titer s + 1)
        (tindices s) (tout s).

Fixpoint tri_loop (fuel : nat) (s : TriState) : res TriState :=
  match fuel with
  | O => OutOfFuel
  | S fuel' =>
      if negb (2 <? tsize s) then Ok s
      else
        qa ← get (tquery s) (ta s);
        qb ← get (tquery s) (tb s);
        qc ← get (tquery s) (tc s);
        ear ← isTriangleEar qa qb qc vertices clockwise;
        if ear : bool then
          if maxIndices <? tindices s + 3 then Ok s
          else s' ← tri_clip s qa qb qc; tri_loop fuel' s'
        else
          let s' := tri_advance s in
          if 2 * tsize s' <? titer s' then Ok s'
          else tri_loop fuel' (tri_tick s')
  end.

(** [queryList[i] = (tmpo_index)i] for [i < size]. *)
Definition tri_init_query (queryList : list Z) (size : Z) : list Z :=
  map (fun i => u16 (Z.of_nat i)) (seq 0 (Z.to_nat size))
  ++ drop (Z.to_nat size) queryList.

(** Returns the index count and the indices written. [count] is the
    length of [vertices], [queryCount] the length of [queryList]. *)
Definition triangulatePolygonEarClipping (fuel : nat) (queryList : list Z)
  : res (Z * list Z) :=
  let count := zlen vertices in
  let queryCount := zlen queryList in
  if count <? 3 then Ok (0, [])
  else
    let size := if count <? queryCount then count else queryCount in
    let q := tri_init_query queryList size in
    s ← tri_loop fuel (mkTri q size 0 1 2 2 0 0 []);
    Ok (tindices s, tout s).

End Triangulate.

(** *** Clip rings *)

(** [ClipVertex] *)
Record ClipVertex : Type := mkCV {
  pos : Vec;
  next : Z;
  prev : Z;
  nextPoly : Z;
  flags : Z;
  neighbor : Z;
  alpha : F
}.

Definition CVF_INTERSECT : Z := 1.
Definition CVF_EXIT : Z := 2.
Definition CVF_PROCESSED : Z := 4.

Inductive ClipFollowDirection : Type := CFD_FORWARD | CFD_BACKWARD.

(** [ClipVertices]; [data] is the whole slab the caller handed in. *)
Record ClipVertices : Type := mkRing {
  data : list ClipVertex;
  originalSize : Z;
  size : Z;
  capacity : Z
}.

(** [ClipPolygonEntry]; the pointer [vertices] is kept as its offset in
    the vertex pool. *)
Record ClipPolygonEntry : Type := mkEntry {
  evertices : Z;
  esize : Z
}.

(** [ClipPolyResult] *)
Record ClipPolyResult : Type := mkResult {
  rpolygons : Z;
  rvertices : Z
}.

Definition set_pos (v : ClipVertex) (p : Vec) : ClipVertex :=
  mkCV p (next v) (prev v) (nextPoly v) (flags v) (neighbor v) (alpha v).
Definition set_next (v : ClipVertex) (n : Z) : ClipVertex :=
  mkCV (pos v) n (prev v) (nextPoly v) (flags v) (neighbor v) (alpha v).
Definition set_prev (v : ClipVertex) (n : Z) : ClipVertex :=
  mkCV (pos v) (next v) n (nextPoly v) (flags v) (neighbor v) (alpha v).
Definition set_flags (v : ClipVertex) (f : Z) : ClipVertex :=
  mkCV (pos v) (next v) (prev v) (nextPoly v) f (neighbor v) (alpha v).
Definition set_neighbor (v : ClipVertex) (n : Z) : ClipVertex :=
  mkCV (pos v) (next v) (prev v) (nextPoly v) (flags v) n (alpha v).
Definition set_alpha (v : ClipVertex) (t : F) : ClipVertex :=
  mkCV (pos v) (next v) (prev v) (nextPoly v) (flags v) (neighbor v) t.

Definition set_data (r : ClipVertices) (d : list ClipVertex) : ClipVertices :=
  mkRing d (originalSize r) (size r) (capacity r).

Definition has_flag (v : ClipVertex) (f : Z) : bool :=
  negb (Z.land (flags v) f =? 0).

(** [arr[i].field = ...]: read, change, write back. *)
Definition modify {A : Type} (l : list A) (i : Z) (f : A -> A) : res (list A) :=
  v ← get l i; put l i (f v).

(** *** Transform *)

(** The [for] loop of [clipPolyTransformData] over [vertices[i..count)]. *)
Fixpoint transform_loop (vs : list Vec) (i prev : Z) : list ClipVertex :=
  match vs with
  | [] => []
  | v :: vs' =>
      mkCV v (u16 (i + 1)) prev 0 0 0 fzero :: transform_loop vs' (i + 1) (u16 i)
  end.

(** [count] is the length of [vertices], [maxClipVertices] the length of
    the slab [clipVertices]. *)
Definition clipPolyTransformData (vertices : list Vec) (clipVertices : list ClipVertex)
  : res ClipVertices :=
  let count := zlen vertices in
  if zlen clipVertices <? count then Fault
  else
    let filled := transform_loop vertices 0 (u16 (u16 count - 1))
                  ++ drop (Z.to_nat count) clipVertices in
    d ← (if count =? 0 then Ok filled
         else modify filled (count - 1) (fun v => set_next v 0));
    Ok (mkRing d count count (zlen clipVertices)).

(** *** Intersection finding *)

Definition clipPolyCreateVertex (vertices : ClipVertices) (at_ : Z) : res ClipVertices :=
  let n := size vertices in
  ref ← get (data vertices) at_;
  let oldNext := next ref in
  d ← modify (data vertices) n
        (fun added => set_flags (set_next (set_prev added (u16 at_)) (next ref)) 0);
  d ← modify d at_ (fun r => set_next r (u16 n));
  d ← modify d oldNext (fun o => set_prev o (u16 n));
  Ok (mkRing d (originalSize vertices) (n + 1) (capacity vertices)).

(** [Some t] when the function returns 1 and writes [*t]. *)
Definition clipPolyLineIntersectionFactor (a aDir b bDir : Vec) : option F :=
  let cross := (vx aDir * vy bDir - vy aDir * vx bDir)%F in
  if (cross <? f_1em6)%F || (cross >? f_1em6)%F then
    let relx := (vx a - vx b)%F in
    let rely := (vy a - vy b)%F in
    Some ((vx bDir * rely - vy bDir * relx) / cross)%F
  else None.

Fixpoint clipPolyFindIntersectionIndex (fuel : nat) (vertices : ClipVertices)
    (at_ : Z) (alpha_ : F) : res Z :=
  match fuel with
  | O => OutOfFuel
  | S fuel' =>
      ref ← get (data vertices) at_;
      if has_flag ref CVF_INTERSECT && (alpha ref >? alpha_)%F
      then clipPolyFindIntersectionIndex fuel' vertices (prev ref) alpha_
      else Ok at_
  end.

Definition clipPolyCreateIntersection (vertices : ClipVertices) (at_ : Z)
    (intersection : Vec) (neighbor_ : Z) (alpha_ : F) : res ClipVertices :=
  r ← clipPolyCreateVertex vertices at_;
  d ← modify (data r) (size vertices)
        (fun added =>
           set_alpha
             (set_neighbor
                (set_flags (set_pos added intersection)
                           (Z.lor (flags added) CVF_INTERSECT))
                (u16 neighbor_))
             alpha_);
  Ok (set_data r d).

(** The variables of [clipPolyFindIntersections] that live across
    iterations. *)
Record FIState : Type := mkFI {
  fi_a : ClipVertices;
  fi_b : ClipVertices;
  fi_i : Z;
  fi_j : Z;
  aPrevIndex : Z;
  bPrevIndex : Z
}.

(** What one pass does to the loops: [Retry] is [continue] in the
    degeneracy path (the same pair is examined again), [Advance] moves to
    the next pair, [Done] leaves the outer loop. *)
Inductive FIStep : Type :=
| Retry (s : FIState)
| Advance (s : FIState)
| Done (a b : ClipVertices).

(** [v->x -= dir.y * 0.0001f; v->y += dir.x * 0.0001f;] *)
Definition perturb (dir : Vec) (v : ClipVertex) : ClipVertex :=
  set_pos v (mkVec (vx (pos v) - vy dir * f_1em4)%F (vy (pos v) + vx dir * f_1em4)%F).

Definition fi_next_pair (s : FIState) (a b : ClipVertices) : FIStep :=
  Advance (mkFI a b (fi_i s) (fi_j s + 1) (aPrevIndex s) (fi_j s)).

(** The body of the inner loop for the pair [(i, j)]. *)
Definition fi_body (fuel : nat) (s : FIState) : res FIStep :=
  let a := fi_a s in
  let b := fi_b s in
  aVertex ← get (data a) (fi_i s);
  let aCurrent := pos aVertex in
  aPrevV ← get (data a) (aPrevIndex s);
  let aPrev := pos aPrevV in
  bVertex ← get (data b) (fi_j s);
  let bCurrent := pos bVertex in
  bPrevV ← get (data b) (bPrevIndex s);
  let bPrev := pos bPrevV in
  let aDir := mkVec (vx aCurrent - vx aPrev)%F (vy aCurrent - vy aPrev)%F in
  let bDir := mkVec (vx bCurrent - vx bPrev)%F (vy bCurrent - vy bPrev)%F in
  match clipPolyLineIntersectionFactor aPrev aDir bPrev bDir with
  | None => Ok (fi_next_pair s a b)
  | Some aAlpha =>
    match clipPolyLineIntersectionFactor bPrev bDir aPrev aDir with
    | None => Ok (fi_next_pair s a b)
    | Some bAlpha =>
      if (aAlpha >=? fzero)%F && (aAlpha <=? fone)%F
         && (bAlpha >=? fzero)%F && (bAlpha <=? fone)%F
      then
        if (aAlpha <=? f_1em5)%F then
          d ← modify (data a) (aPrevIndex s) (perturb bDir);
          Ok (Retry (mkFI (set_data a d) b (fi_i s) (fi_j s) (aPrevIndex s) (bPrevIndex s)))
        else if (aAlpha >=? f_099999)%F then
          d ← modify (data a) (fi_i s) (perturb bDir);
          Ok (Retry (mkFI (set_data a d) b (fi_i s) (fi_j s) (aPrevIndex s) (bPrevIndex s)))
        else if (bAlpha <=? f_1em5)%F then
          d ← modify (data b) (bPrevIndex s) (perturb aDir);
          Ok (Retry (mkFI a (set_data b d) (fi_i s) (fi_j s) (aPrevIndex s) (bPrevIndex s)))
        else if (bAlpha >=? f_099999)%F then
          d ← modify (data b) (fi_j s) (perturb aDir);
          Ok (Retry (mkFI a (set_data b d) (fi_i s) (fi_j s) (aPrevIndex s) (bPrevIndex s)))
        else
          let intersection := mkVec (vx aPrev + aAlpha * vx aDir)%F
                                    (vy aPrev + aAlpha * vy aDir)%F in
          aIndex ← clipPolyFindIntersectionIndex fuel a (prev aVertex) aAlpha;
          bIndex ← clipPolyFindIntersectionIndex fuel b (prev bVertex) bAlpha;
          let aNeighbor := size b in
          let bNeighbor := size a in
          a' ← clipPolyCreateIntersection a aIndex intersection aNeighbor aAlpha;
          b' ← clipPolyCreateIntersection b bIndex intersection bNeighbor bAlpha;
          Ok (fi_next_pair s a' b')
      else Ok (fi_next_pair s a b)
    end
  end.

(** One pass through the loop headers: leave the outer loop, move to the
    next [i], or run the body. *)
Definition fi_step (fuel : nat) (s : FIState) : res FIStep :=
  let aCount := originalSize (fi_a s) in
  let bCount := originalSize (fi_b s) in
  if negb (fi_i s <? aCount) then Ok (Done (fi_a s) (fi_b s))
  else if negb (fi_j s <? bCount)
  then Ok (Advance (mkFI (fi_a s) (fi_b s) (fi_i s + 1) 0 (fi_i s) (bPrevIndex s)))
  else fi_body fuel s.

Fixpoint fi_run (wfuel fuel : nat) (s : FIState) : res (ClipVertices * ClipVertices) :=
  match fuel with
  | O => OutOfFuel
  | S fuel' =>
      st ← fi_step wfuel s;
      match st with
      | Done a b => Ok (a, b)
      | Retry s' => fi_run wfuel fuel' s'
      | Advance s' => fi_run wfuel fuel' s'
      end
  end.

Definition fi_init (a b : ClipVertices) : FIState :=
  mkFI a b 0 0 (usize (originalSize a - 1)) (usize (originalSize b - 1)).

Definition clipPolyFindIntersections (fuel : nat) (a b : ClipVertices)
  : res (ClipVertices * ClipVertices) :=
  fi_run fuel fuel (fi_init a b).



(** *** Entry/exit marking *)

(** The [for] loop of [clipPolyPointInsidePoly]; [n] iterations are left.
    The counter [cn] is [unsigned]; only its parity is used, which the
    wrap-around at [2^32] keeps. *)
Fixpoint pip_loop (d : list ClipVertex) (p : Vec) (n : nat) (i prevIndex cn : Z) : res Z :=
  match n with
  | O => Ok cn
  | S n' =>
      curV ← get d i;
      prevV ← get d prevIndex;
      let c := pos curV in
      let q := pos prevV in
      let cn' :=
        if ((vy p <=? vy q)%F && (vy p >? vy c)%F)
           || ((vy p >? vy q)%F && (vy p <=? vy c)%F)
        then
          let t := ((vy q - vy p) / (vy q - vy c))%F in
          let xIntersection := (vx q + t * (vx c - vx q))%F in
          if (vx p <? xIntersection)%F then cn + 1 else cn
        else cn in
      pip_loop d p n' (i + 1) i cn'
  end.

Definition clipPolyPointInsidePoly (poly : ClipVertices) (p : Vec) : res bool :=
  let count := originalSize poly in
  cn ← pip_loop (data poly) p (Z.to_nat count) 0 (usize (count - 1)) 0;
  Ok (negb (cn mod 2 =? 0)).

(** The [do ... while( i != 0 )] loop of
    [clipPolyMarkEntryExitPointsSingle]. *)
Fixpoint mark_loop (fuel : nat) (d : list ClipVertex) (i : Z) (inside : bool)
  : res (list ClipVertex) :=
  match fuel with
  | O => OutOfFuel
  | S fuel' =>
      entry ← get d i;
      let hit := has_flag entry CVF_INTERSECT in
      d' ← (if hit && inside
            then put d i (set_flags entry (Z.lor (flags entry) CVF_EXIT))
            else Ok d);
      let inside' := if hit then negb inside else inside in
      let i' := next entry in
      if i' =? 0 then Ok d' else mark_loop fuel' d' i' inside'
  end.

Definition clipPolyMarkEntryExitPointsSingle (fuel : nat) (current other : ClipVertices)
    (dir : ClipFollowDirection) : res ClipVertices :=
  if 0 <? size current then
    first ← get (data current) 0;
    inside ← clipPolyPointInsidePoly other (pos first);
    let inside := match dir with CFD_FORWARD => inside | CFD_BACKWARD => negb inside end in
    d ← mark_loop fuel (data current) (next first) inside;
    Ok (set_data current d)
  else Ok current.

Definition clipPolyMarkEntryExitPoints (fuel : nat) (a b : ClipVertices)
    (aDir bDir : ClipFollowDirection) : res (ClipVertices * ClipVertices) :=
  a' ← clipPolyMarkEntryExitPointsSingle fuel a b aDir;
  b' ← clipPolyMarkEntryExitPointsSingle fuel b a' bDir;
  Ok (a', b').

(** *** Emission *)

(** The variables of [clipPolyEmitClippedPolygons]. [eonA] tells whether
    [currentVertices] is [a]; the pointer [current] is always
    [&currentVertices->data[i]]. [epolys] is the caller's [polygons]
    array and [epool] the caller's [vertices] pool. *)
Record EmitState : Type := mkEmit {
  ea : ClipVertices;
  eb : ClipVertices;
  eonA : bool;
  ei : Z;
  ecurrentPoly : Z;
  epolyCount : Z;
  eput : Z;
  epolys : list ClipPolygonEntry;
  epool : list Vec;
  ehas : bool
}.

Definition ecur (s : EmitState) : ClipVertices := if eonA s then ea s else eb s.

Definition with_cur_data (s : EmitState) (d : list ClipVertex) : EmitState :=
  if eonA s
  then mkEmit (set_data (ea s) d) (eb s) (eonA s) (ei s) (ecurrentPoly s) (epolyCount s)
              (eput s) (epolys s) (epool s) (ehas s)
  else mkEmit (ea s) (set_data (eb s) d) (eonA s) (ei s) (ecurrentPoly s) (epolyCount s)
              (eput s) (epolys s) (epool s) (ehas s).

Definition with_i (s : EmitState) (i : Z) : EmitState :=
  mkEmit (ea s) (eb s) (eonA s) i (ecurrentPoly s) (epolyCount s)
         (eput s) (epolys s) (epool s) (ehas s).

Definition with_swap (s : EmitState) : EmitState :=
  mkEmit (ea s) (eb s) (negb (eonA s)) (ei s) (ecurrentPoly s) (epolyCount s)
         (eput s) (epolys s) (epool s) (ehas s).

Definition with_pool (s : EmitState) (pool : list Vec) (put_ : Z) : EmitState :=
  mkEmit (ea s) (eb s) (eonA s) (ei s) (ecurrentPoly s) (epolyCount s)
         put_ (epolys s) pool (ehas s).

Definition with_polys (s : EmitState) (polys : list ClipPolygonEntry)
    (currentPoly polyCount : Z) : EmitState :=
  mkEmit (ea s) (eb s) (eonA s) (ei s) currentPoly polyCount
         (eput s) polys (epool s) (ehas s).

Definition with_has (s : EmitState) : EmitState :=
  mkEmit (ea s) (eb s) (eonA s) (ei s) (ecurrentPoly s) (epolyCount s)
         (eput s) (epolys s) (epool s) true.

Definition set_processed (v : ClipVertex) : ClipVertex :=
  set_flags v (Z.lor (flags v) CVF_PROCESSED).

(** [result.polygons = polyCount; result.vertices = (tmpo_index)put;] *)
Definition emit_result (s : EmitState) : ClipPolyResult :=
  mkResult (epolyCount s) (u16 (eput s)).

(** [polygons[currentPoly].size = &vertices[put] - polygons[currentPoly].vertices]
    under its guard [currentPoly < polyCount]. *)
Definition emit_close (s : EmitState) : res EmitState :=
  if ecurrentPoly s <? epolyCount s then
    polys ← modify (epolys s) (ecurrentPoly s)
              (fun e => mkEntry (evertices e) (eput s - evertices e));
    Ok (with_polys s polys (ecurrentPoly s) (epolyCount s))
  else Ok s.

(** [currentPoly = polyCount++; polygons[currentPoly].vertices = &vertices[put];] *)
Definition emit_open (s : EmitState) : res EmitState :=
  polys ← modify (epolys s) (epolyCount s) (fun e => mkEntry (eput s) (esize e));
  Ok (with_polys s polys (epolyCount s) (epolyCount s + 1)).

(** An inner loop either runs out of room and makes the function return
    ([Return]) or hands over to the code after it ([Next]). *)
Inductive Flow : Type :=
| Return (s : EmitState)
| Next (s : EmitState).

(** The two innermost [do ... while( !( current->flags & CVF_INTERSECT ) )]
    loops; [backward] chooses the one that follows [prev]. *)
Fixpoint emit_walk (fuel : nat) (backward : bool) (size_ : Z) (s : EmitState) : res Flow :=
  match fuel with
  | O => OutOfFuel
  | S fuel' =>
      cur ← get (data (ecur s)) (ei s);
      let i := if backward then prev cur else next cur in
      d ← modify (data (ecur s)) i set_processed;
      let s := with_i (with_cur_data s d) i in
      current ← get d i;
      if size_ <? eput s + 1 then Ok (Return s)
      else
        pool ← put (epool s) (eput s) (pos current);
        let s := with_pool s pool (eput s + 1) in
        if has_flag current CVF_INTERSECT then Ok (Next s)
        else emit_walk fuel' backward size_ s
  end.

(** The [do ... while( i != start || currentVertices != startVertices )]
    loop that traces one polygon. *)
Fixpoint emit_trace (wfuel fuel : nat) (size_ start : Z) (startOnA : bool)
    (s : EmitState) : res Flow :=
  match fuel with
  | O => OutOfFuel
  | S fuel' =>
      cur ← get (data (ecur s)) (ei s);
      w ← emit_walk wfuel (has_flag cur CVF_EXIT) size_ s;
      match w with
      | Return s => Ok (Return s)
      | Next s =>
          cur ← get (data (ecur s)) (ei s);
          let s := with_i (with_swap s) (neighbor cur) in
          d ← modify (data (ecur s)) (ei s) set_processed;
          let s := with_cur_data s d in
          if (ei s =? start) && eqb (eonA s) startOnA then Ok (Next s)
          else emit_trace wfuel fuel' size_ start startOnA s
      end
  end.

(** The body of [while( i != 0 )] up to the step to the next node. *)
Definition emit_visit (wfuel : nat) (maxPolygons size_ : Z) (s : EmitState) : res Flow :=
  current ← get (data (ecur s)) (ei s);
  if Z.land (flags current) (Z.lor CVF_INTERSECT CVF_PROCESSED) =? CVF_INTERSECT then
    d ← modify (data (ecur s)) (ei s) set_processed;
    let s := with_has (with_cur_data s d) in
    s ← emit_close s;
    if maxPolygons <? epolyCount s + 1 then Ok (Return s)
    else
      s ← emit_open s;
      emit_trace wfuel wfuel size_ (ei s) (eonA s) s
  else Ok (Next s).

Fixpoint emit_outer (wfuel fuel : nat) (maxPolygons size_ : Z) (s : EmitState) : res Flow :=
  match fuel with
  | O => OutOfFuel
  | S fuel' =>
      if ei s =? 0 then Ok (Next s)
      else
        v ← emit_visit wfuel maxPolygons size_ s;
        match v with
        | Return s => Ok (Return s)
        | Next s =>
            current ← get (data (ecur s)) (ei s);
            emit_outer wfuel fuel' maxPolygons size_ (with_i s (next current))
        end
  end.

(** The loop [for( j = 0; j < size; ++j ) vertices[j] = ring->data[j].pos]. *)
Fixpoint emit_copy (n : nat) (j : Z) (d : list ClipVertex) (pool : list Vec) : res (list Vec) :=
  match n with
  | O => Ok pool
  | S n' =>
      v ← get d j;
      pool ← put pool j (pos v);
      emit_copy n' (j + 1) d pool
  end.

(** One branch of the containment fallback: emit the original loop of
    [ring]. *)
Definition emit_whole (maxPolygons size_ : Z) (ring : ClipVertices) (s : EmitState)
  : res Flow :=
  if maxPolygons <? epolyCount s + 1 then Ok (Return s)
  else
    s ← emit_open s;
    let size_ := if originalSize ring <? size_ then originalSize ring else size_ in
    pool ← emit_copy (Z.to_nat size_) 0 (data ring) (epool s);
    Ok (Next (with_pool s pool size_)).

(** The code after the outer loop, up to the last [if]. *)
Definition emit_fallback (maxPolygons size_ : Z) (s : EmitState) : res Flow :=
  if ehas s then Ok (Next s)
  else
    a0 ← get (data (ea s)) 0;
    inB ← clipPolyPointInsidePoly (eb s) (pos a0);
    if inB : bool then emit_whole maxPolygons size_ (ea s) s
    else if size (eb s) =? 0 then Ok (Next s)
    else
      b0 ← get (data (eb s)) 0;
      inA ← clipPolyPointInsidePoly (ea s) (pos b0);
      if inA : bool then emit_whole maxPolygons size_ (eb s) s
      else Ok (Next s).

(** [maxCount] is the capacity the caller states for [vertices];
    [maxPolygons] the one stated for [polygons]. The final state holds the
    rings, the [polygons] array and the pool as the function leaves
    them. *)
Definition clipPolyEmitClippedPolygons (fuel : nat) (a b : ClipVertices)
    (polygons : list ClipPolygonEntry) (maxPolygons : Z)
    (vertices : list Vec) (maxCount : Z) : res (ClipPolyResult * EmitState) :=
  let s0 := mkEmit a b true 0 1 0 0 polygons vertices false in
  if size a <? 1 then Ok (mkResult 0 0, s0)
  else
    first ← get (data a) 0;
    let s := with_i s0 (next first) in
    o ← emit_outer fuel fuel maxPolygons maxCount s;
    match o with
    | Return s => Ok (emit_result s, s)
    | Next s =>
        f ← emit_fallback maxPolygons maxCount s;
        match f with
        | Return s => Ok (emit_result s, s)
        | Next s => s ← emit_close s; Ok (emit_result s, s)
        end
    end.

(** [clipPolyEmitClippedPolygon]: one entry, zero initialised. *)
Definition clipPolyEmitClippedPolygon (fuel : nat) (a b : ClipVertices)
    (vertices : list Vec) (maxCount : Z) : res (Z * EmitState) :=
  r ← clipPolyEmitClippedPolygons fuel a b [mkEntry 0 0] 1 vertices maxCount;
  e ← get (epolys (r.2)) 0;
  Ok (esize e, r.2).

End Model.

(** ** Concrete inputs in single precision *)

Module Inputs.

Definition V32 (x y : Z) : @Vec spec_float := mkVec (b32_of_Z x) (b32_of_Z y).

(** The point [(xm * 2^xe, ym * 2^ye)]. *)
Definition D32 (xm xe ym ye : Z) : @Vec spec_float :=
  mkVec (b32_dyadic xm xe) (b32_dyadic ym ye).

Definition cv0 : @ClipVertex spec_float := mkCV vzero 0 0 0 0 0 fzero.

(** A zeroed slab of [n] clip vertices. *)
Definition slab (n : nat) : list (@ClipVertex spec_float) := replicate n cv0.

(** The caller's side of the clipper: transform both polygons into slabs
    of [cap] entries, find the intersections, mark, emit. *)
Definition pipeline (fuel : nat) (va vb : list Vec) (cap : nat)
    (da db : ClipFollowDirection) (polys : list ClipPolygonEntry) (maxPolygons : Z)
    (pool : list Vec) (maxCount : Z) : res (ClipPolyResult * EmitState) :=
  a ← clipPolyTransformData va (slab cap);
  b ← clipPolyTransformData vb (slab cap);
  ab ← clipPolyFindIntersections fuel a b;
  ab ← clipPolyMarkEntryExitPoints fuel ab.1 ab.2 da db;
  clipPolyEmitClippedPolygons fuel ab.1 ab.2 polys maxPolygons pool maxCount.

(** Transform and intersection finding only. *)
Definition intersect (fuel : nat) (va vb : list Vec) (cap : nat)
  : res (ClipVertices * ClipVertices) :=
  a ← clipPolyTransformData va (slab cap);
  b ← clipPolyTransformData vb (slab cap);
  clipPolyFindIntersections fuel a b.

(** The unit square and the unit square moved by [(0.5, 0.5)]. *)
Definition unitSquare : list Vec := [V32 0 0; V32 1 0; V32 1 1; V32 0 1].
Definition shiftedSquare : list Vec :=
  [D32 1 (-1) 1 (-1); D32 3 (-1) 1 (-1); D32 3 (-1) 3 (-1); D32 1 (-1) 3 (-1)].
Definition farSquare : list Vec := [V32 5 5; V32 6 5; V32 6 6; V32 5 6].


(** A convex pentagon with the vertex [(1,0)] on the edge from [(0,0)] to
    [(2,0)]. *)
Definition pentagon : list Vec := [V32 0 0; V32 1 0; V32 2 0; V32 2 2; V32 0 2].

(** A triangle whose doubled signed area is [-1] and whose shoelace
    summands are [-2^24], [-1] and [2^24]. *)
Definition thinTriangle : list Vec := [V32 1 0; V32 1 (-1); V32 0 (2 ^ 24)].

(** A triangle with the edge [(0,0) -> (4,0)] and a flat triangle whose
    edge [(1,-2^-23) -> (3,2^-23)] crosses it in [(2,0)]; the cross
    product of the two directions is [2^-20], below [0.000001f]. *)
Definition nearParA : list Vec := [V32 0 0; V32 4 0; V32 2 4].
Definition nearParB : list Vec := [D32 1 0 (-1) (-23); D32 3 0 1 (-23); V32 2 (-1)].

(** A large triangle with the edge [(-2^20,0) -> (2^20,0)] and a small
    one whose vertex [(2,-2^-16)] lies just below that edge. *)
Definition longA : list Vec := [V32 (- 2 ^ 20) 0; V32 (2 ^ 20) 0; V32 0 (2 ^ 20)].
Definition dipB : list Vec := [V32 1 1; D32 2 0 (-1) (-16); V32 3 1].


(** The rings of the two overlapping squares, before and after
    intersection finding, and those of [longA] and [dipB]. *)
Definition ring_of (m : res (@ClipVertices spec_float)) : ClipVertices :=
  match m with
  | Ok r => r
  | _ => mkRing [] 0 0 0
  end.

Definition rings_of (m : res (@ClipVertices spec_float * @ClipVertices spec_float))
  : ClipVertices * ClipVertices :=
  match m with
  | Ok ab => ab
  | _ => (mkRing [] 0 0 0, mkRing [] 0 0 0)
  end.

Definition squareRingA : ClipVertices :=
  Eval vm_compute in ring_of (clipPolyTransformData unitSquare (slab 16)).
Definition squareRingB : ClipVertices :=
  Eval vm_compute in ring_of (clipPolyTransformData shiftedSquare (slab 16)).
Definition squareRings : ClipVertices * ClipVertices :=
  Eval vm_compute in rings_of (clipPolyFindIntersections 100 squareRingA squareRingB).

Definition longRingA : ClipVertices :=
  Eval vm_compute in ring_of (clipPolyTransformData longA (slab 8)).
Definition dipRingB : ClipVertices :=
  Eval vm_compute in ring_of (clipPolyTransformData dipB (slab 8)).
Definition dipRings : ClipVertices * ClipVertices :=
  Eval vm_compute in rings_of (clipPolyFindIntersections 100 longRingA dipRingB).

Definition unitRing : ClipVertices :=
  Eval vm_compute in ring_of (clipPolyTransformData unitSquare (slab 16)).
Definition farSquareRing : ClipVertices :=
  Eval vm_compute in ring_of (clipPolyTransformData farSquare (slab 16)).

End Inputs.

(** * Specification vocabulary *)

(** ** Further concrete values *)

Definition half32 : spec_float := b32_dyadic 1 (-1).

(** The sum of the shoelace summands along an open chain of points. *)
Fixpoint chain (l : list (@Vec Qc)) : Qc :=
  match l with
  | p :: (q :: _) as t => (@shoelace_term Qc exactQ p q + chain t)%Qc
  | _ => 0%Qc
  end.

(** ** Ear clipping *)

(** Fuel that always suffices for a loop started on [n] vertices: every
    ear removal is followed by at most [2 * size + 2] rejections. *)
Definition tri_fuel (n : Z) : nat := Z.to_nat (2 * n * n + 6 * n + 3).

(** An emitted index: a vertex index plus [begin], as a [tmpo_index]. *)
Definition emitted_index (count begin : Z) (x : Z) : Prop :=
  exists q, 0 <= q < count /\ x = u16 (q + begin).

(** What the loop keeps true; [n0] is the length of the scratch ring at
    the start. *)
Record tri_invariant (count begin maxIndices : Z) (n0 : Z) (s : TriState) : Prop := {
  ti_size : 0 <= tsize s <= n0;
  ti_len : n0 <= zlen (tquery s);
  ti_abc : 3 <= tsize s ->
           0 <= ta s < tsize s /\ 0 <= tb s < tsize s /\ 0 <= tc s < tsize s
           /\ tc s = tcurrent s;
  ti_two : 3 <= n0 -> 2 <= tsize s;
  ti_query : forall k q, 0 <= k < tsize s -> tquery s !! Z.to_nat k = Some q ->
             0 <= q < count;
  ti_count : tindices s = 3 * (n0 - tsize s);
  ti_out : zlen (tout s) = tindices s;
  ti_max : tindices s = 0 \/ tindices s <= maxIndices;
  ti_emitted : Forall (emitted_index count begin) (tout s)
}.

(** What each pass of the loop decreases. *)
Definition tri_measure (n0 : Z) (s : TriState) : nat :=
  Z.to_nat (tsize s * (2 * n0 + 4) + Z.max 0 (2 * tsize s + 2 - titer s)).

(** ** Clip rings *)

(** What the proofs need of the comparisons: [<] is asymmetric, and two
    values that compare with zero (no NaN) compare with each other. *)
Class FloatOrder {F : Type} (FO : FloatOps F) : Prop := {
  fltb_asym : forall x y : F, (x <? y)%F = true -> (y <? x)%F = false;
  fleb_total : forall x y : F,
    (fzero <=? x)%F = true -> (fzero <=? y)%F = true ->
    (y <? x)%F = false -> (x <=? y)%F = true
}.

Section RingSpec.
Context {F : Type} {FO : FloatOps F}.

Definition cv_dummy : @ClipVertex F := mkCV vzero 0 0 0 0 0 fzero.

(** The node at index [v]; total, for use in statements. *)
Definition nd (d : list (@ClipVertex F)) (v : Z) : ClipVertex :=
  match get d v with
  | Ok n => n
  | _ => cv_dummy
  end.

(** The node at [v] once [clipPolyCreateIntersection] has appended node
    [n] after node [at_] of the slab [d]. *)
Definition node_after_insert (d : list (@ClipVertex F)) (n at_ : Z) (p : Vec)
    (nb : Z) (t : F) (v : Z) : ClipVertex :=
  let X := next (nd d at_) in
  let w0 := if v =? n
            then set_flags (set_next (set_prev (nd d n) (u16 at_)) X) 0
            else nd d v in
  let w1 := if v =? at_ then set_next w0 (u16 n) else w0 in
  let w2 := if v =? X then set_prev w1 (u16 n) else w1 in
  if v =? n
  then set_alpha (set_neighbor (set_flags (set_pos w2 p)
                                          (Z.lor (flags w2) CVF_INTERSECT))
                               (u16 nb)) t
  else w2.

(** Node [v] of the slab [d] carries [CVF_INTERSECT]. *)
Definition is_cross (d : list (@ClipVertex F)) (v : Z) : bool :=
  has_flag (nd d v) CVF_INTERSECT.

(** A well-formed ring: the populated prefix fits the slab and 16-bit
    indices, the intersection nodes are exactly those appended after the
    original vertices, and [next] and [prev] are inverse to each other on
    the prefix. *)
Record ring_ok (r : @ClipVertices F) : Prop := {
  ro_orig : 0 <= originalSize r <= size r;
  ro_size : size r <= zlen (data r);
  ro_cap : zlen (data r) <= 65536;
  ro_flag : forall v, 0 <= v < size r ->
            is_cross (data r) v = (originalSize r <=? v);
  ro_next : forall v, 0 <= v < size r ->
            0 <= next (nd (data r) v) < size r
            /\ prev (nd (data r) (next (nd (data r) v))) = v;
  ro_prev : forall v, 0 <= v < size r ->
            0 <= prev (nd (data r) v) < size r
            /\ next (nd (data r) (prev (nd (data r) v))) = v
}.

(** Every intersection node of [a] is paired with one of [b]. *)
Definition cross_linked (a b : @ClipVertices F) : Prop :=
  forall v, originalSize a <= v < size a ->
    let k := neighbor (nd (data a) v) in
    originalSize b <= k < size b
    /\ neighbor (nd (data b) k) = v
    /\ pos (nd (data b) k) = pos (nd (data a) v).

(** From an intersection node to the intersection node after it, [alpha]
    does not decrease. *)
Definition alpha_sorted (r : @ClipVertices F) : Prop :=
  forall v, 0 <= v < size r ->
    is_cross (data r) v = true ->
    is_cross (data r) (next (nd (data r) v)) = true ->
    (alpha (nd (data r) (next (nd (data r) v))) <? alpha (nd (data r) v))%F = false.

Definition alpha_nonneg (r : @ClipVertices F) : Prop :=
  forall v, 0 <= v < size r -> is_cross (data r) v = true ->
    (fzero <=? alpha (nd (data r) v))%F = true.

(** The loop variables are in range. *)
Record fi_ok (s : @FIState F) : Prop := {
  fo_a : ring_ok (fi_a s);
  fo_b : ring_ok (fi_b s);
  fo_i : 0 <= fi_i s;
  fo_j : 0 <= fi_j s;
  fo_ap : 1 <= originalSize (fi_a s) -> 0 <= aPrevIndex s < originalSize (fi_a s);
  fo_bp : 1 <= originalSize (fi_b s) -> 0 <= bPrevIndex s < originalSize (fi_b s)
}.

(** The passes [fi_step] can make. *)
Inductive fi_trans (wfuel : nat) (s : @FIState F) : FIStep -> Prop :=
| ft_done :
    ~ fi_i s < originalSize (fi_a s) ->
    fi_trans wfuel s (Done (fi_a s) (fi_b s))
| ft_next_i :
    fi_i s < originalSize (fi_a s) -> ~ fi_j s < originalSize (fi_b s) ->
    fi_trans wfuel s
      (Advance (mkFI (fi_a s) (fi_b s) (fi_i s + 1) 0 (fi_i s) (bPrevIndex s)))
| ft_skip :
    fi_i s < originalSize (fi_a s) -> fi_j s < originalSize (fi_b s) ->
    fi_trans wfuel s (fi_next_pair s (fi_a s) (fi_b s))
| ft_perturb_a (idx : Z) (dir : Vec) (d : list ClipVertex) :
    fi_i s < originalSize (fi_a s) -> fi_j s < originalSize (fi_b s) ->
    idx = aPrevIndex s \/ idx = fi_i s ->
    modify (data (fi_a s)) idx (perturb dir) = Ok d ->
    fi_trans wfuel s
      (Retry (mkFI (set_data (fi_a s) d) (fi_b s) (fi_i s) (fi_j s)
                   (aPrevIndex s) (bPrevIndex s)))
| ft_perturb_b (idx : Z) (dir : Vec) (d : list ClipVertex) :
    fi_i s < originalSize (fi_a s) -> fi_j s < originalSize (fi_b s) ->
    idx = bPrevIndex s \/ idx = fi_j s ->
    modify (data (fi_b s)) idx (perturb dir) = Ok d ->
    fi_trans wfuel s
      (Retry (mkFI (fi_a s) (set_data (fi_b s) d) (fi_i s) (fi_j s)
                   (aPrevIndex s) (bPrevIndex s)))
| ft_insert (aV bV : ClipVertex) (ta tb : F) (p : Vec) (ia ib : Z)
            (a' b' : ClipVertices) :
    fi_i s < originalSize (fi_a s) -> fi_j s < originalSize (fi_b s) ->
    get (data (fi_a s)) (fi_i s) = Ok aV ->
    get (data (fi_b s)) (fi_j s) = Ok bV ->
    (fzero <=? ta)%F = true -> (fzero <=? tb)%F = true ->
    clipPolyFindIntersectionIndex wfuel (fi_a s) (prev aV) ta = Ok ia ->
    clipPolyFindIntersectionIndex wfuel (fi_b s) (prev bV) tb = Ok ib ->
    clipPolyCreateIntersection (fi_a s) ia p (size (fi_b s)) ta = Ok a' ->
    clipPolyCreateIntersection (fi_b s) ib p (size (fi_a s)) tb = Ok b' ->
    fi_trans wfuel s (fi_next_pair s a' b').

(** The loop state with both rings paired. *)
Definition fi_linked (s : @FIState F) : Prop :=
  fi_ok s /\ cross_linked (fi_a s) (fi_b s) /\ cross_linked (fi_b s) (fi_a s).

(** The loop state with [alpha] in order on both rings. *)
Definition fi_sorted (s : @FIState F) : Prop :=
  fi_ok s /\ (alpha_sorted (fi_a s) /\ alpha_nonneg (fi_a s))
  /\ (alpha_sorted (fi_b s) /\ alpha_nonneg (fi_b s)).


(** The nodes of the ring can be numbered along [prev] down to node
    [0]: the ring is one cycle through node [0]. *)
Definition ring_ord (r : @ClipVertices F) : Prop :=
  exists ord : Z -> Z,
    (forall v, 0 <= v < size r -> 0 <= ord v < size r)
    /\ (forall v, 0 < v < size r -> ord (prev (nd (data r) v)) = ord v - 1)
    /\ (forall u v, 0 <= u < size r -> 0 <= v < size r -> ord u = ord v -> u = v).


(** The ring of the loop [vs] as [clipPolyTransformData] leaves it (the
    [prev] links do not matter here). *)
Record plain_ring (r : @ClipVertices F) (vs : list Vec) : Prop := {
  pr_orig : originalSize r = zlen vs;
  pr_size : size r = zlen vs;
  pr_small : zlen vs <= 65536;
  pr_node : forall i x, 0 <= i -> vs !! Z.to_nat i = Some x ->
            exists pv, get (data r) i
                       = Ok (mkCV x (if i =? zlen vs - 1 then 0 else i + 1) pv 0 0 0 fzero)
}.

(** One polygon, the loop [vs], written at the start of the pool. *)
Definition emits_loop (vs : list (@Vec F))
    (out : res (ClipPolyResult * @EmitState F)) : Prop :=
  exists r st, out = Ok (r, st)
    /\ rpolygons r = 1 /\ rvertices r = u16 (zlen vs)
    /\ epolys st !! 0%nat = Some (mkEntry 0 (zlen vs))
    /\ take (length vs) (epool st) = vs.

(** The clipper after the transform, with directions [(dA, dB)]. *)
Definition clip_after_transform (fuel : nat)
    (a b : @ClipVertices F) (dA dB : ClipFollowDirection)
    (polygons : list ClipPolygonEntry) (maxPolygons : Z)
    (pool : list Vec) (maxCount : Z) : res (ClipPolyResult * EmitState) :=
  ab ← clipPolyFindIntersections fuel a b;
  ab ← clipPolyMarkEntryExitPoints fuel ab.1 ab.2 dA dB;
  clipPolyEmitClippedPolygons fuel ab.1 ab.2 polygons maxPolygons pool maxCount.

End RingSpec.

(** ** Ear clipping: the triangles written *)

(** The index stream cut into triangles. *)
Fixpoint triples (l : list Z) : list (list Z) :=
  match l with
  | x :: y :: z :: r => [x; y; z] :: triples r
  | _ => []
  end.

(** Three different vertex indices below [n], each offset by [begin]. *)
Definition distinct_corners (n begin : Z) (t : list Z) : Prop :=
  exists qa qb qc,
    t = [u16 (qa + begin); u16 (qb + begin); u16 (qc + begin)]
    /\ (0 <= qa < n /\ 0 <= qb < n /\ 0 <= qc < n)
    /\ (qa <> qb /\ qb <> qc /\ qa <> qc)
    /\ (u16 (qa + begin) <> u16 (qb + begin)
        /\ u16 (qb + begin) <> u16 (qc + begin)
        /\ u16 (qa + begin) <> u16 (qc + begin)).

(** What the scratch ring holds: the vertex indices not yet clipped, in
    ascending order, and [a], [b], [c] three consecutive positions of
    it. *)
Record tri_order (n0 : Z) (s : TriState) : Prop := {
  to_sorted : forall k1 k2 q1 q2, 0 <= k1 -> k1 < k2 -> k2 < tsize s ->
              tquery s !! Z.to_nat k1 = Some q1 -> tquery s !! Z.to_nat k2 = Some q2 ->
              q1 < q2;
  to_range : forall k q, 0 <= k < tsize s -> tquery s !! Z.to_nat k = Some q ->
             0 <= q < n0;
  to_next : 3 <= tsize s ->
            (tb s = ta s + 1 \/ (ta s = tsize s - 1 /\ tb s = 0))
            /\ (tc s = tb s + 1 \/ (tb s = tsize s - 1 /\ tc s = 0))
}.

(** A triangle as the loop writes it for a triple of scratch entries that
    passed [isTriangleEar]. *)
Definition ear_emission {F : Type} {FO : FloatOps F} (TMPO_CLOCKWISE_TRIANGLES : bool)
    (vertices : list (@Vec F)) (clockwise : bool) (begin : Z) (t : list Z) : Prop :=
  exists qa qb qc,
    t = tri_emit TMPO_CLOCKWISE_TRIANGLES clockwise begin qa qb qc
    /\ isTriangleEar qa qb qc vertices clockwise = Ok true.

(** ** Clip rings: what the phases establish *)

Section RingSpecMore.
Context {F : Type} {FO : FloatOps F}.

(** The loop state whose rings have the sizes given and have gained the
    same number of nodes. *)
Definition fi_grown (nA nB lA lB cA cB : Z) (s : @FIState F) : Prop :=
  originalSize (fi_a s) = nA /\ originalSize (fi_b s) = nB
  /\ zlen (data (fi_a s)) = lA /\ zlen (data (fi_b s)) = lB
  /\ capacity (fi_a s) = cA /\ capacity (fi_b s) = cB
  /\ size (fi_a s) - nA = size (fi_b s) - nB.

(** Flags as intersection finding leaves them: [CVF_INTERSECT] alone on
    the appended nodes, nothing on the original vertices. *)
Definition flags_fresh (r : @ClipVertices F) : Prop :=
  forall v, 0 <= v < size r ->
    flags (nd (data r) v) = if originalSize r <=? v then CVF_INTERSECT else 0.

(** Both rings carry fresh flags, and nodes were appended only to rings
    that have vertices. *)
Definition fi_fresh (s : @FIState F) : Prop :=
  flags_fresh (fi_a s) /\ flags_fresh (fi_b s)
  /\ ((size (fi_a s) = originalSize (fi_a s) /\ size (fi_b s) = originalSize (fi_b s))
      \/ (1 <= originalSize (fi_a s) /\ 1 <= originalSize (fi_b s))).

(** What intersection finding establishes of a ring made in a slab of
    [len] entries from [n] vertices. *)
Definition ring_found (n len : Z) (r : @ClipVertices F) : Prop :=
  ring_ok r /\ ring_ord r /\ flags_fresh r
  /\ originalSize r = n /\ capacity r = len /\ zlen (data r) = len
  /\ (size r = n \/ 1 <= n).

End RingSpecMore.

(** More vertices than a 16 bit link can address. *)
Definition manyVertices : list (@Vec spec_float) := replicate (Z.to_nat 65537) (Inputs.V32 0 0).

(** A slab with room for them. *)
Definition manySlab : list (@ClipVertex spec_float) := Inputs.slab (Z.to_nat 65537).

(** A ring of no vertices. *)
Definition noRing : @ClipVertices spec_float := mkRing [] 0 0 0.

(** ** Marking: what it changes *)

Section MarkSpec.
Context {F : Type} {FO : FloatOps F}.

(** A node after marking: as before, or, when it carries
    [CVF_INTERSECT], with [CVF_EXIT] set besides. *)
Definition marked_node (v w : @ClipVertex F) : Prop :=
  w = v \/ (has_flag v CVF_INTERSECT = true
            /\ w = set_flags v (Z.lor (flags v) CVF_EXIT)).

Definition marked_data (d d' : list (@ClipVertex F)) : Prop :=
  zlen d' = zlen d /\ forall v, marked_node (nd d v) (nd d' v).

(** A ring after marking. *)
Definition ring_marked (r r' : @ClipVertices F) : Prop :=
  originalSize r' = originalSize r /\ size r' = size r /\ capacity r' = capacity r
  /\ marked_data (data r) (data r').

End MarkSpec.

(** Whether two follow directions are the same. *)
Definition same_direction (d d' : ClipFollowDirection) : bool :=
  match d, d' with
  | CFD_FORWARD, CFD_FORWARD | CFD_BACKWARD, CFD_BACKWARD => true
  | _, _ => false
  end.

(** The two overlapping squares after marking, both followed forward,
    and with the first followed backward. *)
Definition markedSquares : @ClipVertices spec_float * @ClipVertices spec_float :=
  Eval vm_compute in
    Inputs.rings_of (clipPolyMarkEntryExitPoints 100 Inputs.squareRings.1
                       Inputs.squareRings.2 CFD_FORWARD CFD_FORWARD).
Definition markedSquaresBackward : @ClipVertices spec_float * @ClipVertices spec_float :=
  Eval vm_compute in
    Inputs.rings_of (clipPolyMarkEntryExitPoints 100 Inputs.squareRings.1
                       Inputs.squareRings.2 CFD_BACKWARD CFD_FORWARD).

(** ** Emission: what it writes *)

(** Polygon entries that lie one after the other in the pool from offset
    [start] on, and the offset at which they end. *)
Fixpoint laid_out (start : Z) (l : list ClipPolygonEntry) : Prop :=
  match l with
  | [] => True
  | e :: l' => evertices e = start /\ 0 <= esize e /\ laid_out (start + esize e) l'
  end.

Fixpoint layout_end (start : Z) (l : list ClipPolygonEntry) : Z :=
  match l with
  | [] => start
  | e :: l' => layout_end (start + esize e) l'
  end.

Section EmitSpec.
Context {F : Type} {FO : FloatOps F}.

(** A node after emission: as before, or with [CVF_PROCESSED] set
    besides. *)
Definition processed_node (v w : @ClipVertex F) : Prop :=
  w = v \/ w = set_flags v (Z.lor (flags v) CVF_PROCESSED).

Definition ring_processed (r r' : @ClipVertices F) : Prop :=
  originalSize r' = originalSize r /\ size r' = size r /\ capacity r' = capacity r
  /\ zlen (data r') = zlen (data r)
  /\ forall v, processed_node (nd (data r) v) (nd (data r') v).

(** What emission never exceeds or touches: the polygon count and the
    fill level stay within the capacities given, the pool is as the
    caller passed it from the fill level on, the polygon array from the
    polygon count on, and the rings have at most gained
    [CVF_PROCESSED] flags. *)
Record emit_bounds (a0 b0 : @ClipVertices F) (polys0 : list ClipPolygonEntry)
    (pool0 : list Vec) (maxPolygons maxCount : Z) (s : @EmitState F) : Prop := {
  eb_count : 0 <= epolyCount s /\ (epolyCount s = 0 \/ epolyCount s <= maxPolygons);
  eb_put : 0 <= eput s <= maxCount;
  eb_pool_len : length (epool s) = length pool0;
  eb_pool_tail : forall i : nat, eput s <= Z.of_nat i -> epool s !! i = pool0 !! i;
  eb_polys_len : length (epolys s) = length polys0;
  eb_polys_tail : forall k : nat, epolyCount s <= Z.of_nat k -> epolys s !! k = polys0 !! k;
  eb_ring_a : ring_processed a0 (ea s);
  eb_ring_b : ring_processed b0 (eb s)
}.

(** No polygon begun. *)
Definition emit_idle (s : @EmitState F) : Prop :=
  epolyCount s = 0 /\ ecurrentPoly s = 1 /\ eput s = 0.

(** The last polygon begun is being written: the entries before it lie
    one after the other from offset [0] up to its start, and its size is
    still the one the caller passed. *)
Definition emit_writing (polys0 : list ClipPolygonEntry) (s : @EmitState F) : Prop :=
  1 <= epolyCount s /\ ecurrentPoly s = epolyCount s - 1
  /\ exists e e0,
       epolys s !! Z.to_nat (ecurrentPoly s) = Some e
       /\ polys0 !! Z.to_nat (ecurrentPoly s) = Some e0
       /\ esize e = esize e0
       /\ laid_out 0 (take (Z.to_nat (ecurrentPoly s)) (epolys s))
       /\ layout_end 0 (take (Z.to_nat (ecurrentPoly s)) (epolys s)) = evertices e
       /\ evertices e <= eput s.

(** Every polygon begun has its size: the entries lie one after the other
    from offset [0] up to the fill level. *)
Definition emit_closed (s : @EmitState F) : Prop :=
  laid_out 0 (take (Z.to_nat (epolyCount s)) (epolys s))
  /\ layout_end 0 (take (Z.to_nat (epolyCount s)) (epolys s)) = eput s.

(** What the two innermost loops and the tracing loop leave. *)
Definition post_inner (a0 b0 : @ClipVertices F) (polys0 : list ClipPolygonEntry)
    (pool0 : list Vec) (maxPolygons maxCount : Z) (f : @Flow F) : Prop :=
  match f with
  | Next s => emit_bounds a0 b0 polys0 pool0 maxPolygons maxCount s
              /\ emit_writing polys0 s /\ ehas s = true
  | Return s => emit_bounds a0 b0 polys0 pool0 maxPolygons maxCount s
                /\ emit_writing polys0 s /\ maxCount <= eput s
  end.

(** What the visit of a node and the outer loop leave. *)
Definition post_outer (a0 b0 : @ClipVertices F) (polys0 : list ClipPolygonEntry)
    (pool0 : list Vec) (maxPolygons maxCount : Z) (f : @Flow F) : Prop :=
  match f with
  | Next s => emit_bounds a0 b0 polys0 pool0 maxPolygons maxCount s
              /\ (if ehas s then emit_writing polys0 s else emit_idle s)
  | Return s => emit_bounds a0 b0 polys0 pool0 maxPolygons maxCount s
                /\ (emit_closed s \/ (emit_writing polys0 s /\ maxCount <= eput s))
  end.

(** What the containment fallback leaves. *)
Definition post_fallback (a0 b0 : @ClipVertices F) (polys0 : list ClipPolygonEntry)
    (pool0 : list Vec) (maxPolygons maxCount : Z) (f : @Flow F) : Prop :=
  match f with
  | Next s => emit_bounds a0 b0 polys0 pool0 maxPolygons maxCount s
              /\ (emit_writing polys0 s \/ emit_idle s)
  | Return s => emit_bounds a0 b0 polys0 pool0 maxPolygons maxCount s
                /\ (emit_closed s \/ (emit_writing polys0 s /\ maxCount <= eput s))
  end.

(** States that agree on everything the polygon book-keeping reads. *)
Definition same_book (s s' : @EmitState F) : Prop :=
  epolys s' = epolys s /\ epolyCount s' = epolyCount s
  /\ ecurrentPoly s' = ecurrentPoly s /\ ehas s' = ehas s.

End EmitSpec.


(** What emission gives on the two overlapping squares after marking:
    several polygons into a pool of 16, and the single polygon of
    [clipPolyEmitClippedPolygon]. *)
Definition emittedSquares : ClipPolyResult * @EmitState spec_float :=
  Eval vm_compute in
    match clipPolyEmitClippedPolygons 100 markedSquares.1 markedSquares.2
            (replicate 4 (mkEntry 0 0)) 4 (replicate 16 vzero) 16 with
    | Ok x => x
    | _ => (mkResult 0 0, mkEmit noRing noRing true 0 0 0 0 [] [] false)
    end.
Definition emittedSquare : Z * @EmitState spec_float :=
  Eval vm_compute in
    match clipPolyEmitClippedPolygon 100 markedSquares.1 markedSquares.2
            (replicate 16 vzero) 16 with
    | Ok x => x
    | _ => (0, mkEmit noRing noRing true 0 0 0 0 [] [] false)
    end.

(** ** Ear clipping: how the loop ends *)


(** No three entries of the ring at consecutive positions (the ring is
    closed: after the last entry comes the first) pass the ear test. *)
Definition no_ear {F : Type} {FO : FloatOps F} (vertices : list (@Vec F))
    (clockwise : bool) (ring : list Z) : Prop :=
  forall p qa qb qc, 0 <= p < zlen ring ->
    ring !! Z.to_nat p = Some qa ->
    ring !! Z.to_nat ((p + 1) mod zlen ring) = Some qb ->
    ring !! Z.to_nat ((p + 2) mod zlen ring) = Some qc ->
    isTriangleEar qa qb qc vertices clockwise = Ok false.

(** Three indices in the order of the vertex loop. *)
Definition cyclic_order (i j k : Z) : Prop :=
  i < j < k \/ j < k < i \/ k < i < j.

(** Every three vertices, taken in the order of the loop, pass the ear
    test: a convex polygon of the announced orientation, as the code's
    arithmetic sees it. *)
Definition every_triple_ear {F : Type} {FO : FloatOps F} (vertices : list (@Vec F))
    (clockwise : bool) : Prop :=
  forall i j k, 0 <= i < zlen vertices -> 0 <= j < zlen vertices ->
    0 <= k < zlen vertices -> cyclic_order i j k ->
    isTriangleEar i j k vertices clockwise = Ok true.

(** The triples at the [titer] positions before [a] were rejected. *)
Definition tri_failed {F : Type} {FO : FloatOps F} (vertices : list (@Vec F))
    (clockwise : bool) (s : TriState) : Prop :=
  forall d qa qb qc, 1 <= d <= titer s -> d <= tsize s ->
    tquery s !! Z.to_nat ((ta s - d) mod tsize s) = Some qa ->
    tquery s !! Z.to_nat ((ta s - d + 1) mod tsize s) = Some qb ->
    tquery s !! Z.to_nat ((ta s - d + 2) mod tsize s) = Some qc ->
    isTriangleEar qa qb qc vertices clockwise = Ok false.

(** How the loop has ended: the ring is down to two entries, or an ear
    was found with no room for it, or the ring holds no ear. *)
Definition tri_exit {F : Type} {FO : FloatOps F} (vertices : list (@Vec F))
    (clockwise : bool) (maxIndices : Z) (s : TriState) : Prop :=
  tsize s <= 2
  \/ (3 <= tsize s /\ maxIndices < tindices s + 3)
  \/ (3 <= tsize s
      /\ no_ear vertices clockwise (take (Z.to_nat (tsize s)) (tquery s))).

(** ** Intersection finding on a ring of 65536 vertices *)

(** A finite number, and a zero of either sign. *)
Definition sf_finite (x : spec_float) : bool :=
  match x with
  | S754_zero _ | S754_finite _ _ _ => true
  | _ => false
  end.

Definition sf_zero (x : spec_float) : bool :=
  match x with
  | S754_zero _ => true
  | _ => false
  end.

#[global] Instance spec_float_eq_dec : EqDecision spec_float.
Proof. solve_decision. Defined.

#[global] Instance Vec_eq_dec : EqDecision (@Vec spec_float).
Proof. solve_decision. Defined.

(** [n] passes of the loop of [clipPolyFindIntersections] from the state
    [s], none of which leaves the loop. *)
Fixpoint fi_passes (wfuel n : nat) (s : @FIState spec_float) : option FIState :=
  match n with
  | O => Some s
  | S n' =>
      match fi_step wfuel s with
      | Ok (Advance s') | Ok (Retry s') => fi_passes wfuel n' s'
      | _ => None
      end
  end.

(** The loop state with the inner loop at [j]. *)
Definition fi_jump (s : @FIState spec_float) (j : Z) : FIState :=
  mkFI (fi_a s) (fi_b s) (fi_i s) j (aPrevIndex s) (j - 1).

(** A triangle, and a polygon of 65536 vertices: the triangle
    [(0,0), (4,0), (2,4)] with its last vertex repeated. Two edges of the
    first cross the edge [(0,0) -> (4,0)] of the second. *)
Definition wrapTriangle : list (@Vec spec_float) :=
  [Inputs.V32 1 (-1); Inputs.V32 3 (-1); Inputs.V32 2 1].
Definition wrapApex : @Vec spec_float := Inputs.V32 2 4.
Definition wrapPolygon : list (@Vec spec_float) :=
  [Inputs.V32 0 0; Inputs.V32 4 0] ++ replicate (Z.to_nat 65534) wrapApex.
Definition wrapRingA : @ClipVertices spec_float :=
  Inputs.ring_of (clipPolyTransformData wrapTriangle (Inputs.slab 8)).
Definition wrapRingB : @ClipVertices spec_float :=
  Inputs.ring_of (clipPolyTransformData wrapPolygon (Inputs.slab (Z.to_nat 65540))).
Definition wrapFuel : nat := Z.to_nat 196612.

(** What the passes over the edges of zero length need of the state. *)
Definition zero_edges_ready (s : @FIState spec_float) : bool :=
  let a := fi_a s in
  let b := fi_b s in
  let aV := nd (data a) (fi_i s) in
  let aP := nd (data a) (aPrevIndex s) in
  (fi_i s <? originalSize a) && (0 <=? fi_i s) && (fi_i s <? zlen (data a))
  && (0 <=? aPrevIndex s) && (aPrevIndex s <? zlen (data a))
  && sf_finite (vx (pos aV) - vx (pos aP))%F
  && sf_finite (vy (pos aV) - vy (pos aP))%F
  && (fi_j s =? 3) && (bPrevIndex s =? 2)
  && (originalSize b =? 65536) && (65536 <=? zlen (data b))
  && forallb (fun x => bool_decide (pos x = wrapApex))
             (take (Z.to_nat 65534) (drop 2 (data b))).

(** One row of the loop: the three edges of the polygon that have a
    length, the edges that have none, and the step to the next row. *)
Definition wrapRow (s : @FIState spec_float) : FIState :=
  let s1 := default s (fi_passes wrapFuel 3 s) in
  default s (fi_passes wrapFuel 1 (fi_jump s1 65536)).

Definition wrap_row_ok (s : @FIState spec_float) : bool :=
  let s1 := default s (fi_passes wrapFuel 3 s) in
  bool_decide (is_Some (fi_passes wrapFuel 3 s))
  && zero_edges_ready s1
  && bool_decide (is_Some (fi_passes wrapFuel 1 (fi_jump s1 65536))).

Definition wrap0 : @FIState spec_float := fi_init wrapRingA wrapRingB.
Definition wrap1 : @FIState spec_float := wrapRow wrap0.
Definition wrap2 : @FIState spec_float := wrapRow wrap1.
Definition wrap3 : @FIState spec_float := wrapRow wrap2.

(** ** Sums computed without rounding *)

(** The rational number a finite single precision number stands for
    ([0] for the others). *)
Definition SF2Q (x : spec_float) : Q :=
  match x with
  | S754_finite s m e =>
      ((if s then -1 else 1) * inject_Z (Z.pos m) * Qpower 2 e)%Q
  | _ => 0%Q
  end.

(** The result [r] of an operation is finite and is the exact result
    [v]: the operation did not round, overflow or give a NaN. *)
Definition unrounded (r : spec_float) (v : Q) : Prop :=
  sf_finite r = true /\ (SF2Q r == v)%Q.

(** No operation of one summand of the shoelace sum rounds. *)
Definition unrounded_term (last cur : @Vec spec_float) : Prop :=
  unrounded (vx last * vy cur)%F (SF2Q (vx last) * SF2Q (vy cur))
  /\ unrounded (vy last * vx cur)%F (SF2Q (vy last) * SF2Q (vx cur))
  /\ unrounded (shoelace_term last cur)
               (SF2Q (vx last * vy cur)%F - SF2Q (vy last * vx cur)%F).

(** No operation of the loop of [isPolygonClockwise] rounds. *)
Fixpoint unrounded_loop (last : @Vec spec_float) (vs : list Vec) (sum : spec_float)
  : Prop :=
  match vs with
  | [] => True
  | v :: vs' =>
      unrounded_term last v
      /\ unrounded (sum + shoelace_term last v)%F (SF2Q sum + SF2Q (shoelace_term last v))
      /\ unrounded_loop v vs' (sum + shoelace_term last v)%F
  end.

Definition unrounded_shoelace (vertices : list (@Vec spec_float)) : Prop :=
  unrounded_loop (List.last vertices vzero) vertices fzero.

(** The vertex with the coordinates as rationals. *)
Definition VecQ (v : @Vec spec_float) : @Vec Qc :=
  mkVec (Q2Qc (SF2Q (vx v))) (Q2Qc (SF2Q (vy v))).

(** ** Containment in single precision *)



(** * Properties *)

(** ** The result monad and array accesses *)

Lemma bind_Ok {A B : Type} (m : res A) (f : A -> res B) (b : B) :
  m ≫= f = Ok b -> exists a, m = Ok a /\ f a = Ok b.
Proof. destruct m as [a| |]; simpl; intros H; try discriminate. eauto. Qed.

Lemma get_Ok {A : Type} (l : list A) (i : Z) (v : A) :
  get l i = Ok v <-> 0 <= i /\ l !! Z.to_nat i = Some v.
Proof.
  unfold get. destruct (Z.ltb_spec i 0).
  - split; [discriminate | lia].
  - destruct (l !! Z.to_nat i) eqn:E; split; intros H'; try discriminate.
    + inversion H'; subst; auto.
    + destruct H' as [_ H']. congruence.
    + destruct H' as [_ H']. discriminate.
Qed.

Lemma get_range {A : Type} (l : list A) (i : Z) (v : A) :
  get l i = Ok v -> 0 <= i < zlen l.
Proof.
  intros [H0 H]%get_Ok. apply lookup_lt_Some in H. unfold zlen. lia.
Qed.

Lemma get_in_range {A : Type} (l : list A) (i : Z) :
  0 <= i < zlen l -> exists v, get l i = Ok v.
Proof.
  unfold zlen. intros H.
  destruct (lookup_lt_is_Some_2 l (Z.to_nat i)) as [v Hv]; [lia|].
  exists v. apply get_Ok. split; [lia | done].
Qed.

Lemma put_Ok {A : Type} (l l' : list A) (i : Z) (v : A) :
  put l i v = Ok l' <-> 0 <= i < zlen l /\ l' = <[Z.to_nat i := v]> l.
Proof.
  unfold put, zlen. destruct (Z.ltb_spec i 0).
  - split; [discriminate | lia].
  - destruct (Z.ltb_spec i (Z.of_nat (length l))); split; intros H'.
    + inversion H'; subst. split; [lia | done].
    + destruct H' as [_ ->]. done.
    + discriminate.
    + lia.
Qed.

(** Statements about the result of a concrete run are proved by
    running it. *)
Lemma res_holds {A : Type} (m : res A) (P : A -> Prop) :
  match m with Ok x => P x | _ => False end -> exists x, m = Ok x /\ P x.
Proof. destruct m; [eauto | tauto | tauto]. Qed.

(** ** Orientation *)

Section Exact.
Local Existing Instance exactQ.

Ltac qc_ring :=
  change (@fadd Qc exactQ) with Qcplus in *;
  change (@fsub Qc exactQ) with Qcminus in *;
  change (@fmul Qc exactQ) with Qcmult in *;
  change (@fzero Qc exactQ) with 0%Qc in *;
  ring.

Lemma shoelace_term_swap (p q : Vec) :
  shoelace_term q p = (- shoelace_term p q)%Qc.
Proof. unfold shoelace_term. qc_ring. Qed.

Lemma shoelace_loop_chain (vs : list Vec) (p : Vec) (sum : Qc) :
  shoelace_loop p vs sum = (sum + chain (p :: vs))%Qc.
Proof.
  revert p sum. induction vs as [|v vs IH]; intros p sum.
  - simpl. qc_ring.
  - change (shoelace_loop p (v :: vs) sum)
      with (shoelace_loop v vs (sum + shoelace_term p v)%Qc).
    rewrite IH. change (chain (p :: v :: vs)) with (shoelace_term p v + chain (v :: vs))%Qc.
    qc_ring.
Qed.

Lemma chain_snoc (l : list Vec) (p q : Vec) :
  chain ((p :: l) ++ [q]) = (chain (p :: l) + shoelace_term (List.last (p :: l) vzero) q)%Qc.
Proof.
  revert p. induction l as [|r l IH]; intros p.
  - simpl. qc_ring.
  - change (chain ((p :: r :: l) ++ [q])) with (shoelace_term p r + chain ((r :: l) ++ [q]))%Qc.
    rewrite IH.
    change (chain (p :: r :: l)) with (shoelace_term p r + chain (r :: l))%Qc.
    change (List.last (p :: r :: l) vzero) with (List.last (r :: l) vzero).
    qc_ring.
Qed.

Lemma chain_rev (l : list Vec) : chain (rev l) = (- chain l)%Qc.
Proof.
  induction l as [|p l IH]; [reflexivity|].
  destruct l as [|q l]; [reflexivity|].
  change (rev (p :: q :: l)) with (rev (q :: l) ++ [p]).
  change (chain (p :: q :: l)) with (shoelace_term p q + chain (q :: l))%Qc.
  destruct (rev (q :: l)) as [|r t] eqn:E.
  { apply (f_equal length) in E. rewrite length_rev in E. discriminate. }
  rewrite chain_snoc, IH, <- E.
  assert (List.last (rev (q :: l)) vzero = q) as ->.
  { simpl. apply List.last_last. }
  rewrite (shoelace_term_swap p q). qc_ring.
Qed.

Lemma shoelace_closed (vs : list Vec) :
  shoelace vs = chain (List.last vs vzero :: vs).
Proof.
  unfold shoelace. rewrite shoelace_loop_chain. qc_ring.
Qed.

Lemma shoelace_rev (vs : list Vec) : shoelace (rev vs) = (- shoelace vs)%Qc.
Proof.
  destruct vs as [|h vs]; [reflexivity|].
  rewrite !shoelace_closed.
  assert (List.last (rev (h :: vs)) vzero = h) as ->.
  { simpl. apply List.last_last. }
  change (h :: rev (h :: vs)) with (h :: (rev vs ++ [h])).
  replace (h :: (rev vs ++ [h])) with (rev ((h :: vs) ++ [h])).
  2:{ rewrite rev_app_distr. reflexivity. }
  rewrite chain_rev, chain_snoc.
  change (chain (List.last (h :: vs) vzero :: h :: vs))
    with (shoelace_term (List.last (h :: vs) vzero) h + chain (h :: vs))%Qc.
  qc_ring.
Qed.

End Exact.

(** In single precision: a sum computed without rounding is the rational
    sum of the same vertices. *)

Section Unrounded.

Lemma Q2Qc_plus (p q : Q) : Q2Qc (p + q) = (Q2Qc p + Q2Qc q)%Qc.
Proof.
  apply Qc_is_canon. unfold Qcplus. simpl.
  rewrite !Qred_correct. reflexivity.
Qed.

Lemma Q2Qc_minus (p q : Q) : Q2Qc (p - q) = (Q2Qc p - Q2Qc q)%Qc.
Proof.
  apply Qc_is_canon. unfold Qcminus, Qcplus, Qcopp. simpl.
  rewrite !Qred_correct. reflexivity.
Qed.

Lemma Q2Qc_mult (p q : Q) : Q2Qc (p * q) = (Q2Qc p * Q2Qc q)%Qc.
Proof.
  apply Qc_is_canon. unfold Qcmult. simpl.
  rewrite !Qred_correct. reflexivity.
Qed.

Lemma Q2Qc_eq (p q : Q) : (p == q)%Q -> Q2Qc p = Q2Qc q.
Proof. intros H. apply Qc_is_canon. simpl. rewrite !Qred_correct. exact H. Qed.

Lemma unrounded_term_value (p c : @Vec spec_float) :
  unrounded_term p c ->
  sf_finite (shoelace_term p c) = true
  /\ Q2Qc (SF2Q (shoelace_term p c)) = @shoelace_term Qc exactQ (VecQ p) (VecQ c).
Proof.
  intros ((_ & E1) & (_ & E2) & (Hf & E3)). split; [exact Hf|].
  rewrite (Q2Qc_eq _ _ E3), Q2Qc_minus, (Q2Qc_eq _ _ E1), (Q2Qc_eq _ _ E2), !Q2Qc_mult.
  reflexivity.
Qed.

Lemma unrounded_loop_value (vs : list (@Vec spec_float)) (p : Vec) (sum : spec_float) :
  unrounded_loop p vs sum -> sf_finite sum = true ->
  sf_finite (shoelace_loop p vs sum) = true
  /\ Q2Qc (SF2Q (shoelace_loop p vs sum))
     = @shoelace_loop Qc exactQ (VecQ p) (map VecQ vs) (Q2Qc (SF2Q sum)).
Proof.
  revert p sum. induction vs as [|v vs IH]; intros p sum H Hf.
  - split; [exact Hf | reflexivity].
  - destruct H as (Ht & (Hf' & E) & Hl).
    destruct (unrounded_term_value p v Ht) as [_ Et].
    cbn [shoelace_loop map].
    destruct (IH v _ Hl Hf') as [Hfin ->]. split; [exact Hfin|].
    rewrite (Q2Qc_eq _ _ E), Q2Qc_plus, Et. reflexivity.
Qed.

Lemma last_map_VecQ (vs : list (@Vec spec_float)) :
  List.last (map VecQ vs) (@vzero Qc exactQ) = VecQ (List.last vs vzero).
Proof.
  induction vs as [|v [|w vs] IH]; [reflexivity | reflexivity | exact IH].
Qed.

Lemma unrounded_shoelace_value (vs : list (@Vec spec_float)) :
  unrounded_shoelace vs ->
  sf_finite (shoelace vs) = true
  /\ Q2Qc (SF2Q (shoelace vs)) = @shoelace Qc exactQ (map VecQ vs).
Proof.
  intros H. unfold shoelace.
  destruct (unrounded_loop_value vs _ _ H eq_refl) as [Hf E].
  split; [exact Hf|]. rewrite E, last_map_VecQ. reflexivity.
Qed.

Lemma SF2Q_sign (x : spec_float) :
  sf_finite x = true ->
  SFleb (S754_zero false) x = bool_decide (0 <= Q2Qc (SF2Q x))%Qc.
Proof.
  destruct x as [s|s| |s m e]; try discriminate; intros _.
  - reflexivity.
  - assert (Hpos : (0 < inject_Z (Z.pos m) * Qpower 2 e)%Q).
    { apply Qmult_lt_0_compat; [reflexivity|]. apply Qpower_0_lt. reflexivity. }
    unfold SFleb, SFcompare, SF2Q. symmetry. destruct s.
    + apply bool_decide_eq_false. unfold Qcle. cbn [this Q2Qc].
      change (this 0%Qc) with 0%Q. rewrite Qred_correct. intros H.
      assert (E : (-1 * inject_Z (Z.pos m) * 2 ^ e == - (inject_Z (Z.pos m) * 2 ^ e))%Q)
        by ring.
      rewrite E in H. revert Hpos H. generalize (inject_Z (Z.pos m) * 2 ^ e)%Q.
      intros t Ht H. rewrite ?Qred_correct in H. lra.
    + apply bool_decide_eq_true. unfold Qcle. cbn [this Q2Qc].
      change (this 0%Qc) with 0%Q. rewrite Qred_correct.
      assert (E : (1 * inject_Z (Z.pos m) * 2 ^ e == inject_Z (Z.pos m) * 2 ^ e)%Q)
        by ring.
      rewrite ?Qred_correct, E. lra.
Qed.

End Unrounded.

(** C8 (as amended): in single precision, when no operation of the sum
    of a vertex loop and none of the sum of the reversed loop rounds or
    overflows, and the sum is not zero, reversing the loop flips the
    orientation flag. *)
Theorem orientation_reverse_unrounded (vs : list (@Vec spec_float)) :
  unrounded_shoelace vs -> unrounded_shoelace (rev vs) ->
  ~ (SF2Q (shoelace vs) == 0)%Q ->
  isPolygonClockwise (rev vs) = negb (isPolygonClockwise vs).
Proof.
  intros Hf Hr Hnz.
  destruct (unrounded_shoelace_value vs Hf) as [F1 E1].
  destruct (unrounded_shoelace_value (rev vs) Hr) as [F2 E2].
  rewrite map_rev, shoelace_rev, <- E1 in E2.
  unfold isPolygonClockwise.
  change (@fleb spec_float binary32) with SFleb.
  change (@fzero spec_float binary32) with (S754_zero false).
  rewrite (SF2Q_sign _ F1), (SF2Q_sign _ F2), E2. clear E1 E2.
  assert (Hnz' : Q2Qc (SF2Q (shoelace vs)) <> 0%Qc).
  { intros H. apply Hnz. apply (f_equal this) in H. simpl in H.
    rewrite <- (Qred_correct (SF2Q (shoelace vs))), H. reflexivity. }
  revert Hnz'. generalize (Q2Qc (SF2Q (shoelace vs))). intros s Hs.
  destruct (bool_decide_reflect (0 <= - s)%Qc) as [H1|H1];
    destruct (bool_decide_reflect (0 <= s)%Qc) as [H2|H2]; simpl; try reflexivity.
  - exfalso. apply Hs. apply Qcle_antisym; [|exact H2].
    apply Qcopp_le_compat in H1. rewrite Qcopp_involutive in H1. exact H1.
  - exfalso. apply H1. apply Qcnot_le_lt in H2.
    apply Qclt_le_weak in H2. apply Qcopp_le_compat in H2. exact H2.
Qed.

Lemma orientation_reverse_unrounded_witness :
  unrounded_shoelace [Inputs.V32 0 0; Inputs.V32 3 0; Inputs.V32 0 5]
  /\ unrounded_shoelace (rev [Inputs.V32 0 0; Inputs.V32 3 0; Inputs.V32 0 5])
  /\ ~ (SF2Q (shoelace [Inputs.V32 0 0; Inputs.V32 3 0; Inputs.V32 0 5]) == 0)%Q
  /\ isPolygonClockwise (rev [Inputs.V32 0 0; Inputs.V32 3 0; Inputs.V32 0 5])
     = negb (isPolygonClockwise [Inputs.V32 0 0; Inputs.V32 3 0; Inputs.V32 0 5]).
Proof.
  assert (H1 : unrounded_shoelace [Inputs.V32 0 0; Inputs.V32 3 0; Inputs.V32 0 5])
    by (vm_compute; repeat split; reflexivity).
  assert (H2 : unrounded_shoelace (rev [Inputs.V32 0 0; Inputs.V32 3 0; Inputs.V32 0 5]))
    by (vm_compute; repeat split; reflexivity).
  assert (H3 : ~ (SF2Q (shoelace [Inputs.V32 0 0; Inputs.V32 3 0; Inputs.V32 0 5]) == 0)%Q)
    by (vm_compute; discriminate).
  split; [exact H1|]. split; [exact H2|]. split; [exact H3|].
  exact (orientation_reverse_unrounded _ H1 H2 H3).
Defined.

(** C8 fails as stated: the empty loop and its reversal are both
    clockwise (the sum is zero), and in single precision so are the
    triangle [(1,0), (1,-1), (0,2^24)] and its reversal, whose sums round
    to [0] and to [1]. *)
Lemma orientation_reverse_counterexample :
  @isPolygonClockwise spec_float binary32 (rev []) <> negb (@isPolygonClockwise spec_float binary32 []) /\
  @isPolygonClockwise spec_float binary32 (rev Inputs.thinTriangle)
  <> negb (@isPolygonClockwise spec_float binary32 Inputs.thinTriangle).
Proof. split; vm_compute; discriminate. Qed.

(** ** Emission: the empty ring *)

(** C10: with an empty ring A the emitter returns [{0, 0}] at once: for
    every ring B (whatever its slab holds) the call succeeds, and the
    rings, the [polygons] array and the vertex pool are as they were. *)
Theorem emit_empty_ring_a {F : Type} {FO : FloatOps F} (fuel : nat) (a b : ClipVertices)
    (polygons : list ClipPolygonEntry) (maxPolygons : Z)
    (vertices : list Vec) (maxCount : Z) :
  size a < 1 ->
  clipPolyEmitClippedPolygons fuel a b polygons maxPolygons vertices maxCount
  = Ok (mkResult 0 0, mkEmit a b true 0 1 0 0 polygons vertices false).
Proof.
  intros H. unfold clipPolyEmitClippedPolygons.
  destruct (Z.ltb_spec (size a) 1); [reflexivity | lia].
Qed.

Lemma emit_empty_ring_a_witness :
  size (mkRing (F := spec_float) [] 0 0 0) < 1 /\
  clipPolyEmitClippedPolygons 0 (mkRing [] 0 0 0) (mkRing [] 3 5 8)
    [mkEntry 7 7] 1 [Inputs.V32 9 9] 1
  = Ok (mkResult 0 0,
        mkEmit (mkRing [] 0 0 0) (mkRing [] 3 5 8) true 0 1 0 0
               [mkEntry 7 7] [Inputs.V32 9 9] false).
Proof.
  split; [simpl; lia | apply emit_empty_ring_a; simpl; lia].
Defined.

(** ** The parallel test of the intersection factor *)

(** C2 (the code departs from it): for the edge [(0,0) -> (4,0)] of
    [nearParA] and the edge [(1,-2^-23) -> (3,2^-23)] of [nearParB] the
    cross product of the directions is [2^-20], of absolute value below
    [0.000001f]; [clipPolyLineIntersectionFactor] reports a hit all the
    same, with factor [0.5], and intersection finding inserts the node
    [3] at [(2,0)] into each ring: after vertex [0] in both, before node
    [4] in A and before vertex [1] in B. *)
Theorem near_parallel_pair_not_skipped :
  let aPrev := Inputs.V32 0 0 in
  let aDir := Inputs.V32 4 0 in
  let bPrev := Inputs.D32 1 0 (-1) (-23) in
  let bDir := Inputs.D32 2 0 1 (-22) in
  let cross := (vx aDir * vy bDir - vy aDir * vx bDir)%F in
  cross = b32_dyadic 1 (-20) /\
  (cross <? f_1em6)%F = true /\ (fsub fzero f_1em6 <? cross)%F = true /\
  clipPolyLineIntersectionFactor aPrev aDir bPrev bDir = Some half32 /\
  clipPolyLineIntersectionFactor bPrev bDir aPrev aDir = Some half32 /\
  exists ab,
    Inputs.intersect 100 Inputs.nearParA Inputs.nearParB 8 = Ok ab /\
    data ab.1 !! 3%nat
    = Some (mkCV (Inputs.V32 2 0) 4 0 0 CVF_INTERSECT 3 half32) /\
    data ab.2 !! 3%nat
    = Some (mkCV (Inputs.V32 2 0) 1 0 0 CVF_INTERSECT 3 half32).
Proof.
  cbv zeta. repeat (split; [vm_compute; reflexivity|]).
  apply res_holds. vm_compute. repeat split.
Qed.

(** ** Emission: running out of pool *)

(** C5 (the code departs from it): intersecting the unit square with the
    unit square moved by [(0.5, 0.5)] into a pool of two vertices returns
    one polygon and two vertices, and the [size] field of that polygon is
    never written: it still holds the caller's [77]. *)
Theorem emit_pool_exhausted_size_unset :
  exists r,
    Inputs.pipeline 100 Inputs.unitSquare Inputs.shiftedSquare 16
      CFD_FORWARD CFD_FORWARD (replicate 4 (mkEntry 77 77)) 4
      (replicate 16 vzero) 2
    = Ok r /\
    r.1 = mkResult 1 2 /\
    epolys r.2 !! 0%nat = Some (mkEntry 0 77) /\
    take 2 (epool r.2) = [Inputs.V32 1 1; Inputs.D32 1 (-1) 1 0].
Proof. apply res_holds. vm_compute. repeat split. Qed.

(** ** Ear clipping *)

Lemma u16_range (n : Z) : 0 <= u16 n < 65536.
Proof. unfold u16. apply Z.mod_pos_bound. lia. Qed.

Lemma u16_small (n : Z) : 0 <= n < 65536 -> u16 n = n.
Proof. unfold u16. intros H. apply Z.mod_small. lia. Qed.

Lemma u16_le (n : Z) : 0 <= n -> u16 n <= n.
Proof. unfold u16. intros H. apply Z.mod_le; lia. Qed.

Lemma usize_small (n : Z) : 0 <= n < 2 ^ 64 -> usize n = n.
Proof. unfold usize. intros H. apply Z.mod_small. lia. Qed.

Lemma usize_le (n : Z) : 0 <= n -> 0 <= usize n <= n.
Proof.
  unfold usize. intros H. split; [apply Z.mod_pos_bound | apply Z.mod_le]; lia.
Qed.

Lemma memmove_left_spec (l : list Z) (b size : Z) :
  0 <= b <= size -> size + 1 <= zlen l ->
  exists l', memmove_left l b size = Ok l' /\ zlen l' = zlen l /\
    forall k, 0 <= k < size ->
      l' !! Z.to_nat k = l !! Z.to_nat (if k <? b then k else k + 1).
Proof.
  unfold memmove_left, zlen. intros Hb Hs.
  destruct (Z.ltb_spec b 0); [lia|].
  destruct (Z.ltb_spec size b); [lia|].
  destruct (Z.ltb_spec (Z.of_nat (length l)) (size + 1)); [lia|].
  simpl. eexists. split; [reflexivity|].
  assert (Hl1 : length (take (Z.to_nat b) l) = Z.to_nat b)
    by (rewrite length_take; lia).
  assert (Hl2 : length (take (Z.to_nat (size - b)) (drop (Z.to_nat (b + 1)) l))
                = Z.to_nat (size - b))
    by (rewrite length_take, length_drop; lia).
  split.
  - rewrite !length_app, Hl1, Hl2, length_drop. lia.
  - intros k Hk. destruct (Z.ltb_spec k b).
    + rewrite lookup_app_l by lia. apply lookup_take_lt. lia.
    + rewrite lookup_app_r by lia. rewrite Hl1.
      rewrite lookup_app_l by lia.
      rewrite lookup_take_lt by lia. rewrite lookup_drop. f_equal. lia.
Qed.

Lemma get_lookup {A : Type} (l : list A) (i : Z) :
  0 <= i -> get l i = match l !! Z.to_nat i with Some v => Ok v | None => Fault end.
Proof. unfold get. intros H. destruct (Z.ltb_spec i 0); [lia | reflexivity]. Qed.

Section TriangulateProofs.
Context {F : Type} {FO : FloatOps F}.
Variable TMPO_CLOCKWISE_TRIANGLES : bool.
Variable vertices : list (@Vec F).
Variable clockwise : bool.
Variable begin : Z.
Variable maxIndices : Z.

Let count : Z := zlen vertices.

Local Abbreviation emitted := (emitted_index count begin).
Local Abbreviation tri_inv := (tri_invariant count begin maxIndices).

Lemma isTriangleEar_Ok (a b c : Z) :
  0 <= a < count -> 0 <= b < count -> 0 <= c < count ->
  exists e, isTriangleEar a b c vertices clockwise = Ok e.
Proof.
  intros Ha Hb Hc. unfold isTriangleEar.
  destruct (get_in_range vertices a Ha) as [va ->].
  destruct (get_in_range vertices b Hb) as [vb ->].
  destruct (get_in_range vertices c Hc) as [vc ->].
  simpl. destruct (negb _); eauto.
Qed.

Lemma tri_emit_emitted (qa qb qc : Z) :
  0 <= qa < count -> 0 <= qb < count -> 0 <= qc < count ->
  Forall emitted (tri_emit TMPO_CLOCKWISE_TRIANGLES clockwise begin qa qb qc)
  /\ zlen (tri_emit TMPO_CLOCKWISE_TRIANGLES clockwise begin qa qb qc) = 3.
Proof.
  intros Ha Hb Hc. unfold tri_emit.
  destruct (eqb _ _); (split; [|reflexivity]);
    repeat constructor; unfold emitted; eauto.
Qed.

Lemma tri_clip_inv (n0 : Z) (s : TriState) (qa qb qc : Z) :
  tri_inv n0 s -> 3 <= tsize s ->
  0 <= qa < count -> 0 <= qb < count -> 0 <= qc < count ->
  tindices s + 3 <= maxIndices ->
  exists s', tri_clip TMPO_CLOCKWISE_TRIANGLES clockwise begin s qa qb qc = Ok s'
             /\ tri_inv n0 s' /\ tsize s' = tsize s - 1 /\ titer s' = 0.
Proof.
  intros I H3 Ha Hb Hc Hmax. destruct I.
  destruct (ti_abc0 H3) as (Ia & Ib & Ic & Icur).
  unfold tri_clip.
  destruct (memmove_left_spec (tquery s) (tb s) (tsize s - 1)) as (q & -> & Hlen & Hq);
    [lia | lia |].
  simpl. eexists. split; [reflexivity|].
  destruct (tri_emit_emitted qa qb qc Ha Hb Hc) as [Hem Hem3].
  set (size := tsize s - 1) in *.
  set (cur := if size <=? ta s then ta s - size else ta s).
  assert (Hcur : 0 <= cur < size).
  { unfold cur. destruct (Z.leb_spec size (ta s)); lia. }
  split; [|split; reflexivity].
  constructor; simpl; fold size; fold cur; try lia.
  - intros H3'.
    destruct (Z.leb_spec 2 cur); [lia|].
    pose proof (usize_le (size - (2 - cur))).
    pose proof (usize_le (size - (1 - cur))).
    destruct (Z.leb_spec 1 cur); lia.
  - intros k x Hk Hx. rewrite Hq in Hx by lia.
    apply (ti_query0 (if k <? tb s then k else k + 1) x); [|exact Hx].
    destruct (Z.ltb_spec k (tb s)); lia.
  - unfold zlen in *. rewrite length_app. lia.
  - apply Forall_app. split; assumption.
Qed.

Lemma tri_advance_inv (n0 : Z) (s : TriState) :
  tri_inv n0 s -> 3 <= tsize s ->
  tri_inv n0 (tri_advance s) /\ tsize (tri_advance s) = tsize s
  /\ titer (tri_advance s) = titer s.
Proof.
  intros I H3. destruct I.
  destruct (ti_abc0 H3) as (Ia & Ib & Ic & Icur).
  unfold tri_advance.
  destruct (Z.leb_spec (tsize s) (tcurrent s + 1)); (split; [|split; reflexivity]);
    constructor; simpl; try assumption; try lia.
  intros _. pose proof (usize_le (tsize s - 2)). pose proof (usize_le (tsize s - 1)).
  lia.
Qed.

Lemma tri_tick_inv (n0 : Z) (s : TriState) :
  tri_inv n0 s -> tri_inv n0 (tri_tick s).
Proof. intros []. constructor; simpl; assumption. Qed.


Lemma tri_init_inv (queryList : list Z) :
  let n0 := if count <? zlen queryList then count else zlen queryList in
  tri_inv n0 (mkTri (tri_init_query queryList n0) n0 0 1 2 2 0 0 []).
Proof.
  intros n0.
  assert (Hn0 : 0 <= n0 <= count /\ n0 <= zlen queryList).
  { unfold n0, count, zlen. destruct (Z.ltb_spec (Z.of_nat (length vertices))
      (Z.of_nat (length queryList))); lia. }
  assert (Hlen : zlen (tri_init_query queryList n0) = zlen queryList).
  { unfold tri_init_query, zlen in *.
    rewrite length_app, length_map, length_seq, length_drop. lia. }
  constructor; simpl; try lia.
  - intros k q Hk. unfold tri_init_query.
    rewrite lookup_app_l by (rewrite length_map, length_seq; lia).
    rewrite list_lookup_fmap, lookup_seq_lt by lia. simpl.
    intros [= <-]. pose proof (u16_range (Z.of_nat (Z.to_nat k))).
    pose proof (u16_le (Z.of_nat (Z.to_nat k))). lia.
  - reflexivity.
  - constructor.
Qed.

End TriangulateProofs.


(** ** Clip rings: reading and writing nodes *)

Section RingBasics.
Context {F : Type} {FO : FloatOps F}.

Lemma get_nd (d : list (@ClipVertex F)) (v : Z) (n : ClipVertex) :
  get d v = Ok n -> nd d v = n /\ 0 <= v < zlen d.
Proof.
  intros H. split; [unfold nd; rewrite H; reflexivity | eapply get_range; eauto].
Qed.

Lemma nd_get (d : list (@ClipVertex F)) (v : Z) :
  0 <= v < zlen d -> get d v = Ok (nd d v).
Proof.
  intros H. destruct (get_in_range d v H) as [n Hn].
  unfold nd. rewrite Hn. reflexivity.
Qed.

Lemma modify_spec (d d' : list (@ClipVertex F)) (i : Z) (f : ClipVertex -> ClipVertex) :
  modify d i f = Ok d' ->
  0 <= i < zlen d /\ zlen d' = zlen d /\
  forall v, nd d' v = if v =? i then f (nd d v) else nd d v.
Proof.
  unfold modify. intros (x & Hx & Hp)%bind_Ok.
  pose proof (get_range _ _ _ Hx) as Hr.
  apply put_Ok in Hp as [_ ->]. apply get_Ok in Hx as [_ Hx].
  split; [exact Hr|]. split; [unfold zlen; rewrite length_insert; reflexivity|].
  intros v. unfold nd, get. destruct (Z.ltb_spec v 0).
  - destruct (Z.eqb_spec v i); [lia | reflexivity].
  - destruct (Z.eqb_spec v i) as [->|Hne].
    + rewrite list_lookup_insert_eq by (unfold zlen in Hr; lia).
      rewrite Hx. reflexivity.
    + rewrite list_lookup_insert_ne by lia. reflexivity.
Qed.

Lemma modify_total (d : list (@ClipVertex F)) (i : Z) (f : ClipVertex -> ClipVertex) :
  0 <= i < zlen d -> exists d', modify d i f = Ok d'.
Proof.
  intros H. unfold modify. rewrite (nd_get d i H). simpl.
  unfold put. destruct (Z.ltb_spec i 0); [lia|].
  unfold zlen in H. destruct (Z.ltb_spec i (Z.of_nat (length d))); [eauto | lia].
Qed.

Lemma create_intersection_spec (r r' : ClipVertices) (at_ : Z) (p : Vec) (nb : Z) (t : F) :
  clipPolyCreateIntersection r at_ p nb t = Ok r' ->
  0 <= at_ < zlen (data r) /\ 0 <= size r < zlen (data r) /\
  size r' = size r + 1 /\ originalSize r' = originalSize r /\
  capacity r' = capacity r /\ zlen (data r') = zlen (data r) /\
  forall v, nd (data r') v = node_after_insert (data r) (size r) at_ p nb t v.
Proof.
  unfold clipPolyCreateIntersection, clipPolyCreateVertex.
  intros (r1 & H1 & H2)%bind_Ok.
  apply bind_Ok in H1 as (ref & Href & H1).
  apply bind_Ok in H1 as (d1 & Hd1 & H1).
  apply bind_Ok in H1 as (d2 & Hd2 & H1).
  apply bind_Ok in H1 as (d3 & Hd3 & H1).
  injection H1 as <-. simpl in H2.
  apply bind_Ok in H2 as (d4 & Hd4 & H2). injection H2 as <-. simpl.
  apply get_nd in Href as [<- Hat].
  apply modify_spec in Hd1 as (Hn & L1 & E1).
  apply modify_spec in Hd2 as (_ & L2 & E2).
  apply modify_spec in Hd3 as (_ & L3 & E3).
  apply modify_spec in Hd4 as (_ & L4 & E4).
  repeat (split; [first [assumption | reflexivity | lia]|]).
  intros v. rewrite E4, E3, E2, E1. unfold node_after_insert.
  destruct (Z.eqb_spec v (size r)) as [->|]; reflexivity.
Qed.

Lemma node_after_insert_new (d : list (@ClipVertex F)) (n at_ : Z) (p : Vec) (nb : Z) (t : F) :
  let w := node_after_insert d n at_ p nb t n in
  pos w = p /\ flags w = CVF_INTERSECT /\ neighbor w = u16 nb /\ alpha w = t.
Proof.
  unfold node_after_insert. rewrite Z.eqb_refl.
  destruct (n =? at_), (n =? next (nd d at_)); simpl; auto.
Qed.

Lemma node_after_insert_old (d : list (@ClipVertex F)) (n at_ : Z) (p : Vec) (nb : Z) (t : F)
    (v : Z) :
  v <> n ->
  let w := node_after_insert d n at_ p nb t v in
  pos w = pos (nd d v) /\ flags w = flags (nd d v) /\
  neighbor w = neighbor (nd d v) /\ alpha w = alpha (nd d v) /\
  next w = (if v =? at_ then u16 n else next (nd d v)) /\
  prev w = (if v =? next (nd d at_) then u16 n else prev (nd d v)).
Proof.
  intros Hv. unfold node_after_insert.
  destruct (Z.eqb_spec v n); [lia|].
  destruct (v =? at_), (v =? next (nd d at_)); simpl; auto 10.
Qed.

Lemma node_after_insert_links (d : list (@ClipVertex F)) (n at_ : Z) (p : Vec) (nb : Z) (t : F) :
  at_ <> n -> next (nd d at_) <> n ->
  let w := node_after_insert d n at_ p nb t n in
  next w = next (nd d at_) /\ prev w = u16 at_.
Proof.
  intros H1 H2. unfold node_after_insert. rewrite Z.eqb_refl.
  destruct (Z.eqb_spec n at_); [lia|].
  destruct (Z.eqb_spec n (next (nd d at_))); [lia|]. simpl. auto.
Qed.

End RingBasics.

(** ** Clip rings: what intersection finding keeps true *)

Section RingInvariants.
Context {F : Type} {FO : FloatOps F}.

Lemma fi_body_trans (wfuel : nat) (s : FIState) (st : FIStep) :
  fi_i s < originalSize (fi_a s) -> fi_j s < originalSize (fi_b s) ->
  fi_body wfuel s = Ok st -> fi_trans wfuel s st.
Proof.
  intros Hi Hj. unfold fi_body.
  intros (aV & HaV & H)%bind_Ok.
  apply bind_Ok in H as (aP & HaP & H).
  apply bind_Ok in H as (bV & HbV & H).
  apply bind_Ok in H as (bP & HbP & H).
  destruct (clipPolyLineIntersectionFactor _ _ _ _) as [ta|];
    [|injection H as <-; apply ft_skip; assumption].
  destruct (clipPolyLineIntersectionFactor _ _ _ _) as [tb|];
    [|injection H as <-; apply ft_skip; assumption].
  destruct (fzero <=? ta)%F eqn:Ea0; simpl in H;
    [|injection H as <-; apply ft_skip; assumption].
  destruct (ta <=? fone)%F; simpl in H;
    [|injection H as <-; apply ft_skip; assumption].
  destruct (fzero <=? tb)%F eqn:Eb0; simpl in H;
    [|injection H as <-; apply ft_skip; assumption].
  destruct (tb <=? fone)%F; simpl in H;
    [|injection H as <-; apply ft_skip; assumption].
  destruct (ta <=? f_1em5)%F.
  { apply bind_Ok in H as (d & Hd & H). injection H as <-.
    apply (ft_perturb_a wfuel s (aPrevIndex s) _ d Hi Hj (or_introl eq_refl) Hd). }
  destruct (f_099999 <=? ta)%F.
  { apply bind_Ok in H as (d & Hd & H). injection H as <-.
    apply (ft_perturb_a wfuel s (fi_i s) _ d Hi Hj (or_intror eq_refl) Hd). }
  destruct (tb <=? f_1em5)%F.
  { apply bind_Ok in H as (d & Hd & H). injection H as <-.
    apply (ft_perturb_b wfuel s (bPrevIndex s) _ d Hi Hj (or_introl eq_refl) Hd). }
  destruct (f_099999 <=? tb)%F.
  { apply bind_Ok in H as (d & Hd & H). injection H as <-.
    apply (ft_perturb_b wfuel s (fi_j s) _ d Hi Hj (or_intror eq_refl) Hd). }
  apply bind_Ok in H as (ia & Hia & H).
  apply bind_Ok in H as (ib & Hib & H).
  apply bind_Ok in H as (a' & Ha' & H).
  apply bind_Ok in H as (b' & Hb' & H).
  injection H as <-.
  exact (ft_insert wfuel s aV bV ta tb _ ia ib a' b' Hi Hj HaV HbV Ea0 Eb0 Hia Hib Ha' Hb').
Qed.

Lemma fi_step_trans (wfuel : nat) (s : FIState) (st : FIStep) :
  fi_step wfuel s = Ok st -> fi_trans wfuel s st.
Proof.
  unfold fi_step.
  destruct (Z.ltb_spec (fi_i s) (originalSize (fi_a s))); simpl.
  - destruct (Z.ltb_spec (fi_j s) (originalSize (fi_b s))); simpl.
    + apply fi_body_trans; assumption.
    + intros [= <-]. apply ft_next_i; lia.
  - intros [= <-]. apply ft_done. lia.
Qed.

(** A property of the loop state that every pass keeps holds of the rings
    the function returns. *)
Lemma fi_run_inv (P : FIState -> Prop) (wfuel : nat) :
  (forall s st, P s -> fi_trans wfuel s st ->
     match st with
     | Retry s' | Advance s' => P s'
     | Done _ _ => True
     end) ->
  forall fuel s a b, P s -> fi_run wfuel fuel s = Ok (a, b) ->
    exists s', P s' /\ a = fi_a s' /\ b = fi_b s'.
Proof.
  intros Hstep. induction fuel as [|fuel IH]; intros s a b HP; [discriminate|].
  simpl. intros (st & Hst & H)%bind_Ok.
  apply fi_step_trans in Hst. pose proof (Hstep s st HP Hst) as HP'.
  inversion Hst; subst; simpl in *; try (eapply IH; eassumption).
  injection H as <- <-. eauto.
Qed.

End RingInvariants.

Section RingSteps.
Context {F : Type} {FO : FloatOps F}.

Lemma insert_fields (r r' : @ClipVertices F) (at_ : Z) (p : Vec) (nb : Z) (t : F) :
  ring_ok r -> 0 <= at_ < size r ->
  clipPolyCreateIntersection r at_ p nb t = Ok r' ->
  let n := size r in
  let X := next (nd (data r) at_) in
  size r' = n + 1 /\ originalSize r' = originalSize r /\
  zlen (data r') = zlen (data r) /\ n < zlen (data r) /\ 0 <= X < n /\
  forall v,
    let w := nd (data r') v in
    let o := nd (data r) v in
    next w = (if v =? n then X else if v =? at_ then n else next o) /\
    prev w = (if v =? n then at_ else if v =? X then n else prev o) /\
    flags w = (if v =? n then CVF_INTERSECT else flags o) /\
    pos w = (if v =? n then p else pos o) /\
    neighbor w = (if v =? n then u16 nb else neighbor o) /\
    alpha w = (if v =? n then t else alpha o).
Proof.
  intros R Hat H. cbv zeta.
  destruct (create_intersection_spec _ _ _ _ _ _ H) as (_ & Hn & Hs & Ho & _ & Hl & E).
  destruct R. destruct (ro_next0 at_ Hat) as [HX _].
  repeat (split; [first [assumption | lia]|]).
  assert (Un : u16 (size r) = size r) by (apply u16_small; lia).
  assert (Ua : u16 at_ = at_) by (apply u16_small; lia).
  intros v. rewrite E. destruct (Z.eqb_spec v (size r)) as [->|Hv].
  - destruct (node_after_insert_new (data r) (size r) at_ p nb t) as (-> & -> & -> & ->).
    destruct (node_after_insert_links (data r) (size r) at_ p nb t) as (-> & ->); [lia..|].
    rewrite Ua. auto 10.
  - destruct (node_after_insert_old (data r) (size r) at_ p nb t v Hv)
      as (-> & -> & -> & -> & -> & ->).
    rewrite Un. auto 10.
Qed.

Lemma insert_ring_ok (r r' : @ClipVertices F) (at_ : Z) (p : Vec) (nb : Z) (t : F) :
  ring_ok r -> 0 <= at_ < size r ->
  clipPolyCreateIntersection r at_ p nb t = Ok r' ->
  ring_ok r'.
Proof.
  intros R Hat H.
  destruct (insert_fields r r' at_ p nb t R Hat H) as (Hs & Ho & Hl & Hn & HX & E).
  pose proof R as R'. destruct R'.
  destruct (ro_next0 at_ Hat) as [_ HpX].
  constructor.
  - lia.
  - lia.
  - lia.
  - intros v Hv. unfold is_cross, has_flag.
    destruct (E v) as (_ & _ & -> & _). rewrite Ho.
    destruct (Z.eqb_spec v (size r)) as [->|Hne].
    + destruct (Z.leb_spec (originalSize r) (size r)); [reflexivity | lia].
    + apply ro_flag0. lia.
  - intros v Hv. destruct (E v) as (-> & _).
    destruct (Z.eqb_spec v (size r)) as [->|Hne].
    + split; [lia|]. destruct (E (next (nd (data r) at_))) as (_ & -> & _).
      destruct (Z.eqb_spec (next (nd (data r) at_)) (size r)); [lia|].
      rewrite Z.eqb_refl. reflexivity.
    + destruct (Z.eqb_spec v at_) as [->|Hna].
      * split; [lia|]. destruct (E (size r)) as (_ & -> & _).
        rewrite Z.eqb_refl. reflexivity.
      * destruct (ro_next0 v ltac:(lia)) as [Hr Hp]. split; [lia|].
        destruct (E (next (nd (data r) v))) as (_ & -> & _).
        destruct (Z.eqb_spec (next (nd (data r) v)) (size r)); [lia|].
        destruct (Z.eqb_spec (next (nd (data r) v)) (next (nd (data r) at_))) as [Heq|];
          [|exact Hp].
        rewrite Heq in Hp. congruence.
  - intros v Hv. destruct (E v) as (_ & -> & _).
    destruct (Z.eqb_spec v (size r)) as [->|Hne].
    + split; [lia|]. destruct (E at_) as (-> & _).
      destruct (Z.eqb_spec at_ (size r)); [lia|].
      rewrite Z.eqb_refl. reflexivity.
    + destruct (Z.eqb_spec v (next (nd (data r) at_))) as [->|Hnx].
      * split; [lia|]. destruct (E (size r)) as (-> & _).
        rewrite Z.eqb_refl. reflexivity.
      * destruct (ro_prev0 v ltac:(lia)) as [Hr Hp]. split; [lia|].
        destruct (E (prev (nd (data r) v))) as (-> & _).
        destruct (Z.eqb_spec (prev (nd (data r) v)) (size r)); [lia|].
        destruct (Z.eqb_spec (prev (nd (data r) v)) at_) as [Heq|]; [|exact Hp].
        rewrite Heq in Hp. congruence.
Qed.

Lemma perturb_fields (d d' : list (@ClipVertex F)) (idx : Z) (dir : Vec) :
  modify d idx (perturb dir) = Ok d' ->
  zlen d' = zlen d /\
  forall v,
    next (nd d' v) = next (nd d v) /\ prev (nd d' v) = prev (nd d v) /\
    flags (nd d' v) = flags (nd d v) /\ neighbor (nd d' v) = neighbor (nd d v) /\
    alpha (nd d' v) = alpha (nd d v) /\
    (v <> idx -> pos (nd d' v) = pos (nd d v)).
Proof.
  intros (_ & Hl & E)%modify_spec. split; [exact Hl|].
  intros v. rewrite E. destruct (Z.eqb_spec v idx); simpl; auto 10.
  repeat split; intros; lia.
Qed.

Lemma perturb_ring_ok (r : @ClipVertices F) (d' : list ClipVertex) (idx : Z) (dir : Vec) :
  ring_ok r -> modify (data r) idx (perturb dir) = Ok d' -> ring_ok (set_data r d').
Proof.
  intros R (Hl & E)%perturb_fields. destruct R.
  constructor; simpl; try lia.
  - intros v Hv. unfold is_cross, has_flag.
    destruct (E v) as (_ & _ & -> & _). apply ro_flag0. exact Hv.
  - intros v Hv. destruct (E v) as (-> & _).
    destruct (E (next (nd (data r) v))) as (_ & -> & _). apply ro_next0. exact Hv.
  - intros v Hv. destruct (E v) as (_ & -> & _).
    destruct (E (prev (nd (data r) v))) as (-> & _). apply ro_prev0. exact Hv.
Qed.

(** Where [clipPolyFindIntersectionIndex] stops: at a node that is not an
    intersection with a larger [alpha], and either where it started or
    just before an intersection with a larger [alpha]. *)
Lemma find_index_spec (wfuel : nat) (r : @ClipVertices F) (s0 : Z) (t : F) (at_ : Z) :
  ring_ok r -> 0 <= s0 < size r ->
  clipPolyFindIntersectionIndex wfuel r s0 t = Ok at_ ->
  0 <= at_ < size r
  /\ (is_cross (data r) at_ = true -> (t <? alpha (nd (data r) at_))%F = false)
  /\ (at_ = s0
      \/ (is_cross (data r) (next (nd (data r) at_)) = true
          /\ (t <? alpha (nd (data r) (next (nd (data r) at_))))%F = true)).
Proof.
  intros R. revert s0. induction wfuel as [|wfuel IH]; intros s0 Hs0; [discriminate|].
  simpl. intros (ref & Href & H)%bind_Ok.
  apply get_nd in Href as [<- _].
  destruct (has_flag (nd (data r) s0) CVF_INTERSECT) eqn:Ef; simpl in H.
  - destruct (t <? alpha (nd (data r) s0))%F eqn:Et.
    + destruct (ro_prev r R s0 Hs0) as [Hp Hn].
      destruct (IH _ Hp H) as (Hat & Hstop & Hnext).
      split; [exact Hat|]. split; [exact Hstop|]. right.
      destruct Hnext as [->|Hnext]; [|exact Hnext].
      rewrite Hn. split; assumption.
    + injection H as <-. split; [exact Hs0|]. split; [intros _; exact Et | left; reflexivity].
  - injection H as <-. split; [exact Hs0|]. split; [|left; reflexivity].
    unfold is_cross. rewrite Ef. discriminate.
Qed.

End RingSteps.

(** ** Transform *)

Section TransformProofs.
Context {F : Type} {FO : FloatOps F}.

Lemma u16_pred (n : Z) : 1 <= n <= 65536 -> u16 (u16 n - 1) = n - 1.
Proof.
  intros H. unfold u16. destruct (Z.eq_dec n 65536) as [->|Hne]; [reflexivity|].
  rewrite (Z.mod_small n) by lia. apply Z.mod_small. lia.
Qed.

Lemma transform_loop_length (vs : list (@Vec F)) (i p : Z) :
  length (transform_loop vs i p) = length vs.
Proof.
  revert i p. induction vs as [|v vs IH]; intros i p; simpl; [reflexivity|].
  rewrite IH. reflexivity.
Qed.

Lemma transform_loop_lookup (vs : list (@Vec F)) (i p : Z) (k : nat) (x : Vec) :
  vs !! k = Some x ->
  transform_loop vs i p !! k
  = Some (mkCV x (u16 (i + Z.of_nat k + 1))
               (match k with O => p | S _ => u16 (i + Z.of_nat k - 1) end)
               0 0 0 fzero).
Proof.
  revert i p k. induction vs as [|v vs IH]; intros i p k Hk; [discriminate|].
  destruct k as [|k].
  - injection Hk as ->. change (Z.of_nat 0) with 0. rewrite Z.add_0_r. reflexivity.
  - change (transform_loop vs (i + 1) (u16 i) !! k = Some
              (mkCV x (u16 (i + Z.of_nat (S k) + 1)) (u16 (i + Z.of_nat (S k) - 1))
                    0 0 0 fzero)).
    rewrite (IH _ _ _ Hk).
    replace (i + 1 + Z.of_nat k + 1) with (i + Z.of_nat (S k) + 1) by lia.
    destruct k as [|k].
    + replace (i + Z.of_nat 1 - 1) with i by lia. reflexivity.
    + replace (i + 1 + Z.of_nat (S k) - 1) with (i + Z.of_nat (S (S k)) - 1) by lia.
      reflexivity.
Qed.

(** The ring [clipPolyTransformData] builds. *)
Lemma transform_spec (vs : list (@Vec F)) (slab : list ClipVertex) (r : ClipVertices) :
  clipPolyTransformData vs slab = Ok r ->
  let n := zlen vs in
  n <= zlen slab /\ originalSize r = n /\ size r = n /\ capacity r = zlen slab /\
  zlen (data r) = zlen slab /\
  forall i x, 0 <= i < n -> vs !! Z.to_nat i = Some x ->
    nd (data r) i
    = mkCV x (if i =? n - 1 then 0 else u16 (i + 1))
             (if i =? 0 then u16 (u16 n - 1) else u16 (i - 1))
             0 0 0 fzero.
Proof.
  unfold clipPolyTransformData. cbv zeta.
  destruct (Z.ltb_spec (zlen slab) (zlen vs)) as [|Hle]; [discriminate|].
  set (filled := transform_loop vs 0 (u16 (u16 (zlen vs) - 1))
                 ++ drop (Z.to_nat (zlen vs)) slab).
  assert (Hfl : zlen filled = zlen slab).
  { unfold filled, zlen in *.
    rewrite length_app, transform_loop_length, length_drop. lia. }
  assert (Hnd : forall i x, 0 <= i < zlen vs -> vs !! Z.to_nat i = Some x ->
            nd filled i = mkCV x (u16 (i + 1))
                               (if i =? 0 then u16 (u16 (zlen vs) - 1) else u16 (i - 1))
                               0 0 0 fzero).
  { intros i x Hi Hx. unfold nd. rewrite get_lookup by lia. unfold filled.
    rewrite lookup_app_l by (rewrite transform_loop_length; unfold zlen in Hi; lia).
    rewrite (transform_loop_lookup _ _ _ _ _ Hx).
    destruct (Z.eqb_spec i 0) as [->|Hne]; [reflexivity|].
    destruct (Z.to_nat i) as [|k] eqn:Ek; [lia|].
    replace (0 + Z.of_nat (S k) + 1) with (i + 1) by lia.
    replace (0 + Z.of_nat (S k) - 1) with (i - 1) by lia. reflexivity. }
  intros (d & Hd & H)%bind_Ok. injection H as <-. simpl.
  destruct (Z.eqb_spec (zlen vs) 0) as [H0|H0].
  - injection Hd as <-. repeat (split; [first [assumption | reflexivity | lia]|]).
    intros i x Hi. lia.
  - apply modify_spec in Hd as (_ & Hl & E).
    repeat (split; [first [assumption | reflexivity | lia]|]).
    intros i x Hi Hx. rewrite E, (Hnd i x Hi Hx).
    destruct (Z.eqb_spec i (zlen vs - 1)); reflexivity.
Qed.

Lemma transform_ring_ok (vs : list (@Vec F)) (slab : list ClipVertex) (r : ClipVertices) :
  zlen slab <= 65536 ->
  clipPolyTransformData vs slab = Ok r ->
  ring_ok r.
Proof.
  intros Hcap H. destruct (transform_spec vs slab r H) as (Hn & Ho & Hs & _ & Hl & E).
  assert (Hex : forall i, 0 <= i < zlen vs -> exists x, vs !! Z.to_nat i = Some x).
  { intros i Hi. apply lookup_lt_is_Some_2. unfold zlen in Hi. lia. }
  assert (Hnext : forall i, 0 <= i < zlen vs ->
            next (nd (data r) i) = if i =? zlen vs - 1 then 0 else i + 1).
  { intros i Hi. destruct (Hex i Hi) as [x Hx]. rewrite (E i x Hi Hx). simpl.
    destruct (Z.eqb_spec i (zlen vs - 1)); [reflexivity | apply u16_small; lia]. }
  assert (Hprev : forall i, 0 <= i < zlen vs ->
            prev (nd (data r) i) = if i =? 0 then zlen vs - 1 else i - 1).
  { intros i Hi. destruct (Hex i Hi) as [x Hx]. rewrite (E i x Hi Hx). simpl.
    destruct (Z.eqb_spec i 0); [apply u16_pred; lia | apply u16_small; lia]. }
  constructor.
  - unfold zlen in *. lia.
  - lia.
  - lia.
  - intros v Hv. rewrite Hs in Hv. destruct (Hex v Hv) as [x Hx].
    unfold is_cross. rewrite (E v x Hv Hx), Ho.
    destruct (Z.leb_spec (zlen vs) v); [lia | reflexivity].
  - intros v Hv. rewrite Hs in *. rewrite (Hnext v Hv).
    destruct (Z.eqb_spec v (zlen vs - 1)).
    + split; [lia|]. rewrite Hprev by lia. simpl. lia.
    + split; [lia|]. rewrite Hprev by lia.
      destruct (Z.eqb_spec (v + 1) 0); lia.
  - intros v Hv. rewrite Hs in *. rewrite (Hprev v Hv).
    destruct (Z.eqb_spec v 0).
    + split; [lia|]. rewrite Hnext by lia. rewrite Z.eqb_refl. lia.
    + split; [lia|]. rewrite Hnext by lia.
      destruct (Z.eqb_spec (v - 1) (zlen vs - 1)); lia.
Qed.

End TransformProofs.

(** ** Intersection finding: the loop state *)

Section FindProofs.
Context {F : Type} {FO : FloatOps F}.

Lemma fi_init_ok (a b : @ClipVertices F) :
  ring_ok a -> ring_ok b -> fi_ok (fi_init a b).
Proof.
  intros Ra Rb. constructor; simpl; try assumption; try lia.
  - intros H. destruct Ra. rewrite usize_small; lia.
  - intros H. destruct Rb. rewrite usize_small; lia.
Qed.

Lemma fi_start_in_range (r : @ClipVertices F) (i : Z) (v : ClipVertex) :
  ring_ok r -> 0 <= i < originalSize r -> get (data r) i = Ok v ->
  0 <= prev v < size r /\ next (nd (data r) (prev v)) = i /\ nd (data r) i = v.
Proof.
  intros R Hi Hv. apply get_nd in Hv as [<- _].
  destruct R. destruct (ro_prev0 i ltac:(lia)) as [H1 H2]. auto.
Qed.

Lemma fi_trans_ok (wfuel : nat) (s : @FIState F) (st : FIStep) :
  fi_ok s -> fi_trans wfuel s st ->
  match st with
  | Retry s' | Advance s' => fi_ok s'
  | Done _ _ => True
  end.
Proof.
  intros O T. pose proof O as O'. destruct O'.
  inversion T as [Hi | Hi Hj | Hi Hj | idx dir d Hi Hj Hidx Hd | idx dir d Hi Hj Hidx Hd
                 | aV bV ta tb p ia ib a' b' Hi Hj HaV HbV Hta Htb Hia Hib Ha' Hb'];
    subst; simpl; try exact I.
  - constructor; simpl; try assumption; lia.
  - constructor; simpl; try assumption; lia.
  - constructor; simpl; try assumption.
    eapply perturb_ring_ok; eassumption.
  - constructor; simpl; try assumption.
    eapply perturb_ring_ok; eassumption.
  - destruct (fi_start_in_range (fi_a s) (fi_i s) aV fo_a0 ltac:(lia) HaV) as (Hpa & _).
    destruct (fi_start_in_range (fi_b s) (fi_j s) bV fo_b0 ltac:(lia) HbV) as (Hpb & _).
    destruct (find_index_spec _ _ _ _ _ fo_a0 Hpa Hia) as (Ria & _).
    destruct (find_index_spec _ _ _ _ _ fo_b0 Hpb Hib) as (Rib & _).
    pose proof (insert_ring_ok _ _ _ _ _ _ fo_a0 Ria Ha') as Ra'.
    pose proof (insert_ring_ok _ _ _ _ _ _ fo_b0 Rib Hb') as Rb'.
    destruct (insert_fields _ _ _ _ _ _ fo_a0 Ria Ha') as (_ & Hoa & _).
    destruct (insert_fields _ _ _ _ _ _ fo_b0 Rib Hb') as (_ & Hob & _).
    constructor; simpl; try assumption; lia.
Qed.

End FindProofs.

(** ** Intersection finding: paired intersection nodes *)

Section NeighborProofs.
Context {F : Type} {FO : FloatOps F}.

Lemma insert_cross_linked (a b a' b' : @ClipVertices F) (ia ib : Z) (p : Vec) (ta tb : F) :
  ring_ok a -> ring_ok b -> 0 <= ia < size a -> 0 <= ib < size b ->
  cross_linked a b ->
  clipPolyCreateIntersection a ia p (size b) ta = Ok a' ->
  clipPolyCreateIntersection b ib p (size a) tb = Ok b' ->
  cross_linked a' b'.
Proof.
  intros Ra Rb Hia Hib L Ha' Hb'.
  destruct (insert_fields _ _ _ _ _ _ Ra Hia Ha') as (Hsa & Hoa & _ & Hna & _ & Ea).
  destruct (insert_fields _ _ _ _ _ _ Rb Hib Hb') as (Hsb & Hob & _ & Hnb & _ & Eb).
  pose proof (ro_cap a Ra). pose proof (ro_cap b Rb).
  pose proof (ro_orig a Ra). pose proof (ro_orig b Rb).
  intros v Hv. cbv zeta.
  destruct (Ea v) as (_ & _ & _ & -> & -> & _).
  destruct (Z.eqb_spec v (size a)) as [->|Hne].
  - rewrite (u16_small (size b)) by lia.
    destruct (Eb (size b)) as (_ & _ & _ & -> & -> & _).
    rewrite Z.eqb_refl, (u16_small (size a)) by lia.
    repeat split; lia.
  - destruct (L v ltac:(lia)) as (Hk & Hnk & Hpk).
    destruct (Eb (neighbor (nd (data a) v))) as (_ & _ & _ & -> & -> & _).
    destruct (Z.eqb_spec (neighbor (nd (data a) v)) (size b)); [lia|].
    repeat split; [lia | lia | assumption | assumption].
Qed.

Lemma perturb_cross_linked_l (a b : @ClipVertices F) (d : list ClipVertex) (idx : Z)
    (dir : Vec) :
  idx < originalSize a -> cross_linked a b ->
  modify (data a) idx (perturb dir) = Ok d ->
  cross_linked (set_data a d) b.
Proof.
  intros Hidx L (_ & E)%perturb_fields v Hv. simpl in *.
  destruct (E v) as (_ & _ & _ & -> & _ & Hp). rewrite Hp by lia.
  apply L. exact Hv.
Qed.

Lemma perturb_cross_linked_r (a b : @ClipVertices F) (d : list ClipVertex) (idx : Z)
    (dir : Vec) :
  idx < originalSize b -> cross_linked a b ->
  modify (data b) idx (perturb dir) = Ok d ->
  cross_linked a (set_data b d).
Proof.
  intros Hidx L (_ & E)%perturb_fields v Hv. simpl in *.
  destruct (L v Hv) as (Hk & Hn & Hp).
  destruct (E (neighbor (nd (data a) v))) as (_ & _ & _ & -> & _ & Hp').
  rewrite Hp' by lia. auto.
Qed.

Lemma fi_trans_linked (wfuel : nat) (s : @FIState F) (st : FIStep) :
  fi_linked s -> fi_trans wfuel s st ->
  match st with
  | Retry s' | Advance s' => fi_linked s'
  | Done _ _ => True
  end.
Proof.
  intros (O & Lab & Lba) T. pose proof (fi_trans_ok wfuel s st O T) as O'.
  pose proof O as O2. destruct O2.
  inversion T as [Hi | Hi Hj | Hi Hj | idx dir d Hi Hj Hidx Hd | idx dir d Hi Hj Hidx Hd
                 | aV bV ta tb p ia ib a' b' Hi Hj HaV HbV Hta Htb Hia Hib Ha' Hb'];
    subst; simpl in *; try exact I.
  - split; [exact O'|]. split; assumption.
  - split; [exact O'|]. split; assumption.
  - assert (idx < originalSize (fi_a s)) by (destruct Hidx; subst; lia).
    split; [exact O'|]. simpl. split.
    + eapply perturb_cross_linked_l; eassumption.
    + eapply perturb_cross_linked_r; eassumption.
  - assert (idx < originalSize (fi_b s)) by (destruct Hidx; subst; lia).
    split; [exact O'|]. simpl. split.
    + eapply perturb_cross_linked_r; eassumption.
    + eapply perturb_cross_linked_l; eassumption.
  - destruct (fi_start_in_range (fi_a s) (fi_i s) aV fo_a0 ltac:(lia) HaV) as (Hpa & _).
    destruct (fi_start_in_range (fi_b s) (fi_j s) bV fo_b0 ltac:(lia) HbV) as (Hpb & _).
    destruct (find_index_spec _ _ _ _ _ fo_a0 Hpa Hia) as (Ria & _).
    destruct (find_index_spec _ _ _ _ _ fo_b0 Hpb Hib) as (Rib & _).
    split; [exact O'|]. simpl. split.
    + eapply (insert_cross_linked (fi_a s) (fi_b s)); eassumption.
    + eapply (insert_cross_linked (fi_b s) (fi_a s)); eassumption.
Qed.

Lemma cross_linked_fresh (a b : @ClipVertices F) :
  size a = originalSize a -> cross_linked a b.
Proof. intros H v Hv. lia. Qed.

End NeighborProofs.

(** C1 (as amended): after [clipPolyFindIntersections] has returned on
    two rings made by [clipPolyTransformData] in slabs of at most [65536]
    entries (what 16-bit links can address), every node of ring A that carries
    [CVF_INTERSECT] has a [neighbor] index [k] below the size of ring B;
    node [k] of B carries [CVF_INTERSECT], its [neighbor] is the index of
    the A node, and both hold the same [pos]. The same holds with the
    rings exchanged. *)
Theorem find_intersections_neighbors {F : Type} {FO : FloatOps F} (fuel : nat)
    (verticesA verticesB : list Vec) (slabA slabB : list ClipVertex)
    (a0 b0 a b : ClipVertices) :
  clipPolyTransformData verticesA slabA = Ok a0 ->
  clipPolyTransformData verticesB slabB = Ok b0 ->
  zlen slabA <= 65536 -> zlen slabB <= 65536 ->
  clipPolyFindIntersections fuel a0 b0 = Ok (a, b) ->
  (forall v, 0 <= v < size a -> is_cross (data a) v = true ->
     let k := neighbor (nd (data a) v) in
     0 <= k < size b /\ size b <= zlen (data b) /\ is_cross (data b) k = true
     /\ neighbor (nd (data b) k) = v /\ pos (nd (data b) k) = pos (nd (data a) v))
  /\
  (forall v, 0 <= v < size b -> is_cross (data b) v = true ->
     let k := neighbor (nd (data b) v) in
     0 <= k < size a /\ size a <= zlen (data a) /\ is_cross (data a) k = true
     /\ neighbor (nd (data a) k) = v /\ pos (nd (data a) k) = pos (nd (data b) v)).
Proof.
  intros Ha0 Hb0 Hca Hcb Hrun.
  pose proof (transform_ring_ok _ _ _ Hca Ha0) as Ra0.
  pose proof (transform_ring_ok _ _ _ Hcb Hb0) as Rb0.
  destruct (transform_spec _ _ _ Ha0) as (_ & Hoa & Hsa & _).
  destruct (transform_spec _ _ _ Hb0) as (_ & Hob & Hsb & _).
  assert (L0 : fi_linked (fi_init a0 b0)).
  { split; [apply fi_init_ok; assumption|].
    split; apply cross_linked_fresh; simpl; lia. }
  destruct (fi_run_inv fi_linked fuel (fi_trans_linked fuel) fuel _ a b L0 Hrun)
    as (s & (O & Lab & Lba) & -> & ->).
  destruct O as [Ra Rb _ _ _ _].
  assert (Half : forall (x y : @ClipVertices F), ring_ok x -> ring_ok y ->
            cross_linked x y ->
            forall v, 0 <= v < size x -> is_cross (data x) v = true ->
              let k := neighbor (nd (data x) v) in
              0 <= k < size y /\ size y <= zlen (data y) /\ is_cross (data y) k = true
              /\ neighbor (nd (data y) k) = v
              /\ pos (nd (data y) k) = pos (nd (data x) v)).
  { intros x y Rx Ry L v Hv Hc. cbv zeta.
    rewrite (ro_flag x Rx v Hv) in Hc. apply Z.leb_le in Hc.
    destruct (L v ltac:(lia)) as (Hk & Hn & Hp).
    pose proof (ro_orig y Ry). pose proof (ro_size y Ry).
    split; [lia|]. split; [lia|]. split; [|split; assumption].
    rewrite (ro_flag y Ry) by lia. apply Z.leb_le. lia. }
  split; apply Half; assumption.
Qed.

Lemma find_intersections_neighbors_witness :
  (forall v, 0 <= v < size Inputs.squareRings.1 ->
     is_cross (data Inputs.squareRings.1) v = true ->
     let k := neighbor (nd (data Inputs.squareRings.1) v) in
     0 <= k < size Inputs.squareRings.2
     /\ size Inputs.squareRings.2 <= zlen (data Inputs.squareRings.2)
     /\ is_cross (data Inputs.squareRings.2) k = true
     /\ neighbor (nd (data Inputs.squareRings.2) k) = v
     /\ pos (nd (data Inputs.squareRings.2) k) = pos (nd (data Inputs.squareRings.1) v))
  /\
  (forall v, 0 <= v < size Inputs.squareRings.2 ->
     is_cross (data Inputs.squareRings.2) v = true ->
     let k := neighbor (nd (data Inputs.squareRings.2) v) in
     0 <= k < size Inputs.squareRings.1
     /\ size Inputs.squareRings.1 <= zlen (data Inputs.squareRings.1)
     /\ is_cross (data Inputs.squareRings.1) k = true
     /\ neighbor (nd (data Inputs.squareRings.1) k) = v
     /\ pos (nd (data Inputs.squareRings.1) k) = pos (nd (data Inputs.squareRings.2) v)).
Proof.
  apply (find_intersections_neighbors 100 Inputs.unitSquare Inputs.shiftedSquare
           (Inputs.slab 16) (Inputs.slab 16) Inputs.squareRingA Inputs.squareRingB).
  - vm_compute. reflexivity.
  - vm_compute. reflexivity.
  - unfold zlen. simpl. lia.
  - unfold zlen. simpl. lia.
  - vm_compute. reflexivity.
Defined.

(** ** Intersection finding: the order of [alpha] along an edge *)

Lemma SFcompare_swap (x y : spec_float) :
  SFcompare y x = option_map CompOpp (SFcompare x y).
Proof.
  destruct x as [sx|sx| |sx mx ex], y as [sy|sy| |sy my ey]; simpl;
    try reflexivity; try (destruct sx; reflexivity); try (destruct sy; reflexivity);
    try (destruct sx, sy; reflexivity).
  assert (Hm : Pos.compare_cont Eq my mx = CompOpp (Pos.compare_cont Eq mx my))
    by (symmetry; apply (Pos.compare_cont_antisym mx my Eq)).
  destruct sx, sy; simpl; try reflexivity;
    rewrite (Z.compare_antisym ex ey); destruct (ex ?= ey); simpl; try reflexivity;
    rewrite Hm; destruct (Pos.compare_cont Eq mx my); reflexivity.
Qed.

#[global] Instance binary32_order : FloatOrder binary32.
Proof.
  split.
  - intros x y. simpl. unfold SFltb. rewrite (SFcompare_swap x y).
    destruct (SFcompare x y) as [[]|]; simpl; congruence.
  - intros x y. simpl. unfold SFleb, SFltb. rewrite (SFcompare_swap x y).
    destruct (SFcompare x y) as [[]|] eqn:E; simpl; try congruence.
    destruct x, y; simpl in *; congruence.
Qed.

Section AlphaProofs.
Context {F : Type} {FO : FloatOps F} {FOrd : FloatOrder FO}.

Lemma insert_is_cross (r r' : @ClipVertices F) (at_ : Z) (p : Vec) (nb : Z) (t : F) (v : Z) :
  ring_ok r -> 0 <= at_ < size r ->
  clipPolyCreateIntersection r at_ p nb t = Ok r' ->
  is_cross (data r') v = if v =? size r then true else is_cross (data r) v.
Proof.
  intros R Hat H.
  destruct (insert_fields _ _ _ _ _ _ R Hat H) as (_ & _ & _ & _ & _ & E).
  unfold is_cross, has_flag. destruct (E v) as (_ & _ & -> & _).
  destruct (v =? size r); reflexivity.
Qed.

Lemma insert_alpha_sorted (wfuel : nat) (r r' : @ClipVertices F) (i : Z) (aV : ClipVertex)
    (t : F) (at_ : Z) (p : Vec) (nb : Z) :
  ring_ok r -> alpha_sorted r ->
  0 <= i < originalSize r -> get (data r) i = Ok aV ->
  clipPolyFindIntersectionIndex wfuel r (prev aV) t = Ok at_ ->
  clipPolyCreateIntersection r at_ p nb t = Ok r' ->
  alpha_sorted r'.
Proof.
  intros R S Hi HaV Hidx Hins.
  destruct (fi_start_in_range r i aV R Hi HaV) as (Hs0 & Hnx & _).
  destruct (find_index_spec _ _ _ _ _ R Hs0 Hidx) as (Hat & Hstop & Hnext).
  destruct (insert_fields _ _ _ _ _ _ R Hat Hins) as (Hsz & _ & _ & _ & HX & E).
  pose proof (fun v => insert_is_cross r r' at_ p nb t v R Hat Hins) as C.
  intros v Hv. rewrite !C.
  destruct (E v) as (-> & _ & _ & _ & _ & ->).
  destruct (Z.eqb_spec v (size r)) as [->|Hne].
  - intros _. destruct (Z.eqb_spec (next (nd (data r) at_)) (size r)); [lia|].
    intros Hc. destruct (E (next (nd (data r) at_))) as (_ & _ & _ & _ & _ & ->).
    destruct (Z.eqb_spec (next (nd (data r) at_)) (size r)); [lia|].
    destruct Hnext as [->|[_ Hlt]].
    + rewrite Hnx in Hc. rewrite (ro_flag r R i) in Hc by (pose proof (ro_orig r R); lia).
      apply Z.leb_le in Hc. lia.
    + apply fltb_asym. exact Hlt.
  - destruct (Z.eqb_spec v at_) as [->|Hna].
    + rewrite Z.eqb_refl. intros Hc _.
      destruct (E (size r)) as (_ & _ & _ & _ & _ & ->). rewrite Z.eqb_refl.
      apply Hstop. exact Hc.
    + destruct (ro_next r R v ltac:(lia)) as [Hr _].
      destruct (Z.eqb_spec (next (nd (data r) v)) (size r)); [lia|].
      intros Hc1 Hc2. destruct (E (next (nd (data r) v))) as (_ & _ & _ & _ & _ & ->).
      destruct (Z.eqb_spec (next (nd (data r) v)) (size r)); [lia|].
      apply S; [lia | assumption | assumption].
Qed.

Lemma insert_alpha_nonneg (r r' : @ClipVertices F) (at_ : Z) (p : Vec) (nb : Z) (t : F) :
  ring_ok r -> alpha_nonneg r -> 0 <= at_ < size r ->
  (fzero <=? t)%F = true ->
  clipPolyCreateIntersection r at_ p nb t = Ok r' ->
  alpha_nonneg r'.
Proof.
  intros R N Hat Ht Hins.
  destruct (insert_fields _ _ _ _ _ _ R Hat Hins) as (Hsz & _ & _ & _ & _ & E).
  intros v Hv. rewrite (insert_is_cross r r' at_ p nb t v R Hat Hins).
  destruct (E v) as (_ & _ & _ & _ & _ & ->).
  destruct (Z.eqb_spec v (size r)); [intros _; exact Ht|].
  apply N. lia.
Qed.

Lemma perturb_alpha (r : @ClipVertices F) (d : list ClipVertex) (idx : Z) (dir : Vec) :
  alpha_sorted r /\ alpha_nonneg r ->
  modify (data r) idx (perturb dir) = Ok d ->
  alpha_sorted (set_data r d) /\ alpha_nonneg (set_data r d).
Proof.
  intros [S N] (_ & E)%perturb_fields.
  assert (C : forall v, is_cross d v = is_cross (data r) v).
  { intros v. unfold is_cross, has_flag. destruct (E v) as (_ & _ & -> & _). reflexivity. }
  split; intros v Hv; simpl in *; rewrite !C.
  - destruct (E v) as (-> & _ & _ & _ & -> & _).
    destruct (E (next (nd (data r) v))) as (_ & _ & _ & _ & -> & _).
    apply S. exact Hv.
  - destruct (E v) as (_ & _ & _ & _ & -> & _). apply N. exact Hv.
Qed.

Lemma fi_trans_sorted (wfuel : nat) (s : @FIState F) (st : FIStep) :
  fi_sorted s -> fi_trans wfuel s st ->
  match st with
  | Retry s' | Advance s' => fi_sorted s'
  | Done _ _ => True
  end.
Proof.
  intros (O & Sa & Sb) T. pose proof (fi_trans_ok wfuel s st O T) as O'.
  pose proof O as O2. destruct O2.
  inversion T as [Hi | Hi Hj | Hi Hj | idx dir d Hi Hj Hidx Hd | idx dir d Hi Hj Hidx Hd
                 | aV bV ta tb p ia ib a' b' Hi Hj HaV HbV Hta Htb Hia Hib Ha' Hb'];
    subst; simpl in *; try exact I.
  - split; [exact O'|]. split; assumption.
  - split; [exact O'|]. split; assumption.
  - split; [exact O'|]. simpl. split; [|assumption].
    eapply perturb_alpha; eassumption.
  - split; [exact O'|]. simpl. split; [assumption|].
    eapply perturb_alpha; eassumption.
  - destruct (fi_start_in_range (fi_a s) (fi_i s) aV fo_a0 ltac:(lia) HaV) as (Hpa & _).
    destruct (fi_start_in_range (fi_b s) (fi_j s) bV fo_b0 ltac:(lia) HbV) as (Hpb & _).
    destruct (find_index_spec _ _ _ _ _ fo_a0 Hpa Hia) as (Ria & _).
    destruct (find_index_spec _ _ _ _ _ fo_b0 Hpb Hib) as (Rib & _).
    destruct Sa as [Sa Na]. destruct Sb as [Sb Nb].
    split; [exact O'|]. simpl. split; split.
    + eapply (insert_alpha_sorted wfuel (fi_a s) a' (fi_i s)); try eassumption. lia.
    + apply (insert_alpha_nonneg (fi_a s) a' ia p (size (fi_b s)) ta); assumption.
    + eapply (insert_alpha_sorted wfuel (fi_b s) b' (fi_j s)); try eassumption. lia.
    + apply (insert_alpha_nonneg (fi_b s) b' ib p (size (fi_a s)) tb); assumption.
Qed.

Lemma alpha_fresh (r : @ClipVertices F) :
  ring_ok r -> size r = originalSize r -> alpha_sorted r /\ alpha_nonneg r.
Proof.
  intros R H. split; intros v Hv Hc; rewrite (ro_flag r R v Hv) in Hc;
    apply Z.leb_le in Hc; lia.
Qed.

End AlphaProofs.

(** C4 (as amended): after [clipPolyFindIntersections] has returned on
    two rings made by [clipPolyTransformData] in slabs of at most [65536]
    entries, whenever an intersection node is followed in its ring by
    another intersection node (both then lie on the same original edge),
    the [alpha] of the first is less than or equal to the [alpha] of the
    second: along an edge [alpha] never decreases, and equal values
    occur. *)
Theorem find_intersections_alpha_ascending {F : Type} {FO : FloatOps F}
    {FOrd : FloatOrder FO} (fuel : nat)
    (verticesA verticesB : list Vec) (slabA slabB : list ClipVertex)
    (a0 b0 a b : ClipVertices) :
  clipPolyTransformData verticesA slabA = Ok a0 ->
  clipPolyTransformData verticesB slabB = Ok b0 ->
  zlen slabA <= 65536 -> zlen slabB <= 65536 ->
  clipPolyFindIntersections fuel a0 b0 = Ok (a, b) ->
  forall r, r = a \/ r = b ->
  forall v, 0 <= v < size r ->
    is_cross (data r) v = true ->
    is_cross (data r) (next (nd (data r) v)) = true ->
    (alpha (nd (data r) v) <=? alpha (nd (data r) (next (nd (data r) v))))%F = true.
Proof.
  intros Ha0 Hb0 Hca Hcb Hrun.
  pose proof (transform_ring_ok _ _ _ Hca Ha0) as Ra0.
  pose proof (transform_ring_ok _ _ _ Hcb Hb0) as Rb0.
  destruct (transform_spec _ _ _ Ha0) as (_ & Hoa & Hsa & _).
  destruct (transform_spec _ _ _ Hb0) as (_ & Hob & Hsb & _).
  assert (S0 : fi_sorted (fi_init a0 b0)).
  { split; [apply fi_init_ok; assumption|].
    split; apply alpha_fresh; simpl; first [assumption | lia]. }
  destruct (fi_run_inv fi_sorted fuel (fi_trans_sorted fuel) fuel _ a b S0 Hrun)
    as (s & (O & Sa & Sb) & -> & ->).
  destruct O as [Ra Rb _ _ _ _].
  assert (Half : forall x : @ClipVertices F, ring_ok x ->
            alpha_sorted x /\ alpha_nonneg x ->
            forall v, 0 <= v < size x -> is_cross (data x) v = true ->
              is_cross (data x) (next (nd (data x) v)) = true ->
              (alpha (nd (data x) v) <=? alpha (nd (data x) (next (nd (data x) v))))%F
              = true).
  { intros x Rx [Sx Nx] v Hv Hc1 Hc2.
    destruct (ro_next x Rx v Hv) as [Hr _].
    apply fleb_total; [apply Nx | apply Nx | apply Sx]; assumption. }
  intros r [->| ->]; apply Half; assumption.
Qed.

Lemma find_intersections_alpha_ascending_witness :
  let d := data Inputs.dipRings.1 in
  0 <= 3 < size Inputs.dipRings.1 /\
  is_cross d 3 = true /\ is_cross d (next (nd d 3)) = true /\
  (alpha (nd d 3) <=? alpha (nd d (next (nd d 3))))%F = true.
Proof.
  cbv zeta.
  assert (H1 : 0 <= 3 < size Inputs.dipRings.1) by (simpl; lia).
  assert (H2 : is_cross (data Inputs.dipRings.1) 3 = true) by (vm_compute; reflexivity).
  assert (H3 : is_cross (data Inputs.dipRings.1)
                 (next (nd (data Inputs.dipRings.1) 3)) = true)
    by (vm_compute; reflexivity).
  split; [exact H1|]. split; [exact H2|]. split; [exact H3|].
  refine (find_intersections_alpha_ascending 100 Inputs.longA Inputs.dipB
            (Inputs.slab 8) (Inputs.slab 8) Inputs.longRingA Inputs.dipRingB
            Inputs.dipRings.1 Inputs.dipRings.2 _ _ _ _ _
            Inputs.dipRings.1 (or_introl eq_refl) 3 H1 H2 H3).
  - vm_compute. reflexivity.
  - vm_compute. reflexivity.
  - unfold zlen. simpl. lia.
  - unfold zlen. simpl. lia.
  - vm_compute. reflexivity.
Defined.

(** C4 fails as stated: in single precision the edge
    [(-2^20,0) -> (2^20,0)] of [longA] is crossed by the two edges of
    [dipB] that meet in [(2,-2^-16)]; both crossings get the same [alpha],
    so nodes [3] and [4], adjacent on that edge, are not in strictly
    ascending order. *)
Lemma alpha_equal_counterexample :
  Inputs.intersect 100 Inputs.longA Inputs.dipB 8 = Ok Inputs.dipRings /\
  let d := data Inputs.dipRings.1 in
  is_cross d 3 = true /\ is_cross d 4 = true /\
  prev (nd d 3) = 0 /\ next (nd d 3) = 4 /\ next (nd d 4) = 1 /\
  alpha (nd d 3) = alpha (nd d 4) /\
  (alpha (nd d 3) <? alpha (nd d 4))%F = false.
Proof. vm_compute. repeat split. Qed.

(** ** Marking and emission on rings without intersections *)

Section PlainProofs.
Context {F : Type} {FO : FloatOps F}.

Lemma transform_plain (vs : list Vec) (slab : list ClipVertex) (r : ClipVertices) :
  zlen slab <= 65536 -> clipPolyTransformData vs slab = Ok r -> plain_ring r vs.
Proof.
  intros Hcap H. destruct (transform_spec vs slab r H) as (Hn & Ho & Hs & _ & Hl & E).
  constructor; try assumption; try lia.
  intros i x Hi Hx.
  assert (Hr : 0 <= i < zlen vs).
  { apply lookup_lt_Some in Hx. unfold zlen. lia. }
  eexists. rewrite (nd_get (data r) i) by lia. rewrite (E i x Hr Hx).
  destruct (Z.eqb_spec i (zlen vs - 1)); [reflexivity|].
  rewrite (u16_small (i + 1)) by lia. reflexivity.
Qed.

Lemma plain_get (r : @ClipVertices F) (vs : list Vec) (i : Z) :
  plain_ring r vs -> 0 <= i < zlen vs ->
  exists x pv, vs !! Z.to_nat i = Some x
    /\ get (data r) i = Ok (mkCV x (if i =? zlen vs - 1 then 0 else i + 1) pv 0 0 0 fzero).
Proof.
  intros P Hi.
  destruct (lookup_lt_is_Some_2 vs (Z.to_nat i)) as [x Hx]; [unfold zlen in Hi; lia|].
  destruct (pr_node r vs P i x ltac:(lia) Hx) as [pv Hg]. eauto.
Qed.

Lemma set_data_same (r : @ClipVertices F) : set_data r (data r) = r.
Proof. destruct r. reflexivity. Qed.

Lemma pip_loop_total (r : @ClipVertices F) (vs : list Vec) (p : Vec) (n : nat)
    (i prevIndex cn : Z) :
  plain_ring r vs -> 0 <= i -> i + Z.of_nat n <= zlen vs ->
  0 <= prevIndex < zlen vs ->
  exists c, pip_loop (data r) p n i prevIndex cn = Ok c.
Proof.
  intros P. revert i prevIndex cn.
  induction n as [|n IH]; intros i prevIndex cn Hi Hn Hp; simpl; [eauto|].
  destruct (plain_get r vs i P ltac:(lia)) as (x & pv & _ & ->).
  destruct (plain_get r vs prevIndex P Hp) as (y & pw & _ & ->). simpl.
  apply IH; lia.
Qed.

Lemma point_inside_total (r : @ClipVertices F) (vs : list Vec) (p : Vec) :
  plain_ring r vs -> exists c, clipPolyPointInsidePoly r p = Ok c.
Proof.
  intros P. unfold clipPolyPointInsidePoly. rewrite (pr_orig r vs P).
  pose proof (pr_small r vs P).
  destruct (Z.eq_dec (zlen vs) 0) as [H0|H0].
  - rewrite H0. simpl. eauto.
  - assert (0 < zlen vs) by (unfold zlen in *; lia).
    destruct (pip_loop_total r vs p (Z.to_nat (zlen vs)) 0 (usize (zlen vs - 1)) 0 P)
      as [c ->]; [lia | lia | rewrite usize_small; lia |].
    simpl. eauto.
Qed.

Lemma mark_loop_plain (r : @ClipVertices F) (vs : list Vec) (fuel m : nat) (i : Z)
    (inside : bool) :
  plain_ring r vs -> 0 <= i < zlen vs -> Z.to_nat (zlen vs - i) = m -> (m <= fuel)%nat ->
  mark_loop fuel (data r) i inside = Ok (data r).
Proof.
  intros P. revert fuel i. induction m as [|m IH]; intros fuel i Hi Hm Hf; [lia|].
  destruct fuel as [|fuel]; [lia|]. simpl.
  destruct (plain_get r vs i P Hi) as (x & pv & _ & ->). simpl.
  destruct (Z.eqb_spec i (zlen vs - 1)); [reflexivity|].
  destruct (Z.eqb_spec (i + 1) 0); [lia|].
  apply IH; lia.
Qed.

Lemma mark_single_plain (fuel : nat) (r other : @ClipVertices F) (vs ws : list Vec)
    (dir : ClipFollowDirection) :
  plain_ring r vs -> plain_ring other ws -> (Z.to_nat (zlen vs) <= fuel)%nat ->
  clipPolyMarkEntryExitPointsSingle fuel r other dir = Ok r.
Proof.
  intros P Q Hf. unfold clipPolyMarkEntryExitPointsSingle.
  rewrite (pr_size r vs P).
  destruct (Z.ltb_spec 0 (zlen vs)) as [Hpos|]; [|reflexivity].
  destruct (plain_get r vs 0 P ltac:(lia)) as (x & pv & _ & ->). simpl.
  destruct (point_inside_total other ws x Q) as [c ->]. simpl.
  rewrite (mark_loop_plain r vs fuel
             (Z.to_nat (zlen vs - (if 0 =? zlen vs - 1 then 0 else 0 + 1)))
             (if 0 =? zlen vs - 1 then 0 else 0 + 1) _ P);
    try (destruct (Z.eqb_spec 0 (zlen vs - 1)); lia).
  simpl. rewrite set_data_same. reflexivity.
Qed.

Lemma mark_plain (fuel : nat) (a b : @ClipVertices F) (va vb : list Vec)
    (aDir bDir : ClipFollowDirection) :
  plain_ring a va -> plain_ring b vb ->
  (Z.to_nat (zlen va) <= fuel)%nat -> (Z.to_nat (zlen vb) <= fuel)%nat ->
  clipPolyMarkEntryExitPoints fuel a b aDir bDir = Ok (a, b).
Proof.
  intros Pa Pb Ha Hb. unfold clipPolyMarkEntryExitPoints.
  rewrite (mark_single_plain fuel a b va vb aDir Pa Pb Ha). simpl.
  rewrite (mark_single_plain fuel b a vb va bDir Pb Pa Hb). reflexivity.
Qed.

(** The outer loop of the emitter walks once round a ring without
    intersections and changes nothing. *)
Lemma emit_outer_plain (wfuel fuel m : nat) (maxPolygons size_ : Z) (s : @EmitState F)
    (va : list Vec) :
  plain_ring (ea s) va -> eonA s = true ->
  ei s = 0 \/ (0 < ei s < zlen va /\ Z.to_nat (zlen va - ei s) = m) ->
  (m < fuel)%nat ->
  emit_outer wfuel fuel maxPolygons size_ s = Ok (Next (with_i s 0)).
Proof.
  intros P HA. revert fuel s P HA.
  induction m as [|m IH]; intros fuel s P HA Hi Hf;
    (destruct fuel as [|fuel]; [lia|]); simpl.
  - destruct Hi as [Hi|[Hi Hm]]; [|lia]. rewrite Hi. simpl.
    destruct s; simpl in *; subst; reflexivity.
  - destruct Hi as [Hi|[Hi Hm]].
    + rewrite Hi. simpl. destruct s; simpl in *; subst; reflexivity.
    + destruct (Z.eqb_spec (ei s) 0); [lia|].
      unfold emit_visit, ecur. rewrite HA.
      destruct (plain_get (ea s) va (ei s) P ltac:(lia)) as (x & pv & _ & Hg).
      rewrite Hg. simpl. unfold ecur. rewrite HA, Hg. simpl.
      rewrite (IH fuel (with_i s (if ei s =? zlen va - 1 then 0 else ei s + 1))).
      * destruct s; reflexivity.
      * destruct s; exact P.
      * destruct s; exact HA.
      * destruct (Z.eqb_spec (ei s) (zlen va - 1)); destruct s; simpl in *; [left|right]; lia.
      * lia.
Qed.


End PlainProofs.

Section FallbackProofs.
Context {F : Type} {FO : FloatOps F}.

Lemma emit_plain_start (fuel : nat) (a b : @ClipVertices F) (va : list Vec)
    (polygons : list ClipPolygonEntry) (maxPolygons : Z) (pool : list Vec) (maxCount : Z) :
  plain_ring a va -> 1 <= zlen va -> (Z.to_nat (zlen va) <= fuel)%nat ->
  clipPolyEmitClippedPolygons fuel a b polygons maxPolygons pool maxCount
  = (f ← emit_fallback maxPolygons maxCount (mkEmit a b true 0 1 0 0 polygons pool false);
     match f with
     | Return s => Ok (emit_result s, s)
     | Next s => s ← emit_close s; Ok (emit_result s, s)
     end).
Proof.
  intros P Hn Hf. unfold clipPolyEmitClippedPolygons.
  rewrite (pr_size a va P). destruct (Z.ltb_spec (zlen va) 1); [lia|].
  destruct (plain_get a va 0 P ltac:(lia)) as (x & pv & _ & ->).
  remember (if 0 =? zlen va - 1 then 0 else 0 + 1) as nx eqn:Hnx. simpl.
  rewrite (emit_outer_plain fuel fuel (Z.to_nat (zlen va) - 1) maxPolygons maxCount _ va);
    simpl; try assumption; try reflexivity; try lia.
  subst nx. destruct (Z.eqb_spec 0 (zlen va - 1)); [left; reflexivity | right; lia].
Qed.


End FallbackProofs.

Section ContainmentProofs.
Context {F : Type} {FO : FloatOps F}.
Variables (fuel : nat) (vA vB : list (@Vec F)) (slabA slabB : list (@ClipVertex F)).
Variables (a b : @ClipVertices F) (pa pb : @Vec F).
Variables (polygons : list ClipPolygonEntry) (maxPolygons : Z).
Variables (pool : list (@Vec F)) (maxCount : Z).
Hypothesis HA : clipPolyTransformData vA slabA = Ok a.
Hypothesis HB : clipPolyTransformData vB slabB = Ok b.
Hypothesis HcapA : zlen slabA <= 65536.
Hypothesis HcapB : zlen slabB <= 65536.
Hypothesis Hpa : vA !! 0%nat = Some pa.
Hypothesis Hpb : vB !! 0%nat = Some pb.
Hypothesis Hfind : clipPolyFindIntersections fuel a b = Ok (a, b).
Hypothesis HfuelA : (Z.to_nat (zlen vA) <= fuel)%nat.
Hypothesis HfuelB : (Z.to_nat (zlen vB) <= fuel)%nat.

Lemma clip_plain_fallback (dA dB : ClipFollowDirection) :
  clip_after_transform fuel a b dA dB polygons maxPolygons pool maxCount
  = (f ← emit_fallback maxPolygons maxCount (mkEmit a b true 0 1 0 0 polygons pool false);
     match f with
     | Return s => Ok (emit_result s, s)
     | Next s => s ← emit_close s; Ok (emit_result s, s)
     end).
Proof using HA HB HcapA HcapB Hpa Hfind HfuelA HfuelB.
  pose proof (transform_plain _ _ _ HcapA HA) as Pa.
  pose proof (transform_plain _ _ _ HcapB HB) as Pb.
  unfold clip_after_transform. rewrite Hfind. simpl.
  rewrite (mark_plain fuel a b vA vB dA dB Pa Pb HfuelA HfuelB). simpl.
  apply (emit_plain_start fuel a b vA); [exact Pa | | exact HfuelA].
  apply lookup_lt_Some in Hpa. unfold zlen. lia.
Qed.

Lemma first_vertices :
  (exists pv nx, get (data a) 0 = Ok (mkCV pa nx pv 0 0 0 fzero))
  /\ (exists pv nx, get (data b) 0 = Ok (mkCV pb nx pv 0 0 0 fzero))
  /\ size b <> 0.
Proof using HA HB HcapA HcapB Hpa Hpb.
  clear Hfind HfuelA HfuelB.
  pose proof (transform_plain _ _ _ HcapA HA) as Pa.
  pose proof (transform_plain _ _ _ HcapB HB) as Pb.
  destruct (pr_node a vA Pa 0 pa ltac:(lia) Hpa) as [pv Hg].
  destruct (pr_node b vB Pb 0 pb ltac:(lia) Hpb) as [pw Hh].
  split; [eauto|]. split; [eauto|].
  rewrite (pr_size b vB Pb). apply lookup_lt_Some in Hpb. unfold zlen. lia.
Qed.


End ContainmentProofs.


(** What the code does with polygons that neither cross nor contain one
    another: in the same setting, when neither first vertex tests inside
    the other ring, the emitter returns no polygon and no vertex and
    writes nothing, whatever the two follow directions. *)
Lemma emit_disjoint_empty {F : Type} {FO : FloatOps F} (fuel : nat)
    (vA vB : list Vec) (slabA slabB : list ClipVertex) (a b : ClipVertices)
    (pa pb : Vec) (dA dB : ClipFollowDirection)
    (polygons : list ClipPolygonEntry) (maxPolygons : Z)
    (pool : list Vec) (maxCount : Z) :
  clipPolyTransformData vA slabA = Ok a ->
  clipPolyTransformData vB slabB = Ok b ->
  zlen slabA <= 65536 -> zlen slabB <= 65536 ->
  vA !! 0%nat = Some pa -> vB !! 0%nat = Some pb ->
  clipPolyFindIntersections fuel a b = Ok (a, b) ->
  (Z.to_nat (zlen vA) <= fuel)%nat -> (Z.to_nat (zlen vB) <= fuel)%nat ->
  clipPolyPointInsidePoly b pa = Ok false ->
  clipPolyPointInsidePoly a pb = Ok false ->
  clip_after_transform fuel a b dA dB polygons maxPolygons pool maxCount
  = Ok (mkResult 0 0, mkEmit a b true 0 1 0 0 polygons pool false).
Proof.
  intros HA HB HcA HcB Hpa Hpb Hfind HfA HfB HoutA HoutB.
  destruct (first_vertices vA vB slabA slabB a b pa pb HA HB HcA HcB Hpa Hpb)
    as ((pv & nx & Ha0) & (pw & ny & Hb0) & Hsb).
  rewrite (clip_plain_fallback fuel vA vB slabA slabB a b pa polygons maxPolygons pool
             maxCount HA HB HcA HcB Hpa Hfind HfA HfB).
  unfold emit_fallback. simpl. rewrite Ha0. simpl. rewrite HoutA. simpl.
  destruct (Z.eqb_spec (size b) 0); [contradiction|].
  rewrite Hb0. simpl. rewrite HoutB. reflexivity.
Qed.


Lemma emit_disjoint_empty_unit_far :
  clip_after_transform 100 Inputs.unitRing Inputs.farSquareRing CFD_BACKWARD CFD_FORWARD
    [mkEntry 7 7] 1 (replicate 4 vzero) 4
  = Ok (mkResult 0 0,
        mkEmit Inputs.unitRing Inputs.farSquareRing true 0 1 0 0
               [mkEntry 7 7] (replicate 4 vzero) false).
Proof.
  apply (emit_disjoint_empty 100 Inputs.unitSquare Inputs.farSquare
           (Inputs.slab 16) (Inputs.slab 16) Inputs.unitRing Inputs.farSquareRing
           (Inputs.V32 0 0) (Inputs.V32 5 5)).
  - vm_compute. reflexivity.
  - vm_compute. reflexivity.
  - unfold zlen. simpl. lia.
  - unfold zlen. simpl. lia.
  - reflexivity.
  - reflexivity.
  - vm_compute. reflexivity.
  - unfold zlen. simpl. lia.
  - unfold zlen. simpl. lia.
  - vm_compute. reflexivity.
  - vm_compute. reflexivity.
Defined.

(** C6 (the code departs from it): the unit square and the unit square
    at [(5,5)] are disjoint, no edges cross and neither first vertex tests
    inside the other ring; with the directions (BACKWARD, FORWARD), which
    the header documents as [a \ b], the clipper returns no polygon and no
    vertex and leaves the pool as it was: the loop of A is not emitted. *)
Theorem difference_disjoint_emits_nothing :
  Inputs.intersect 100 Inputs.unitSquare Inputs.farSquare 16
  = Ok (Inputs.unitRing, Inputs.farSquareRing)
  /\ size Inputs.unitRing = 4 /\ size Inputs.farSquareRing = 4
  /\ clipPolyPointInsidePoly Inputs.farSquareRing (Inputs.V32 0 0) = Ok false
  /\ clipPolyPointInsidePoly Inputs.unitRing (Inputs.V32 5 5) = Ok false
  /\ (exists r,
        Inputs.pipeline 100 Inputs.unitSquare Inputs.farSquare 16
          CFD_BACKWARD CFD_FORWARD (replicate 4 (mkEntry 77 77)) 4
          (replicate 16 vzero) 16 = Ok r
        /\ r.1 = mkResult 0 0
        /\ epolys r.2 = replicate 4 (mkEntry 77 77)
        /\ epool r.2 = replicate 16 vzero)
  /\ ~ emits_loop Inputs.unitSquare
         (Inputs.pipeline 100 Inputs.unitSquare Inputs.farSquare 16
            CFD_BACKWARD CFD_FORWARD (replicate 4 (mkEntry 77 77)) 4
            (replicate 16 vzero) 16).
Proof.
  repeat (split; [vm_compute; reflexivity|]).
  split; [apply res_holds; vm_compute; repeat split|].
  assert (E : match Inputs.pipeline 100 Inputs.unitSquare Inputs.farSquare 16
                      CFD_BACKWARD CFD_FORWARD (replicate 4 (mkEntry 77 77)) 4
                      (replicate 16 vzero) 16 with
              | Ok r => rpolygons r.1
              | _ => 0
              end = 0) by (vm_compute; reflexivity).
  intros (r & st & H & H1 & _). rewrite H in E. simpl in E. lia.
Qed.

(** ** Intersection finding: what bounds its loops *)

Section AdvanceProofs.
Context {F : Type} {FO : FloatOps F}.



End AdvanceProofs.

Section WalkProofs.
Context {F : Type} {FO : FloatOps F}.






Lemma insert_ring_ord (r r' : @ClipVertices F) (at_ : Z) (p : Vec) (nb : Z) (t : F) :
  ring_ok r -> ring_ord r -> 0 <= at_ < size r ->
  clipPolyCreateIntersection r at_ p nb t = Ok r' ->
  ring_ord r'.
Proof.
  intros R (ord & Hrange & Hprev & Hinj) Hat H.
  destruct (insert_fields r r' at_ p nb t R Hat H) as (Hs & _ & _ & _ & HX & E).
  destruct (ro_next r R at_ Hat) as [_ HpX].
  exists (fun v => if v =? size r then ord at_ + 1
                   else if ord at_ <? ord v then ord v + 1 else ord v).
  pose proof (Hrange at_ Hat) as Ra.
  split; [|split].
  - intros v Hv. destruct (Z.eqb_spec v (size r)); [lia|].
    specialize (Hrange v ltac:(lia)). destruct (Z.ltb_spec (ord at_) (ord v)); lia.
  - intros v Hv. destruct (E v) as (_ & -> & _).
    destruct (Z.eqb_spec v (size r)) as [->|Hne].
    + destruct (Z.eqb_spec at_ (size r)); [lia|].
      destruct (Z.ltb_spec (ord at_) (ord at_)); lia.
    + destruct (Z.eqb_spec v (next (nd (data r) at_))) as [->|Hnx].
      * rewrite Z.eqb_refl.
        assert (HH : 0 < next (nd (data r) at_) < size r) by lia.
        pose proof (Hprev (next (nd (data r) at_)) HH) as Hx. rewrite HpX in Hx.
        destruct (Z.ltb_spec (ord at_) (ord (next (nd (data r) at_)))); lia.
      * assert (HH : 0 < v < size r) by lia.
        destruct (ro_prev r R v ltac:(lia)) as [Hu Hnu].
        pose proof (Hprev v HH) as Hx.
        destruct (Z.eqb_spec (prev (nd (data r) v)) (size r)); [lia|].
        destruct (Z.ltb_spec (ord at_) (ord v));
          destruct (Z.ltb_spec (ord at_) (ord (prev (nd (data r) v)))); try lia.
        exfalso. apply Hnx.
        assert (prev (nd (data r) v) = at_) as Heq by (apply Hinj; lia).
        rewrite Heq in Hnu. symmetry. exact Hnu.
  - intros u v Hu Hv.
    destruct (Z.eqb_spec u (size r)), (Z.eqb_spec v (size r)); try lia.
    + specialize (Hrange v ltac:(lia)).
      destruct (Z.ltb_spec (ord at_) (ord v)); lia.
    + specialize (Hrange u ltac:(lia)).
      destruct (Z.ltb_spec (ord at_) (ord u)); lia.
    + pose proof (Hinj u v ltac:(lia) ltac:(lia)).
      destruct (Z.ltb_spec (ord at_) (ord u)), (Z.ltb_spec (ord at_) (ord v)); lia.
Qed.

Lemma perturb_ring_ord (r : @ClipVertices F) (d : list ClipVertex) (idx : Z) (dir : Vec) :
  ring_ord r -> modify (data r) idx (perturb dir) = Ok d -> ring_ord (set_data r d).
Proof.
  intros (ord & Hrange & Hprev & Hinj) (_ & E)%perturb_fields.
  exists ord. simpl. split; [exact Hrange|]. split; [|exact Hinj].
  intros v Hv. destruct (E v) as (_ & -> & _). apply Hprev. exact Hv.
Qed.

Lemma transform_ring_ord (vs : list (@Vec F)) (slab : list ClipVertex) (r : ClipVertices) :
  zlen slab <= 65536 -> clipPolyTransformData vs slab = Ok r -> ring_ord r.
Proof.
  intros Hcap H. destruct (transform_spec vs slab r H) as (Hn & Ho & Hs & _ & Hl & E).
  exists (fun v => v). rewrite Hs. split; [auto|]. split; [|auto].
  intros v Hv.
  destruct (lookup_lt_is_Some_2 vs (Z.to_nat v)) as [x Hx]; [unfold zlen in Hv; lia|].
  rewrite (E v x ltac:(lia) Hx). simpl.
  destruct (Z.eqb_spec v 0); [lia|]. apply u16_small. lia.
Qed.





End WalkProofs.






(** ** Ear clipping: the triangles written *)

Lemma triples_app (l m : list Z) (k : nat) :
  length l = (3 * k)%nat -> triples (l ++ m) = triples l ++ triples m.
Proof.
  revert l. induction k as [|k IH]; intros l Hl.
  - destruct l; [reflexivity | discriminate].
  - destruct l as [|x [|y [|z l]]]; try (simpl in Hl; lia).
    simpl. rewrite IH by (simpl in Hl; lia). reflexivity.
Qed.

Lemma triples_concat (l : list Z) (k : nat) :
  length l = (3 * k)%nat -> concat (triples l) = l.
Proof.
  revert l. induction k as [|k IH]; intros l Hl.
  - destruct l; [reflexivity | discriminate].
  - destruct l as [|x [|y [|z l]]]; try (simpl in Hl; lia).
    simpl. rewrite IH by (simpl in Hl; lia). reflexivity.
Qed.

Lemma u16_offset_inj (qa qb begin : Z) :
  0 <= qa < 65536 -> 0 <= qb < 65536 -> qa <> qb ->
  u16 (qa + begin) <> u16 (qb + begin).
Proof.
  unfold u16. intros Ha Hb Hne H.
  assert (E : (qa + begin - (qb + begin)) mod 65536 = 0).
  { rewrite Zminus_mod, H, Z.sub_diag. reflexivity. }
  replace (qa + begin - (qb + begin)) with (qa - qb) in E by lia.
  apply Z.mod_divide in E; [|lia]. destruct E as [k Hk]. lia.
Qed.

Section TriangulateMore.
Context {F : Type} {FO : FloatOps F}.
Variable TMPO_CLOCKWISE_TRIANGLES : bool.
Variable vertices : list (@Vec F).
Variable clockwise : bool.
Variable begin : Z.
Variable maxIndices : Z.

Let count : Z := zlen vertices.

Local Abbreviation tri_inv := (tri_invariant count begin maxIndices).
Local Abbreviation run_loop :=
  (tri_loop TMPO_CLOCKWISE_TRIANGLES vertices clockwise begin maxIndices).
Local Abbreviation clip := (tri_clip TMPO_CLOCKWISE_TRIANGLES clockwise begin).
Local Abbreviation emit := (tri_emit TMPO_CLOCKWISE_TRIANGLES clockwise begin).

(** A property of the loop state kept by the clipping of an ear, by the
    step to the next triple and by the count of a rejection holds when the
    loop ends, and the loop ends. *)
Lemma tri_loop_keeps (P : TriState -> Prop) (n0 : Z) :
  (forall s qa qb qc s',
     tri_inv n0 s -> P s -> 3 <= tsize s ->
     tquery s !! Z.to_nat (ta s) = Some qa ->
     tquery s !! Z.to_nat (tb s) = Some qb ->
     tquery s !! Z.to_nat (tc s) = Some qc ->
     isTriangleEar qa qb qc vertices clockwise = Ok true ->
     clip s qa qb qc = Ok s' -> P s') ->
  (forall s, tri_inv n0 s -> P s -> 3 <= tsize s -> P (tri_advance s)) ->
  (forall s, P s -> P (tri_tick s)) ->
  forall fuel s, tri_inv n0 s -> P s -> (tri_measure n0 s < fuel)%nat ->
    exists s', run_loop fuel s = Ok s' /\ tri_inv n0 s' /\ P s'.
Proof.
  intros Hclip Hadv Htick.
  induction fuel as [|fuel IH]; intros s I HP Hm; [lia|].
  simpl. destruct (Z.ltb_spec 2 (tsize s)) as [H3|H3]; simpl; [|eauto].
  pose proof I as I'.
  destruct I' as [Isize Ilen Iabc Itwo Iquery Icount Iout Imax Iem].
  destruct (Iabc ltac:(lia)) as (Ia & Ib & Ic & Icur).
  destruct (get_in_range (tquery s) (ta s) ltac:(lia)) as [qa Hqa].
  destruct (get_in_range (tquery s) (tb s) ltac:(lia)) as [qb Hqb].
  destruct (get_in_range (tquery s) (tc s) ltac:(lia)) as [qc Hqc].
  rewrite Hqa, Hqb, Hqc. simpl.
  apply get_Ok in Hqa, Hqb, Hqc.
  assert (Ra : 0 <= qa < count) by (apply (Iquery (ta s)); [lia | tauto]).
  assert (Rb : 0 <= qb < count) by (apply (Iquery (tb s)); [lia | tauto]).
  assert (Rc : 0 <= qc < count) by (apply (Iquery (tc s)); [lia | tauto]).
  destruct (isTriangleEar_Ok vertices clockwise qa qb qc Ra Rb Rc) as [[|] Hear];
    rewrite Hear; simpl.
  - destruct (Z.ltb_spec maxIndices (tindices s + 3)); [eauto|].
    destruct (tri_clip_inv TMPO_CLOCKWISE_TRIANGLES vertices clockwise begin maxIndices
                n0 s qa qb qc I ltac:(lia) Ra Rb Rc ltac:(lia))
      as (s' & Hs' & I' & Hsz & Hit).
    rewrite Hs'. simpl. apply IH; [exact I'| |].
    + apply (Hclip s qa qb qc s' I HP ltac:(lia)); tauto.
    + unfold tri_measure in *. rewrite Hsz, Hit. nia.
  - destruct (tri_advance_inv vertices begin maxIndices n0 s I ltac:(lia))
      as (I' & Hsz & Hit).
    destruct (Z.ltb_spec (2 * tsize (tri_advance s)) (titer (tri_advance s))).
    + eexists. split; [reflexivity|]. split; [exact I'|]. apply Hadv; [exact I|exact HP|lia].
    + apply IH; [apply tri_tick_inv; exact I'| |].
      * apply Htick, Hadv; [exact I|exact HP|lia].
      * unfold tri_measure in *. simpl. rewrite Hsz, Hit in *. nia.
Qed.

Lemma tri_out_length (n0 : Z) (s : TriState) :
  tri_inv n0 s -> length (tout s) = (3 * Z.to_nat (n0 - tsize s))%nat.
Proof.
  intros [Isize _ _ _ _ Icount Iout _ _]. unfold zlen in Iout. lia.
Qed.

Lemma triples_emit (qa qb qc : Z) : triples (emit qa qb qc) = [emit qa qb qc].
Proof. unfold tri_emit. destruct (eqb _ _); reflexivity. Qed.

Lemma tri_clip_out (s s' : TriState) (qa qb qc : Z) :
  clip s qa qb qc = Ok s' ->
  tout s' = tout s ++ emit qa qb qc /\ tsize s' = tsize s - 1.
Proof.
  unfold tri_clip. intros (q & _ & H)%bind_Ok. injection H as <-. simpl. auto.
Qed.

Local Abbreviation ear_emission := (ear_emission TMPO_CLOCKWISE_TRIANGLES vertices clockwise begin).

Lemma tri_loop_ears (n0 : Z) (fuel : nat) (s : TriState) :
  tri_inv n0 s -> Forall ear_emission (triples (tout s)) ->
  (tri_measure n0 s < fuel)%nat ->
  exists s', run_loop fuel s = Ok s' /\ tri_inv n0 s'
             /\ Forall ear_emission (triples (tout s')).
Proof.
  apply (tri_loop_keeps (fun s => Forall ear_emission (triples (tout s)))).
  - intros s0 qa qb qc s' I HP H3 _ _ _ Hear Hclip.
    apply tri_clip_out in Hclip as [-> _].
    rewrite (triples_app _ _ _ (tri_out_length n0 s0 I)), triples_emit.
    apply Forall_app. split; [exact HP|]. constructor; [|constructor].
    exists qa, qb, qc. auto.
  - intros s0 _ HP _. unfold tri_advance. destruct (_ <=? _); exact HP.
  - intros s0 HP. exact HP.
Qed.

Lemma tri_clip_order (n0 : Z) (s s' : TriState) (qa qb qc : Z) :
  n0 <= 65536 ->
  tri_inv n0 s -> tri_order n0 s -> 3 <= tsize s ->
  clip s qa qb qc = Ok s' -> tri_order n0 s'.
Proof.
  intros Hn0 I O H3 H.
  destruct I as [Isize Ilen Iabc Itwo Iquery Icount Iout Imax Iem].
  destruct (Iabc H3) as (Ia & Ib & Ic & Icur).
  destruct O as [Osort Orange Onext].
  unfold tri_clip in H.
  destruct (memmove_left_spec (tquery s) (tb s) (tsize s - 1)) as (q & Hq & Hlen & Hlook);
    [lia | lia |].
  rewrite Hq in H. simpl in H. injection H as <-.
  set (size := tsize s - 1) in *.
  set (cur := if size <=? ta s then ta s - size else ta s).
  assert (Hcur : 0 <= cur < size).
  { unfold cur. destruct (Z.leb_spec size (ta s)); lia. }
  constructor; simpl; fold size; fold cur.
  - intros k1 k2 q1 q2 H0 H12 H2. rewrite !Hlook by lia. 
    apply Osort; destruct (Z.ltb_spec k1 (tb s)), (Z.ltb_spec k2 (tb s)); lia.
  - intros k x Hk. rewrite Hlook by lia.
    apply Orange. destruct (Z.ltb_spec k (tb s)); lia.
  - intros H3'. 
    destruct (Z.leb_spec 2 cur); [lia|].
    destruct (Z.leb_spec 1 cur).
    + rewrite usize_small by lia. lia.
    + rewrite !usize_small by lia. lia.
Qed.

Lemma tri_advance_order (n0 : Z) (s : TriState) :
  n0 <= 65536 ->
  tri_inv n0 s -> tri_order n0 s -> 3 <= tsize s -> tri_order n0 (tri_advance s).
Proof.
  intros Hn0 I O H3.
  destruct I as [Isize Ilen Iabc Itwo Iquery Icount Iout Imax Iem].
  destruct (Iabc H3) as (Ia & Ib & Ic & Icur).
  destruct O as [Osort Orange Onext]. destruct (Onext H3) as [Hab Hbc].
  unfold tri_advance.
  destruct (Z.leb_spec (tsize s) (tcurrent s + 1)); constructor; simpl;
    try assumption; intros _.
  - rewrite !usize_small by lia. lia.
  - lia.
Qed.

Lemma tri_clip_distinct (n0 : Z) (s : TriState) (qa qb qc : Z) :
  n0 <= 65536 ->
  tri_inv n0 s -> tri_order n0 s -> 3 <= tsize s ->
  tquery s !! Z.to_nat (ta s) = Some qa ->
  tquery s !! Z.to_nat (tb s) = Some qb ->
  tquery s !! Z.to_nat (tc s) = Some qc ->
  distinct_corners n0 begin (emit qa qb qc).
Proof.
  intros Hn0 I O H3 Ha Hb Hc.
  destruct I as [Isize Ilen Iabc Itwo Iquery Icount Iout Imax Iem].
  destruct (Iabc H3) as (Ia & Ib & Ic & Icur).
  destruct O as [Osort Orange Onext]. destruct (Onext H3) as [Hab Hbc].
  pose proof (Orange _ _ Ia Ha) as Ra.
  pose proof (Orange _ _ Ib Hb) as Rb.
  pose proof (Orange _ _ Ic Hc) as Rc.
  assert (Hne : forall k1 k2 q1 q2, 0 <= k1 < tsize s -> 0 <= k2 < tsize s -> k1 <> k2 ->
            tquery s !! Z.to_nat k1 = Some q1 -> tquery s !! Z.to_nat k2 = Some q2 ->
            q1 <> q2).
  { intros k1 k2 q1 q2 H1 H2 Hk E1 E2.
    destruct (Z.lt_total k1 k2) as [Hlt|[Heq|Hgt]]; [|lia|].
    - pose proof (Osort k1 k2 q1 q2 ltac:(lia) Hlt ltac:(lia) E1 E2). lia.
    - pose proof (Osort k2 k1 q2 q1 ltac:(lia) Hgt ltac:(lia) E2 E1). lia. }
  assert (Nab : qa <> qb) by (apply (Hne (ta s) (tb s)); auto; lia).
  assert (Nbc : qb <> qc) by (apply (Hne (tb s) (tc s)); auto; lia).
  assert (Nac : qa <> qc) by (apply (Hne (ta s) (tc s)); auto; lia).
  unfold tri_emit. destruct (eqb _ _).
  - exists qa, qb, qc. split; [reflexivity|]. split; [auto|]. split; [auto|].
    repeat split; apply u16_offset_inj; lia.
  - exists qa, qc, qb. split; [reflexivity|]. split; [auto|]. split; [auto|].
    repeat split; apply u16_offset_inj; lia.
Qed.

Lemma tri_loop_distinct (n0 : Z) (fuel : nat) (s : TriState) :
  n0 <= 65536 ->
  tri_inv n0 s ->
  tri_order n0 s /\ Forall (distinct_corners n0 begin) (triples (tout s)) ->
  (tri_measure n0 s < fuel)%nat ->
  exists s', run_loop fuel s = Ok s' /\ tri_inv n0 s'
             /\ (tri_order n0 s'
                 /\ Forall (distinct_corners n0 begin) (triples (tout s'))).
Proof.
  intros Hn0.
  apply (tri_loop_keeps
           (fun s => tri_order n0 s
                     /\ Forall (distinct_corners n0 begin) (triples (tout s)))).
  - intros s0 qa qb qc s' I [O HP] H3 Ha Hb Hc _ Hclip.
    split; [eapply tri_clip_order; eassumption|].
    apply tri_clip_out in Hclip as [-> _].
    rewrite (triples_app _ _ _ (tri_out_length n0 s0 I)), triples_emit.
    apply Forall_app. split; [exact HP|]. constructor; [|constructor].
    eapply tri_clip_distinct; eassumption.
  - intros s0 I [O HP] H3. split; [apply tri_advance_order; assumption|].
    unfold tri_advance. destruct (_ <=? _); exact HP.
  - intros s0 [[Os Or On] HP]. split; [constructor; assumption | exact HP].
Qed.

Lemma tri_init_order (queryList : list Z) :
  let n0 := if count <? zlen queryList then count else zlen queryList in
  n0 <= 65536 ->
  tri_order n0 (mkTri (tri_init_query queryList n0) n0 0 1 2 2 0 0 []).
Proof.
  intros n0 Hn0.
  assert (Hlook : forall k q, 0 <= k < n0 ->
            tri_init_query queryList n0 !! Z.to_nat k = Some q -> q = k).
  { intros k q Hk. unfold tri_init_query.
    rewrite lookup_app_l by (rewrite length_map, length_seq; lia).
    rewrite list_lookup_fmap, lookup_seq_lt by lia. simpl.
    intros [= <-]. rewrite u16_small; lia. }
  constructor; simpl.
  - intros k1 k2 q1 q2 H0 H12 H2 E1 E2.
    apply Hlook in E1, E2; lia.
  - intros k q Hk E. apply Hlook in E; lia.
  - lia.
Qed.

End TriangulateMore.

Section EarProofs.
Context {F : Type} {FO : FloatOps F}.

Lemma ear_scan_spec (a b c : Z) (va vb vc : @Vec F) (vs : list Vec) (i : Z) :
  ear_scan a b c va vb vc vs i = true <->
  forall (k : nat) (v : Vec), vs !! k = Some v ->
    i + Z.of_nat k <> a -> i + Z.of_nat k <> b -> i + Z.of_nat k <> c ->
    pointInsideTriangle va vb vc v = false.
Proof.
  revert i. induction vs as [|w vs IH]; intros i.
  - split; [intros _ k v Hk; discriminate | reflexivity].
  - simpl. split.
    + intros H k v Hk Ha Hb Hc. destruct k as [|k].
      * injection Hk as ->. rewrite Z.add_0_r in *.
        destruct (Z.eqb_spec i a); [lia|]. destruct (Z.eqb_spec i b); [lia|].
        destruct (Z.eqb_spec i c); [lia|]. simpl in H.
        destruct (pointInsideTriangle va vb vc v); [discriminate | reflexivity].
      * assert (H' : ear_scan a b c va vb vc vs (i + 1) = true).
        { destruct ((i =? a) || (i =? b) || (i =? c)); [exact H|].
          destruct (pointInsideTriangle va vb vc w); [discriminate | exact H]. }
        apply (proj1 (IH (i + 1)) H' k v Hk); lia.
    + intros H.
      assert (H' : ear_scan a b c va vb vc vs (i + 1) = true).
      { apply IH. intros k v Hk Ha Hb Hc. apply (H (S k) v Hk); lia. }
      destruct (Z.eqb_spec i a); [exact H'|]. destruct (Z.eqb_spec i b); [exact H'|].
      destruct (Z.eqb_spec i c); [exact H'|]. simpl.
      rewrite (H O w eq_refl) by lia. exact H'.
Qed.

End EarProofs.

(** ** Ear clipping: how the loop ends *)


Section TriangulateCount.
Context {F : Type} {FO : FloatOps F}.
Variable TMPO_CLOCKWISE_TRIANGLES : bool.
Variable vertices : list (@Vec F).
Variable clockwise : bool.
Variable begin : Z.
Variable maxIndices : Z.

Let count : Z := zlen vertices.

Local Abbreviation tri_inv := (tri_invariant count begin maxIndices).
Local Abbreviation run_loop :=
  (tri_loop TMPO_CLOCKWISE_TRIANGLES vertices clockwise begin maxIndices).
Local Abbreviation failed := (tri_failed vertices clockwise).
Local Abbreviation exit := (tri_exit vertices clockwise maxIndices).





End TriangulateCount.

(** The premise of the full count can be met: in single precision every
    three corners of the unit square, taken in the order of the loop, pass
    the ear test. *)
Lemma unit_square_every_triple_ear :
  @every_triple_ear spec_float binary32 Inputs.unitSquare true.
Proof.
  intros i j k Hi Hj Hk Hc.
  change (zlen Inputs.unitSquare) with 4 in *.
  assert (Ei : i = 0 \/ i = 1 \/ i = 2 \/ i = 3) by lia.
  assert (Ej : j = 0 \/ j = 1 \/ j = 2 \/ j = 3) by lia.
  assert (Ek : k = 0 \/ k = 1 \/ k = 2 \/ k = 3) by lia.
  unfold cyclic_order in Hc.
  destruct Ei as [->|[->|[->| ->]]], Ej as [->|[->|[->| ->]]], Ek as [->|[->|[->| ->]]];
    try (exfalso; lia); vm_compute; reflexivity.
Qed.



(** X4: [isTriangleEar] accepts a triple exactly when its corners exist, the
    triangle has the orientation [cw], and no vertex of the whole array at
    another index passes [pointInsideTriangle]: the scan runs over every
    vertex of the polygon, clipped or not. *)
Theorem triangle_ear_iff {F : Type} {FO : FloatOps F} (a b c : Z)
    (vertices : list (@Vec F)) (cw : bool) :
  isTriangleEar a b c vertices cw = Ok true <->
  exists va vb vc,
    get vertices a = Ok va /\ get vertices b = Ok vb /\ get vertices c = Ok vc
    /\ isTriangleClockwise va vb vc = cw
    /\ forall (k : nat) (v : Vec), vertices !! k = Some v ->
         Z.of_nat k <> a -> Z.of_nat k <> b -> Z.of_nat k <> c ->
         pointInsideTriangle va vb vc v = false.
Proof.
  unfold isTriangleEar. split.
  - intros (va & Ha & H)%bind_Ok. apply bind_Ok in H as (vb & Hb & H).
    apply bind_Ok in H as (vc & Hc & H).
    exists va, vb, vc. repeat (split; [assumption|]).
    destruct (eqb_spec (isTriangleClockwise va vb vc) cw) as [E|E]; simpl in H;
      [|discriminate].
    split; [exact E|]. injection H as H.
    intros k v Hk Ha' Hb' Hc'.
    apply (proj1 (ear_scan_spec a b c va vb vc vertices 0) H k v Hk); lia.
  - intros (va & vb & vc & -> & -> & -> & E & H). simpl.
    rewrite E, eqb_reflx. simpl. f_equal. apply ear_scan_spec.
    intros k v Hk Ha' Hb' Hc'. apply (H k v Hk); lia.
Qed.

(** X5: given fuel for its loop, [triangulatePolygonEarClipping]
    returns, and every triangle written is the emission of a triple that passed the
    ear test against the whole vertex array; the output consists of whole
    triangles. *)
Theorem triangulate_emits_ears {F : Type} {FO : FloatOps F}
    (TMPO_CLOCKWISE_TRIANGLES : bool) (vertices : list Vec) (clockwise : bool)
    (begin maxIndices : Z) (fuel : nat) (queryList : list Z) :
  (tri_fuel (zlen vertices) <= fuel)%nat ->
  exists n out,
    triangulatePolygonEarClipping TMPO_CLOCKWISE_TRIANGLES vertices clockwise
      begin maxIndices fuel queryList = Ok (n, out)
    /\ concat (triples out) = out
    /\ Forall (ear_emission TMPO_CLOCKWISE_TRIANGLES vertices clockwise begin)
              (triples out).
Proof.
  intros Hfuel. unfold triangulatePolygonEarClipping.
  destruct (Z.ltb_spec (zlen vertices) 3).
  { exists 0, []. repeat split. constructor. }
  pose proof (tri_init_inv vertices begin maxIndices queryList) as I0.
  cbv zeta in I0.
  set (n0 := if zlen vertices <? zlen queryList then zlen vertices else zlen queryList) in *.
  assert (Hn0 : 0 <= n0 <= zlen vertices).
  { unfold n0, zlen. destruct (Z.ltb_spec (Z.of_nat (length vertices))
      (Z.of_nat (length queryList))); lia. }
  destruct (tri_loop_ears TMPO_CLOCKWISE_TRIANGLES vertices clockwise begin maxIndices
              n0 fuel _ I0) as (s & -> & I & HP).
  { constructor. }
  { unfold tri_measure, tri_fuel in *. simpl. nia. }
  simpl. exists (tindices s), (tout s).
  split; [reflexivity|]. split; [|exact HP].
  eapply triples_concat, tri_out_length, I.
Qed.

Lemma triangulate_emits_ears_witness :
  (tri_fuel (zlen Inputs.pentagon) <= 100)%nat
  /\ exists n out,
       triangulatePolygonEarClipping true Inputs.pentagon true 0 100 100 (replicate 5 0)
       = Ok (n, out)
       /\ concat (triples out) = out
       /\ Forall (ear_emission true Inputs.pentagon true 0) (triples out).
Proof.
  assert (H : (tri_fuel (zlen Inputs.pentagon) <= 100)%nat)
    by (unfold tri_fuel, zlen; simpl; lia).
  split; [exact H|].
  exact (triangulate_emits_ears true Inputs.pentagon true 0 100 100 (replicate 5 0) H).
Defined.

(** X6: with at most 65536 vertices, the scratch ring holds the indices
    not yet clipped in ascending order, so the three corners of every triangle written are different
    vertices among the first [min(count, queryCount)], and at most
    [3 * (min(count, queryCount) - 2)] indices are written. *)
Theorem triangulate_distinct_corners {F : Type} {FO : FloatOps F}
    (TMPO_CLOCKWISE_TRIANGLES : bool) (vertices : list Vec) (clockwise : bool)
    (begin maxIndices : Z) (fuel : nat) (queryList : list Z) :
  let n0 := Z.min (zlen vertices) (zlen queryList) in
  n0 <= 65536 ->
  (tri_fuel (zlen vertices) <= fuel)%nat ->
  exists n out,
    triangulatePolygonEarClipping TMPO_CLOCKWISE_TRIANGLES vertices clockwise
      begin maxIndices fuel queryList = Ok (n, out)
    /\ zlen out = n /\ concat (triples out) = out
    /\ n <= 3 * Z.max 0 (n0 - 2)
    /\ Forall (distinct_corners n0 begin) (triples out).
Proof.
  intros n0' Hsmall Hfuel. unfold triangulatePolygonEarClipping.
  destruct (Z.ltb_spec (zlen vertices) 3).
  { exists 0, []. repeat split; [lia | constructor]. }
  pose proof (tri_init_inv vertices begin maxIndices queryList) as I0.
  pose proof (tri_init_order vertices queryList) as O0.
  cbv zeta in I0, O0.
  set (n0 := if zlen vertices <? zlen queryList then zlen vertices else zlen queryList) in *.
  assert (Hn0 : n0 = n0').
  { unfold n0, n0'. destruct (Z.ltb_spec (zlen vertices) (zlen queryList)); lia. }
  assert (Hn0' : 0 <= n0 <= zlen vertices) by (unfold n0', zlen in *; lia).
  rewrite <- Hn0 in *. clear Hn0 n0'.
  destruct (tri_loop_distinct TMPO_CLOCKWISE_TRIANGLES vertices clockwise begin maxIndices
              n0 fuel _ Hsmall I0) as (s & -> & I & O & HP).
  { split; [exact (O0 Hsmall) | constructor]. }
  { unfold tri_measure, tri_fuel in *. simpl. nia. }
  simpl. exists (tindices s), (tout s).
  pose proof (tri_out_length vertices begin maxIndices n0 s I) as Hlen.
  destruct I as [Isize Ilen Iabc Itwo Iquery Icount Iout Imax Iem].
  split; [reflexivity|]. split; [exact Iout|].
  split; [eapply triples_concat; exact Hlen|].
  split; [|exact HP].
  destruct (Z.le_gt_cases 3 n0) as [H3|H3]; [specialize (Itwo H3); lia|].
  assert (Hz : tindices s = 0); [|lia].
  destruct Imax as [Hz|Hm]; [exact Hz|].
  destruct (triples (tout s)) as [|t ts] eqn:Et.
  - destruct (tout s) as [|x [|y [|z r]]] eqn:Eo; unfold zlen in *; simpl in *;
      try lia; discriminate.
  - inversion HP as [|? ? (qa & qb & qc & _ & R & D & _) _]; subst. lia.
Qed.

Lemma triangulate_distinct_corners_witness :
  Z.min (zlen Inputs.pentagon) (zlen (replicate 5 0)) <= 65536
  /\ (tri_fuel (zlen Inputs.pentagon) <= 100)%nat
  /\ exists n out,
       triangulatePolygonEarClipping true Inputs.pentagon true 7 100 100 (replicate 5 0)
       = Ok (n, out)
       /\ zlen out = n /\ concat (triples out) = out
       /\ n <= 3 * Z.max 0 (Z.min (zlen Inputs.pentagon) (zlen (replicate 5 0)) - 2)
       /\ Forall (distinct_corners (Z.min (zlen Inputs.pentagon) (zlen (replicate 5 0))) 7)
                 (triples out).
Proof.
  assert (H1 : Z.min (zlen Inputs.pentagon) (zlen (replicate 5 0)) <= 65536)
    by (unfold zlen; simpl; lia).
  assert (H2 : (tri_fuel (zlen Inputs.pentagon) <= 100)%nat)
    by (unfold tri_fuel, zlen; simpl; lia).
  split; [exact H1|]. split; [exact H2|].
  exact (triangulate_distinct_corners true Inputs.pentagon true 7 100 100 (replicate 5 0)
           H1 H2).
Defined.



(** ** Transform: the ring built *)

Section TransformMore.
Context {F : Type} {FO : FloatOps F}.

Lemma nd_lookup (d : list (@ClipVertex F)) (i : nat) (x : ClipVertex) :
  (i < length d)%nat -> nd d (Z.of_nat i) = x -> d !! i = Some x.
Proof.
  intros Hi <-. pose proof (nd_get d (Z.of_nat i)) as H.
  unfold zlen in H. specialize (H ltac:(lia)).
  apply get_Ok in H as [_ H]. rewrite Nat2Z.id in H. exact H.
Qed.

Lemma lookup_nd (d : list (@ClipVertex F)) (i : Z) (x : ClipVertex) :
  0 <= i -> d !! Z.to_nat i = Some x -> nd d i = x.
Proof.
  intros Hi H. unfold nd. rewrite (proj2 (get_Ok d i x)); auto.
Qed.

Lemma mod_succ (i n : Z) :
  0 <= i < n -> (i + 1) mod n = if i =? n - 1 then 0 else i + 1.
Proof.
  intros H. destruct (Z.eqb_spec i (n - 1)) as [->|Hne].
  - replace (n - 1 + 1) with n by lia. apply Z_mod_same_full.
  - apply Z.mod_small. lia.
Qed.

Lemma mod_pred (i n : Z) :
  0 <= i < n -> (i - 1) mod n = if i =? 0 then n - 1 else i - 1.
Proof.
  intros H. destruct (Z.eqb_spec i 0) as [->|Hne].
  - replace (0 - 1) with (n - 1 + (-1) * n) by lia.
    rewrite Z_mod_plus_full. apply Z.mod_small. lia.
  - apply Z.mod_small. lia.
Qed.

Lemma transform_total (vs : list (@Vec F)) (slab : list ClipVertex) :
  zlen vs <= zlen slab ->
  exists r, clipPolyTransformData vs slab = Ok r
    /\ forall i, zlen vs <= i -> nd (data r) i = nd slab i.
Proof.
  intros Hle. unfold clipPolyTransformData. cbv zeta.
  destruct (Z.ltb_spec (zlen slab) (zlen vs)) as [|_]; [lia|].
  set (filled := transform_loop vs 0 (u16 (u16 (zlen vs) - 1))
                 ++ drop (Z.to_nat (zlen vs)) slab).
  assert (Hfl : zlen filled = zlen slab).
  { unfold filled, zlen in *.
    rewrite length_app, transform_loop_length, length_drop. lia. }
  assert (Htail : forall i, zlen vs <= i -> nd filled i = nd slab i).
  { intros i Hi. unfold nd. rewrite !get_lookup by (unfold zlen in Hi; lia).
    unfold filled. rewrite lookup_app_r by (rewrite transform_loop_length; unfold zlen in Hi; lia).
    rewrite transform_loop_length, lookup_drop. unfold zlen in *.
    replace (Z.to_nat (Z.of_nat (length vs)) + (Z.to_nat i - length vs))%nat
      with (Z.to_nat i) by lia.
    reflexivity. }
  destruct (Z.eqb_spec (zlen vs) 0) as [H0|H0].
  - simpl. eexists. split; [reflexivity|]. exact Htail.
  - destruct (modify_total filled (zlen vs - 1) (fun v => set_next v 0)) as [d Hd].
    { unfold zlen in *. lia. }
    rewrite Hd. simpl. eexists. split; [reflexivity|]. simpl.
    intros i Hi. apply modify_spec in Hd as (_ & _ & E). rewrite E.
    destruct (Z.eqb_spec i (zlen vs - 1)); [lia|]. apply Htail. exact Hi.
Qed.

End TransformMore.

(** X9: [clipPolyTransformData] on [n <= 65536] vertices and a slab with room
    for them: the first [n] entries become a circular doubly linked list
    in array order that carries the vertices, with every other field
    zero; the rest of the slab is left as it was. *)
Theorem transform_builds_ring {F : Type} {FO : FloatOps F}
    (vs : list (@Vec F)) (slab : list ClipVertex) :
  zlen vs <= zlen slab -> zlen vs <= 65536 ->
  exists r, clipPolyTransformData vs slab = Ok r
    /\ originalSize r = zlen vs /\ size r = zlen vs /\ capacity r = zlen slab
    /\ length (data r) = length slab
    /\ (forall (i : nat) (x : Vec), vs !! i = Some x ->
          data r !! i
          = Some (mkCV x ((Z.of_nat i + 1) mod zlen vs) ((Z.of_nat i - 1) mod zlen vs)
                       0 0 0 fzero))
    /\ (forall i : nat, (length vs <= i)%nat -> data r !! i = slab !! i).
Proof.
  intros Hle Hsmall. destruct (transform_total vs slab Hle) as (r & Hr & Htail).
  exists r. split; [exact Hr|].
  destruct (transform_spec vs slab r Hr) as (_ & Ho & Hs & Hc & Hl & E).
  repeat (split; [first [assumption | unfold zlen in *; lia]|]).
  split.
  - intros i x Hx. pose proof (lookup_lt_Some _ _ _ Hx) as Hi.
    apply nd_lookup; [unfold zlen in *; lia|].
    rewrite (E (Z.of_nat i) x) by (unfold zlen; rewrite ?Nat2Z.id; auto; lia).
    rewrite mod_succ, mod_pred by (unfold zlen; lia).
    f_equal.
    + destruct (Z.eqb_spec (Z.of_nat i) (zlen vs - 1)); [reflexivity|].
      apply u16_small. unfold zlen in *. lia.
    + destruct (Z.eqb_spec (Z.of_nat i) 0); [apply u16_pred; unfold zlen in *; lia|].
      apply u16_small. unfold zlen in *. lia.
  - intros i Hi. specialize (Htail (Z.of_nat i) ltac:(unfold zlen; lia)).
    destruct (slab !! i) as [x|] eqn:Ex.
    + apply nd_lookup; [apply lookup_lt_Some in Ex; unfold zlen in *; lia|].
      rewrite Htail. apply lookup_nd; [lia|]. rewrite Nat2Z.id. exact Ex.
    + apply lookup_ge_None. apply lookup_ge_None in Ex. unfold zlen in *. lia.
Qed.

Lemma transform_builds_ring_witness :
  zlen Inputs.unitSquare <= zlen (Inputs.slab 16) /\ zlen Inputs.unitSquare <= 65536
  /\ exists r, clipPolyTransformData Inputs.unitSquare (Inputs.slab 16) = Ok r
    /\ originalSize r = zlen Inputs.unitSquare /\ size r = zlen Inputs.unitSquare
    /\ capacity r = zlen (Inputs.slab 16)
    /\ length (data r) = length (Inputs.slab 16)
    /\ (forall (i : nat) (x : Vec), Inputs.unitSquare !! i = Some x ->
          data r !! i
          = Some (mkCV x ((Z.of_nat i + 1) mod zlen Inputs.unitSquare)
                       ((Z.of_nat i - 1) mod zlen Inputs.unitSquare) 0 0 0 fzero))
    /\ (forall i : nat, (length Inputs.unitSquare <= i)%nat ->
          data r !! i = Inputs.slab 16 !! i).
Proof.
  assert (H1 : zlen Inputs.unitSquare <= zlen (Inputs.slab 16))
    by (unfold zlen; simpl; lia).
  assert (H2 : zlen Inputs.unitSquare <= 65536) by (unfold zlen; simpl; lia).
  split; [exact H1|]. split; [exact H2|].
  exact (transform_builds_ring Inputs.unitSquare (Inputs.slab 16) H1 H2).
Defined.

(** X10: the links are 16 bits wide: on more than [65536] vertices the ring
    closes after the first [65536] of them, and the [prev] link of node
    [0] does not lead to the last vertex. *)
Theorem transform_wraps_links {F : Type} {FO : FloatOps F}
    (vs : list (@Vec F)) (slab : list ClipVertex) :
  65536 < zlen vs -> zlen vs <= zlen slab ->
  exists r, clipPolyTransformData vs slab = Ok r
    /\ size r = zlen vs
    /\ next (nd (data r) 65535) = 0
    /\ prev (nd (data r) 0) <> zlen vs - 1.
Proof.
  intros Hbig Hle. destruct (transform_total vs slab Hle) as (r & Hr & _).
  exists r. split; [exact Hr|].
  destruct (transform_spec vs slab r Hr) as (_ & Ho & Hs & Hc & Hl & E).
  split; [exact Hs|].
  assert (Hex : forall i, 0 <= i < zlen vs -> exists x, vs !! Z.to_nat i = Some x).
  { intros i Hi. apply lookup_lt_is_Some_2. unfold zlen in Hi. lia. }
  split.
  - destruct (Hex 65535 ltac:(lia)) as [x Hx]. rewrite (E 65535 x ltac:(lia) Hx). cbn [next].
    destruct (Z.eqb_spec 65535 (zlen vs - 1)); [lia | reflexivity].
  - destruct (Hex 0 ltac:(lia)) as [x Hx]. rewrite (E 0 x ltac:(lia) Hx). cbn [prev]. rewrite Z.eqb_refl.
    pose proof (u16_range (u16 (zlen vs) - 1)). lia.
Qed.

Lemma transform_wraps_links_witness :
  65536 < zlen manyVertices /\ zlen manyVertices <= zlen manySlab
  /\ exists r, clipPolyTransformData manyVertices manySlab = Ok r
    /\ size r = zlen manyVertices
    /\ next (nd (data r) 65535) = 0
    /\ prev (nd (data r) 0) <> zlen manyVertices - 1.
Proof.
  assert (H1 : 65536 < zlen manyVertices) by (vm_compute; reflexivity).
  assert (H2 : zlen manyVertices <= zlen manySlab)
    by (vm_compute; discriminate).
  split; [exact H1|]. split; [exact H2|].
  exact (transform_wraps_links manyVertices manySlab H1 H2).
Defined.

Section InsertMore.
Context {F : Type} {FO : FloatOps F}.

Lemma create_intersection_total (r : @ClipVertices F) (at_ : Z) (p : Vec) (nb : Z) (t : F) :
  ring_ok r -> 0 <= at_ < size r -> size r < zlen (data r) ->
  exists r', clipPolyCreateIntersection r at_ p nb t = Ok r'.
Proof.
  intros R Hat Hroom. pose proof (ro_orig r R). pose proof (ro_size r R).
  destruct (ro_next r R at_ Hat) as [HX _].
  unfold clipPolyCreateIntersection, clipPolyCreateVertex.
  rewrite (nd_get (data r) at_) by lia. cbn [mbind res_bind].
  destruct (modify_total (data r) (size r)
              (fun added => set_flags (set_next (set_prev added (u16 at_))
                                                (next (nd (data r) at_))) 0))
    as [d1 Hd1]; [lia|].
  rewrite Hd1. cbn [mbind res_bind].
  pose proof (modify_spec _ _ _ _ Hd1) as (_ & L1 & _).
  destruct (modify_total d1 at_ (fun r0 => set_next r0 (u16 (size r)))) as [d2 Hd2]; [lia|].
  rewrite Hd2. cbn [mbind res_bind].
  pose proof (modify_spec _ _ _ _ Hd2) as (_ & L2 & _).
  destruct (modify_total d2 (next (nd (data r) at_)) (fun o => set_prev o (u16 (size r))))
    as [d3 Hd3]; [lia|].
  rewrite Hd3. cbn [mbind res_bind data size].
  pose proof (modify_spec _ _ _ _ Hd3) as (_ & L3 & _).
  destruct (modify_total d3 (size r)
              (fun added => set_alpha (set_neighbor
                 (set_flags (set_pos added p) (Z.lor (flags added) CVF_INTERSECT))
                 (u16 nb)) t)) as [d4 Hd4]; [lia|].
  rewrite Hd4. cbn [mbind res_bind]. eauto.
Qed.

Lemma modify_outside {A : Type} (l : list A) (i : Z) (f : A -> A) :
  zlen l <= i -> modify l i f = Fault.
Proof.
  intros Hi. unfold modify, get, zlen in *.
  destruct (Z.ltb_spec i 0); [reflexivity|].
  rewrite (proj2 (lookup_ge_None l (Z.to_nat i))) by lia. reflexivity.
Qed.

Lemma create_intersection_full (r : @ClipVertices F) (at_ : Z) (p : Vec) (nb : Z) (t : F) :
  0 <= at_ < size r -> size r = zlen (data r) ->
  clipPolyCreateIntersection r at_ p nb t = Fault.
Proof.
  intros Hat Hfull.
  unfold clipPolyCreateIntersection, clipPolyCreateVertex.
  rewrite (nd_get (data r) at_) by lia. cbn [mbind res_bind].
  rewrite (modify_outside (data r) (size r)) by lia. reflexivity.
Qed.

End InsertMore.

(** X11: [clipPolyCreateIntersection] on a well-formed ring: with a free slab
    entry it appends node [size] after node [at], between [at] and the old
    successor of [at], flagged [CVF_INTERSECT] and carrying the position,
    neighbour and alpha given, and leaves those fields of every other node
    alone; the ring stays well formed. With no free entry left
    ([size] = slab length) the write goes past the slab: nothing checks
    the capacity in a release build. *)
Theorem create_intersection_room {F : Type} {FO : FloatOps F}
    (r : @ClipVertices F) (at_ : Z) (p : Vec) (nb : Z) (t : F) :
  ring_ok r -> 0 <= at_ < size r ->
  (size r < zlen (data r) ->
   exists r', clipPolyCreateIntersection r at_ p nb t = Ok r'
     /\ ring_ok r' /\ size r' = size r + 1 /\ originalSize r' = originalSize r
     /\ nd (data r') (size r)
        = mkCV p (next (nd (data r) at_)) at_ (nextPoly (nd (data r) (size r)))
               CVF_INTERSECT (u16 nb) t
     /\ next (nd (data r') at_) = size r
     /\ prev (nd (data r') (next (nd (data r) at_))) = size r
     /\ forall v, v <> size r ->
          pos (nd (data r') v) = pos (nd (data r) v)
          /\ flags (nd (data r') v) = flags (nd (data r) v)
          /\ neighbor (nd (data r') v) = neighbor (nd (data r) v)
          /\ alpha (nd (data r') v) = alpha (nd (data r) v)
          /\ (v <> at_ -> next (nd (data r') v) = next (nd (data r) v))
          /\ (v <> next (nd (data r) at_) -> prev (nd (data r') v) = prev (nd (data r) v)))
  /\ (size r = zlen (data r) -> clipPolyCreateIntersection r at_ p nb t = Fault).
Proof.
  intros R Hat. split; [|apply create_intersection_full; exact Hat].
  intros Hroom.
  destruct (create_intersection_total r at_ p nb t R Hat Hroom) as [r' Hr'].
  exists r'. split; [exact Hr'|].
  split; [eapply insert_ring_ok; eassumption|].
  destruct (insert_fields r r' at_ p nb t R Hat Hr') as (Hs & Ho & Hl & Hn & HX & E).
  split; [exact Hs|]. split; [exact Ho|].
  destruct (create_intersection_spec _ _ _ _ _ _ Hr') as (_ & _ & _ & _ & _ & _ & E').
  split.
  { destruct (E (size r)) as (En & Ep & Ef & Epos & Enb & Eal).
    rewrite Z.eqb_refl in *.
    assert (Hnp : nextPoly (nd (data r') (size r)) = nextPoly (nd (data r) (size r))).
    { rewrite E'. unfold node_after_insert. rewrite Z.eqb_refl.
      destruct (size r =? at_), (size r =? next (nd (data r) at_)); reflexivity. }
    destruct (nd (data r') (size r)); simpl in *. congruence. }
  split.
  { destruct (E at_) as (-> & _). destruct (Z.eqb_spec at_ (size r)); [lia|].
    rewrite Z.eqb_refl. reflexivity. }
  split.
  { destruct (E (next (nd (data r) at_))) as (_ & -> & _).
    destruct (Z.eqb_spec (next (nd (data r) at_)) (size r)); [lia|].
    rewrite Z.eqb_refl. reflexivity. }
  intros v Hv. destruct (E v) as (En & Ep & Ef & Epos & Enb & Eal).
  destruct (Z.eqb_spec v (size r)); [lia|].
  repeat (split; [assumption|]). split.
  - intros Hne. rewrite En. destruct (Z.eqb_spec v at_); [lia | reflexivity].
  - intros Hne. rewrite Ep.
    destruct (Z.eqb_spec v (next (nd (data r) at_))); [lia | reflexivity].
Qed.

Lemma create_intersection_room_witness :
  ring_ok Inputs.squareRingA /\ 0 <= 1 < size Inputs.squareRingA
  /\ (size Inputs.squareRingA < zlen (data Inputs.squareRingA) ->
      exists r', clipPolyCreateIntersection Inputs.squareRingA 1 (Inputs.V32 1 2) 7 half32
                 = Ok r'
        /\ ring_ok r' /\ size r' = size Inputs.squareRingA + 1
        /\ originalSize r' = originalSize Inputs.squareRingA
        /\ nd (data r') (size Inputs.squareRingA)
           = mkCV (Inputs.V32 1 2) (next (nd (data Inputs.squareRingA) 1)) 1
                  (nextPoly (nd (data Inputs.squareRingA) (size Inputs.squareRingA)))
                  CVF_INTERSECT (u16 7) half32
        /\ next (nd (data r') 1) = size Inputs.squareRingA
        /\ prev (nd (data r') (next (nd (data Inputs.squareRingA) 1)))
           = size Inputs.squareRingA
        /\ forall v, v <> size Inputs.squareRingA ->
             pos (nd (data r') v) = pos (nd (data Inputs.squareRingA) v)
             /\ flags (nd (data r') v) = flags (nd (data Inputs.squareRingA) v)
             /\ neighbor (nd (data r') v) = neighbor (nd (data Inputs.squareRingA) v)
             /\ alpha (nd (data r') v) = alpha (nd (data Inputs.squareRingA) v)
             /\ (v <> 1 -> next (nd (data r') v) = next (nd (data Inputs.squareRingA) v))
             /\ (v <> next (nd (data Inputs.squareRingA) 1) ->
                 prev (nd (data r') v) = prev (nd (data Inputs.squareRingA) v)))
  /\ (size Inputs.squareRingA = zlen (data Inputs.squareRingA) ->
      clipPolyCreateIntersection Inputs.squareRingA 1 (Inputs.V32 1 2) 7 half32
      = Fault).
Proof.
  assert (Hcap : zlen (Inputs.slab 16) <= 65536) by (unfold zlen; simpl; lia).
  assert (Hrun : clipPolyTransformData Inputs.unitSquare (Inputs.slab 16)
                 = Ok Inputs.squareRingA) by (vm_compute; reflexivity).
  assert (R : ring_ok Inputs.squareRingA)
    by exact (transform_ring_ok Inputs.unitSquare (Inputs.slab 16) Inputs.squareRingA
                Hcap Hrun).
  assert (Hat : 0 <= 1 < size Inputs.squareRingA) by (simpl; lia).
  split; [exact R|]. split; [exact Hat|].
  exact (create_intersection_room Inputs.squareRingA 1 (Inputs.V32 1 2) 7 half32
           R Hat).
Defined.

Section FindMore.
Context {F : Type} {FO : FloatOps F}.

Lemma fi_run_no_pairs (wfuel : nat) (a b : @ClipVertices F) (fuel : nat) (s : FIState) :
  originalSize b <= 0 -> fi_a s = a -> fi_b s = b -> 0 <= fi_j s ->
  (Z.to_nat (originalSize a - fi_i s) < fuel)%nat ->
  fi_run wfuel fuel s = Ok (a, b).
Proof.
  intros Hb. revert s. induction fuel as [|fuel IH]; intros s Ha Hb' Hj Hfuel; [lia|].
  simpl. unfold fi_step. rewrite Ha, Hb'.
  destruct (Z.ltb_spec (fi_i s) (originalSize a)); simpl; [|reflexivity].
  destruct (Z.ltb_spec (fi_j s) (originalSize b)); [lia|]. simpl.
  apply IH; simpl; auto; lia.
Qed.

Lemma fi_trans_grown (nA nB lA lB cA cB : Z) (wfuel : nat) (s : @FIState F) (st : FIStep) :
  fi_ok s /\ fi_grown nA nB lA lB cA cB s -> fi_trans wfuel s st ->
  match st with
  | Retry s' | Advance s' => fi_ok s' /\ fi_grown nA nB lA lB cA cB s'
  | Done _ _ => True
  end.
Proof.
  intros (O & G) T. pose proof (fi_trans_ok wfuel s st O T) as O'.
  destruct G as (GoA & GoB & GlA & GlB & GcA & GcB & Gs).
  destruct O as [Ra Rb Hi0 Hj0 Hap Hbp].
  inversion T as [Hi | Hi Hj | Hi Hj | idx dir d Hi Hj Hidx Hd | idx dir d Hi Hj Hidx Hd
                 | aV bV ta tb p ia ib a' b' Hi Hj HaV HbV Hta Htb Hia Hib Ha' Hb'];
    subst st; try exact I; (split; [exact O'|]); unfold fi_grown; simpl.
  - auto 10.
  - auto 10.
  - destruct (perturb_fields _ _ _ _ Hd) as [Hl _]. repeat split; try assumption; lia.
  - destruct (perturb_fields _ _ _ _ Hd) as [Hl _]. repeat split; try assumption; lia.
  - destruct (fi_start_in_range (fi_a s) (fi_i s) aV Ra ltac:(lia) HaV) as (Hpa & _).
    destruct (fi_start_in_range (fi_b s) (fi_j s) bV Rb ltac:(lia) HbV) as (Hpb & _).
    destruct (find_index_spec _ _ _ _ _ Ra Hpa Hia) as (Ria & _).
    destruct (find_index_spec _ _ _ _ _ Rb Hpb Hib) as (Rib & _).
    destruct (create_intersection_spec _ _ _ _ _ _ Ha') as (_ & _ & Hsa & Hoa & Hca & Hla & _).
    destruct (create_intersection_spec _ _ _ _ _ _ Hb') as (_ & _ & Hsb & Hob & Hcb & Hlb & _).
    repeat split; lia.
Qed.

Lemma fi_trans_cyclic (wfuel : nat) (s : @FIState F) (st : FIStep) :
  fi_ok s /\ ring_ord (fi_a s) /\ ring_ord (fi_b s) -> fi_trans wfuel s st ->
  match st with
  | Retry s' | Advance s' => fi_ok s' /\ ring_ord (fi_a s') /\ ring_ord (fi_b s')
  | Done _ _ => True
  end.
Proof.
  intros (O & Oa & Ob) T. pose proof (fi_trans_ok wfuel s st O T) as O'.
  destruct O as [Ra Rb Hi0 Hj0 Hap Hbp].
  inversion T as [Hi | Hi Hj | Hi Hj | idx dir d Hi Hj Hidx Hd | idx dir d Hi Hj Hidx Hd
                 | aV bV ta tb p ia ib a' b' Hi Hj HaV HbV Hta Htb Hia Hib Ha' Hb'];
    subst st; try exact I; (split; [exact O'|]); simpl.
  - auto.
  - auto.
  - split; [eapply perturb_ring_ord; eassumption | assumption].
  - split; [assumption | eapply perturb_ring_ord; eassumption].
  - destruct (fi_start_in_range (fi_a s) (fi_i s) aV Ra ltac:(lia) HaV) as (Hpa & _).
    destruct (fi_start_in_range (fi_b s) (fi_j s) bV Rb ltac:(lia) HbV) as (Hpb & _).
    destruct (find_index_spec _ _ _ _ _ Ra Hpa Hia) as (Ria & _).
    destruct (find_index_spec _ _ _ _ _ Rb Hpb Hib) as (Rib & _).
    split.
    + apply (insert_ring_ord (fi_a s) a' ia p (size (fi_b s)) ta); assumption.
    + apply (insert_ring_ord (fi_b s) b' ib p (size (fi_a s)) tb); assumption.
Qed.

Lemma insert_flags_fresh (r r' : @ClipVertices F) (at_ : Z) (p : Vec) (nb : Z) (t : F) :
  ring_ok r -> flags_fresh r -> 0 <= at_ < size r ->
  clipPolyCreateIntersection r at_ p nb t = Ok r' -> flags_fresh r'.
Proof.
  intros R Fr Hat H.
  destruct (insert_fields r r' at_ p nb t R Hat H) as (Hs & Ho & _ & _ & _ & E).
  pose proof (ro_orig r R).
  intros v Hv. destruct (E v) as (_ & _ & -> & _). rewrite Ho.
  destruct (Z.eqb_spec v (size r)) as [->|Hne].
  - destruct (Z.leb_spec (originalSize r) (size r)); [reflexivity | lia].
  - apply Fr. lia.
Qed.

Lemma perturb_flags_fresh (r : @ClipVertices F) (d : list ClipVertex) (idx : Z) (dir : Vec) :
  flags_fresh r -> modify (data r) idx (perturb dir) = Ok d -> flags_fresh (set_data r d).
Proof.
  intros Fr (_ & E)%perturb_fields v Hv. simpl in *.
  destruct (E v) as (_ & _ & -> & _). apply Fr. exact Hv.
Qed.

Lemma fi_trans_fresh (wfuel : nat) (s : @FIState F) (st : FIStep) :
  fi_ok s /\ fi_fresh s -> fi_trans wfuel s st ->
  match st with
  | Retry s' | Advance s' => fi_ok s' /\ fi_fresh s'
  | Done _ _ => True
  end.
Proof.
  intros (O & Fa & Fb & Hsz) T. pose proof (fi_trans_ok wfuel s st O T) as O'.
  destruct O as [Ra Rb Hi0 Hj0 Hap Hbp].
  inversion T as [Hi | Hi Hj | Hi Hj | idx dir d Hi Hj Hidx Hd | idx dir d Hi Hj Hidx Hd
                 | aV bV ta tb p ia ib a' b' Hi Hj HaV HbV Hta Htb Hia Hib Ha' Hb'];
    subst st; try exact I; (split; [exact O'|]); unfold fi_fresh; simpl.
  - auto.
  - auto.
  - split; [eapply perturb_flags_fresh; eassumption|]. auto.
  - split; [assumption|]. split; [eapply perturb_flags_fresh; eassumption|]. auto.
  - destruct (fi_start_in_range (fi_a s) (fi_i s) aV Ra ltac:(lia) HaV) as (Hpa & _).
    destruct (fi_start_in_range (fi_b s) (fi_j s) bV Rb ltac:(lia) HbV) as (Hpb & _).
    destruct (find_index_spec _ _ _ _ _ Ra Hpa Hia) as (Ria & _).
    destruct (find_index_spec _ _ _ _ _ Rb Hpb Hib) as (Rib & _).
    destruct (create_intersection_spec _ _ _ _ _ _ Ha') as (_ & _ & _ & Hoa & _).
    destruct (create_intersection_spec _ _ _ _ _ _ Hb') as (_ & _ & _ & Hob & _).
    split; [apply (insert_flags_fresh (fi_a s) a' ia p (size (fi_b s)) ta); assumption|].
    split; [apply (insert_flags_fresh (fi_b s) b' ib p (size (fi_a s)) tb); assumption|].
    right. lia.
Qed.

Lemma transform_flags_fresh (vs : list (@Vec F)) (slab : list ClipVertex) (r : ClipVertices) :
  clipPolyTransformData vs slab = Ok r -> flags_fresh r.
Proof.
  intros H. destruct (transform_spec vs slab r H) as (_ & Ho & Hs & _ & _ & E).
  intros v Hv. rewrite Hs in Hv.
  destruct (lookup_lt_is_Some_2 vs (Z.to_nat v)) as [x Hx]; [unfold zlen in Hv; lia|].
  rewrite (E v x Hv Hx), Ho. cbn [flags].
  destruct (Z.leb_spec (zlen vs) v); [lia | reflexivity].
Qed.

(** The rings [clipPolyFindIntersections] returns. *)
Lemma find_rings_found (fuel : nat)
    (verticesA verticesB : list (@Vec F)) (slabA slabB : list ClipVertex)
    (a0 b0 a b : ClipVertices) :
  clipPolyTransformData verticesA slabA = Ok a0 ->
  clipPolyTransformData verticesB slabB = Ok b0 ->
  zlen slabA <= 65536 -> zlen slabB <= 65536 ->
  clipPolyFindIntersections fuel a0 b0 = Ok (a, b) ->
  ring_found (zlen verticesA) (zlen slabA) a /\ ring_found (zlen verticesB) (zlen slabB) b
  /\ size a - originalSize a = size b - originalSize b.
Proof.
  intros Ha0 Hb0 Hca Hcb Hrun.
  pose proof (transform_ring_ok _ _ _ Hca Ha0) as Ra0.
  pose proof (transform_ring_ok _ _ _ Hcb Hb0) as Rb0.
  destruct (transform_spec _ _ _ Ha0) as (_ & Hoa & Hsa & Hka & Hla & _).
  destruct (transform_spec _ _ _ Hb0) as (_ & Hob & Hsb & Hkb & Hlb & _).
  set (G := @fi_grown F (zlen verticesA) (zlen verticesB) (zlen slabA)
                     (zlen slabB) (zlen slabA) (zlen slabB)).
  set (P := fun s : @FIState F =>
              (fi_ok s /\ G s) /\ (fi_ok s /\ ring_ord (fi_a s) /\ ring_ord (fi_b s))
              /\ (fi_ok s /\ fi_fresh s)).
  assert (P0 : P (fi_init a0 b0)).
  { pose proof (fi_init_ok a0 b0 Ra0 Rb0) as O0.
    split; [split; [exact O0|] | split; split; [exact O0| |exact O0|]].
    - unfold G, fi_grown. simpl. repeat split; try assumption; lia.
    - simpl. split; [exact (transform_ring_ord _ _ _ Hca Ha0)
                    | exact (transform_ring_ord _ _ _ Hcb Hb0)].
    - split; [exact (transform_flags_fresh _ _ _ Ha0)|].
      split; [exact (transform_flags_fresh _ _ _ Hb0)|]. simpl. left. lia. }
  assert (Pstep : forall s st, P s -> fi_trans fuel s st ->
            match st with
            | Retry s' | Advance s' => P s'
            | Done _ _ => True
            end).
  { intros s st (HG & HC & HF) T.
    pose proof (fi_trans_grown _ _ _ _ _ _ fuel s st HG T) as HG'.
    pose proof (fi_trans_cyclic fuel s st HC T) as HC'.
    pose proof (fi_trans_fresh fuel s st HF T) as HF'.
    destruct st; try exact I; (split; [exact HG' | split; [exact HC' | exact HF']]). }
  destruct (fi_run_inv P fuel Pstep fuel _ a b P0 Hrun)
    as (s & ((O & Gs) & (_ & Oa & Ob) & (_ & Fa & Fb & Hsz)) & -> & ->).
  destruct O as [Ra Rb _ _ _ _].
  destruct Gs as (GoA & GoB & GlA & GlB & GcA & GcB & Gsz).
  unfold ring_found. rewrite GoA, GoB in *.
  split; [|split]; [repeat (split; [assumption|]); lia..|lia].
Qed.

End FindMore.

(** X12: with an empty ring on either side there is no pair of edges:
    [clipPolyFindIntersections] returns both rings as they are and reads
    no slab entry. *)
Theorem find_intersections_empty_ring {F : Type} {FO : FloatOps F} (fuel : nat)
    (a b : @ClipVertices F) :
  originalSize a = 0 \/ originalSize b = 0 ->
  (Z.to_nat (originalSize a) < fuel)%nat ->
  clipPolyFindIntersections fuel a b = Ok (a, b).
Proof.
  intros [Ha|Hb] Hfuel; unfold clipPolyFindIntersections.
  - destruct fuel as [|fuel]; [lia|]. simpl. unfold fi_step. simpl.
    rewrite Ha. reflexivity.
  - apply fi_run_no_pairs; simpl; auto; lia.
Qed.

Lemma find_intersections_empty_ring_witness :
  (originalSize noRing = 0 \/ originalSize Inputs.squareRingB = 0)
  /\ (Z.to_nat (originalSize noRing) < 1)%nat
  /\ clipPolyFindIntersections 1 noRing Inputs.squareRingB = Ok (noRing, Inputs.squareRingB).
Proof.
  assert (H1 : originalSize noRing = 0 \/ originalSize Inputs.squareRingB = 0)
    by (left; reflexivity).
  assert (H2 : (Z.to_nat (originalSize noRing) < 1)%nat) by (simpl; lia).
  split; [exact H1|]. split; [exact H2|].
  exact (find_intersections_empty_ring 1 noRing Inputs.squareRingB H1 H2).
Defined.

(** X13: [clipPolyFindIntersections] keeps both rings well formed: what it
    returns on two rings made by [clipPolyTransformData] (slabs of at most
    [65536] entries) are circular doubly linked lists again
    ([ring_ok]: [next] and [prev] inverse to each other on the populated
    prefix, the nodes flagged [CVF_INTERSECT] exactly those appended
    after the original vertices), each a single cycle through node [0]
    ([ring_ord]), with the original counts, capacities and slabs of the
    same length, and both rings have gained the same number of nodes. *)
Theorem find_intersections_keeps_rings {F : Type} {FO : FloatOps F} (fuel : nat)
    (verticesA verticesB : list Vec) (slabA slabB : list ClipVertex)
    (a0 b0 a b : ClipVertices) :
  clipPolyTransformData verticesA slabA = Ok a0 ->
  clipPolyTransformData verticesB slabB = Ok b0 ->
  zlen slabA <= 65536 -> zlen slabB <= 65536 ->
  clipPolyFindIntersections fuel a0 b0 = Ok (a, b) ->
  (ring_ok a /\ ring_ord a /\ flags_fresh a)
  /\ (ring_ok b /\ ring_ord b /\ flags_fresh b)
  /\ originalSize a = zlen verticesA /\ originalSize b = zlen verticesB
  /\ capacity a = zlen slabA /\ capacity b = zlen slabB
  /\ zlen (data a) = zlen slabA /\ zlen (data b) = zlen slabB
  /\ size a - originalSize a = size b - originalSize b.
Proof.
  intros Ha0 Hb0 Hca Hcb Hrun.
  destruct (find_rings_found fuel _ _ _ _ _ _ _ _ Ha0 Hb0 Hca Hcb Hrun)
    as ((Ra & Oa & Fa & Hoa & Hka & Hla & _) & (Rb & Ob & Fb & Hob & Hkb & Hlb & _) & Hsz).
  auto 20.
Qed.

Lemma find_intersections_keeps_rings_witness :
  (ring_ok Inputs.squareRings.1 /\ ring_ord Inputs.squareRings.1
   /\ flags_fresh Inputs.squareRings.1)
  /\ (ring_ok Inputs.squareRings.2 /\ ring_ord Inputs.squareRings.2
      /\ flags_fresh Inputs.squareRings.2)
  /\ originalSize Inputs.squareRings.1 = zlen Inputs.unitSquare
  /\ originalSize Inputs.squareRings.2 = zlen Inputs.shiftedSquare
  /\ capacity Inputs.squareRings.1 = zlen (Inputs.slab 16)
  /\ capacity Inputs.squareRings.2 = zlen (Inputs.slab 16)
  /\ zlen (data Inputs.squareRings.1) = zlen (Inputs.slab 16)
  /\ zlen (data Inputs.squareRings.2) = zlen (Inputs.slab 16)
  /\ size Inputs.squareRings.1 - originalSize Inputs.squareRings.1
     = size Inputs.squareRings.2 - originalSize Inputs.squareRings.2.
Proof.
  assert (Hcap : zlen (Inputs.slab 16) <= 65536) by (unfold zlen; simpl; lia).
  assert (Ha : clipPolyTransformData Inputs.unitSquare (Inputs.slab 16)
               = Ok Inputs.squareRingA) by (vm_compute; reflexivity).
  assert (Hb : clipPolyTransformData Inputs.shiftedSquare (Inputs.slab 16)
               = Ok Inputs.squareRingB) by (vm_compute; reflexivity).
  assert (Hrun : clipPolyFindIntersections 100 Inputs.squareRingA Inputs.squareRingB
                 = Ok (Inputs.squareRings.1, Inputs.squareRings.2))
    by (vm_compute; reflexivity).
  exact (find_intersections_keeps_rings 100 Inputs.unitSquare Inputs.shiftedSquare
           (Inputs.slab 16) (Inputs.slab 16) Inputs.squareRingA Inputs.squareRingB
           Inputs.squareRings.1 Inputs.squareRings.2 Ha Hb Hcap Hcap Hrun).
Defined.

Lemma div_zero_out_of_range (n : spec_float) (sg : bool) :
  SFleb (S754_zero false) (SFdiv 24 128 n (S754_zero sg))
  && SFleb (SFdiv 24 128 n (S754_zero sg)) (b32_of_Z 1) = false.
Proof. destruct n as [s|s| |s m e]; destruct sg; try destruct s; reflexivity. Qed.

Lemma zero_not_epsilon (sg : bool) :
  SFltb (S754_zero sg) (@f_1em6 spec_float binary32) = true.
Proof. destruct sg; vm_compute; reflexivity. Qed.

(** X14: in single precision two edges whose directions have a cross product
    of exactly zero are never taken for a crossing: the division by zero
    gives an infinity or a NaN, which fails the range test on [aAlpha],
    and the pass moves on to the next pair with both rings untouched. *)
Theorem parallel_edges_skipped (wfuel : nat) (s : @FIState spec_float)
    (aV aP bV bP : ClipVertex) (sg : bool) :
  get (data (fi_a s)) (fi_i s) = Ok aV ->
  get (data (fi_a s)) (aPrevIndex s) = Ok aP ->
  get (data (fi_b s)) (fi_j s) = Ok bV ->
  get (data (fi_b s)) (bPrevIndex s) = Ok bP ->
  let aDir := mkVec (vx (pos aV) - vx (pos aP))%F (vy (pos aV) - vy (pos aP))%F in
  let bDir := mkVec (vx (pos bV) - vx (pos bP))%F (vy (pos bV) - vy (pos bP))%F in
  (vx aDir * vy bDir - vy aDir * vx bDir)%F = S754_zero sg ->
  fi_body wfuel s = Ok (fi_next_pair s (fi_a s) (fi_b s)).
Proof.
  intros HaV HaP HbV HbP aDir bDir Hcross.
  unfold fi_body. rewrite HaV, HaP, HbV, HbP. cbn [mbind res_bind].
  fold aDir bDir.
  unfold clipPolyLineIntersectionFactor at 1. cbv zeta. rewrite Hcross.
  change (@fltb spec_float binary32) with SFltb.
  rewrite zero_not_epsilon. cbn [orb].
  destruct (clipPolyLineIntersectionFactor (pos bP) bDir (pos aP) aDir) as [tb|];
    [|reflexivity].
  change (@fdiv spec_float binary32) with (SFdiv 24 128).
  change (@fleb spec_float binary32) with SFleb.
  change (@fzero spec_float binary32) with (S754_zero false).
  change (@fone spec_float binary32) with (b32_of_Z 1).
  rewrite div_zero_out_of_range. reflexivity.
Qed.

Lemma parallel_edges_skipped_witness :
  fi_body 10 (fi_init Inputs.squareRingA Inputs.squareRingB)
  = Ok (fi_next_pair (fi_init Inputs.squareRingA Inputs.squareRingB)
          Inputs.squareRingA Inputs.squareRingB).
Proof.
  refine (parallel_edges_skipped 10 (fi_init Inputs.squareRingA Inputs.squareRingB)
            (nd (data Inputs.squareRingA) 0) (nd (data Inputs.squareRingA) 3)
            (nd (data Inputs.squareRingB) 0) (nd (data Inputs.squareRingB) 3)
            false _ _ _ _ _).
  - vm_compute; reflexivity.
  - vm_compute; reflexivity.
  - vm_compute; reflexivity.
  - vm_compute; reflexivity.
  - vm_compute; reflexivity.
Defined.

(** ** Marking: what it changes *)

Lemma range_inj_surj (n : Z) (f : Z -> Z) :
  (forall v, 0 <= v < n -> 0 <= f v < n) ->
  (forall u v, 0 <= u < n -> 0 <= v < n -> f u = f v -> u = v) ->
  forall k, 0 <= k < n -> exists v, 0 <= v < n /\ f v = k.
Proof.
  intros Hr Hi k Hk.
  assert (Hnd : NoDup (f <$> seqZ 0 n)).
  { apply NoDup_fmap_2_strong; [|apply NoDup_seqZ].
    intros x y Hx%elem_of_seqZ Hy%elem_of_seqZ. apply Hi; lia. }
  assert (Hsub : f <$> seqZ 0 n ⊆+ seqZ 0 n).
  { apply NoDup_submseteq; [exact Hnd|].
    intros x (y & -> & Hy%elem_of_seqZ)%list_elem_of_fmap.
    apply elem_of_seqZ. specialize (Hr y ltac:(lia)). lia. }
  apply submseteq_length_Permutation in Hsub;
    [|rewrite length_fmap; reflexivity].
  assert (Hin : k ∈ f <$> seqZ 0 n).
  { rewrite Hsub. apply elem_of_seqZ. lia. }
  apply list_elem_of_fmap in Hin as (v & -> & Hv%elem_of_seqZ).
  exists v. split; [lia | reflexivity].
Qed.

Section CycleFacts.
Context {F : Type} {FO : FloatOps F}.
Variable r : @ClipVertices F.
Hypothesis R : ring_ok r.
Variable ord : Z -> Z.
Hypothesis Hrange : forall v, 0 <= v < size r -> 0 <= ord v < size r.
Hypothesis Hprev : forall v, 0 < v < size r -> ord (prev (nd (data r) v)) = ord v - 1.
Hypothesis Hinj : forall u v, 0 <= u < size r -> 0 <= v < size r -> ord u = ord v -> u = v.

Lemma ord_next (v : Z) :
  0 <= v < size r -> next (nd (data r) v) <> 0 ->
  ord (next (nd (data r) v)) = ord v + 1.
Proof.
  intros Hv Hne. destruct (ro_next r R v Hv) as [Hw Hp].
  assert (HH : 0 < next (nd (data r) v) < size r) by lia.
  pose proof (Hprev _ HH) as H. rewrite Hp in H. lia.
Qed.

Lemma ord_zero : 1 <= size r -> ord 0 = 0.
Proof.
  intros Hs. assert (H0 : 0 <= 0 < size r) by lia.
  destruct (range_inj_surj (size r) ord Hrange Hinj 0 H0) as (v & Hv & E).
  destruct (Z.eq_dec v 0) as [->|Hne]; [exact E|].
  assert (HH : 0 < v < size r) by lia.
  pose proof (Hprev v HH) as H.
  destruct (ro_prev r R v Hv) as [Hp _]. specialize (Hrange _ Hp). lia.
Qed.

Lemma ord_last (v : Z) :
  0 <= v < size r -> next (nd (data r) v) = 0 -> ord v = size r - 1.
Proof.
  intros Hv Hn. pose proof (Hrange v Hv) as Hov.
  destruct (Z.eq_dec (ord v) (size r - 1)) as [|Hne]; [assumption|].
  assert (HH : 0 <= ord v + 1 < size r) by lia.
  destruct (range_inj_surj (size r) ord Hrange Hinj (ord v + 1) HH) as (u & Hu & E).
  assert (H1 : 1 <= size r) by lia.
  pose proof (ord_zero H1) as H0.
  assert (Hu0 : 0 < u < size r).
  { destruct (Z.eq_dec u 0) as [->|]; lia. }
  pose proof (Hprev u Hu0) as H.
  destruct (ro_prev r R u Hu) as [Hp Hnp].
  assert (prev (nd (data r) u) = v) as Hpv by (apply Hinj; [exact Hp | exact Hv | lia]).
  rewrite Hpv in Hnp. lia.
Qed.

End CycleFacts.

Section MarkProofs.
Context {F : Type} {FO : FloatOps F}.

Lemma has_flag_set_exit (v : @ClipVertex F) :
  has_flag (set_flags v (Z.lor (flags v) CVF_EXIT)) CVF_INTERSECT
  = has_flag v CVF_INTERSECT
  /\ has_flag (set_flags v (Z.lor (flags v) CVF_EXIT)) CVF_EXIT = true.
Proof.
  unfold has_flag. cbn [set_flags flags]. rewrite !Z.land_lor_distr_l.
  change (Z.land CVF_EXIT CVF_INTERSECT) with 0. rewrite Z.lor_0_r.
  split; [reflexivity|].
  change (Z.land CVF_EXIT CVF_EXIT) with 2.
  destruct (Z.eqb_spec (Z.lor (Z.land (flags v) CVF_EXIT) 2) 0) as [H|]; [|reflexivity].
  apply Z.lor_eq_0_iff in H. lia.
Qed.

Lemma marked_node_refl (v : @ClipVertex F) : marked_node v v.
Proof. left. reflexivity. Qed.

Lemma marked_node_trans (u v w : @ClipVertex F) :
  marked_node u v -> marked_node v w -> marked_node u w.
Proof.
  intros [->|[Hu ->]] [->|[Hv ->]].
  - left. reflexivity.
  - right. auto.
  - right. auto.
  - right. split; [exact Hu|]. unfold set_flags. cbn [flags pos next prev nextPoly neighbor alpha].
    rewrite <- Z.lor_assoc, Z.lor_diag. reflexivity.
Qed.

Lemma marked_node_fields (v w : @ClipVertex F) :
  marked_node v w ->
  pos w = pos v /\ next w = next v /\ prev w = prev v /\ nextPoly w = nextPoly v
  /\ neighbor w = neighbor v /\ alpha w = alpha v
  /\ has_flag w CVF_INTERSECT = has_flag v CVF_INTERSECT.
Proof.
  intros [->|[_ ->]]; [auto 10|].
  destruct (has_flag_set_exit v) as [-> _]. auto 10.
Qed.

Lemma marked_data_refl (d : list (@ClipVertex F)) : marked_data d d.
Proof. split; [reflexivity | intros v; apply marked_node_refl]. Qed.

Lemma marked_data_trans (d1 d2 d3 : list (@ClipVertex F)) :
  marked_data d1 d2 -> marked_data d2 d3 -> marked_data d1 d3.
Proof.
  intros [L1 M1] [L2 M2]. split; [congruence|].
  intros v. eapply marked_node_trans; eauto.
Qed.

(** One pass of the marking loop at node [i]. *)
Lemma mark_put (d d' : list (@ClipVertex F)) (i : Z) (entry : ClipVertex) (inside : bool) :
  get d i = Ok entry ->
  (if has_flag entry CVF_INTERSECT && inside
   then put d i (set_flags entry (Z.lor (flags entry) CVF_EXIT))
   else Ok d) = Ok d' ->
  zlen d' = zlen d
  /\ forall v, nd d' v
       = if (v =? i) && (has_flag entry CVF_INTERSECT && inside)
         then set_flags (nd d v) (Z.lor (flags (nd d v)) CVF_EXIT)
         else nd d v.
Proof.
  intros Hg H. destruct (has_flag entry CVF_INTERSECT && inside) eqn:E.
  - assert (Hm : modify d i (fun e => set_flags e (Z.lor (flags e) CVF_EXIT)) = Ok d').
    { unfold modify. rewrite Hg. exact H. }
    apply modify_spec in Hm as (_ & Hl & Hn). split; [exact Hl|].
    intros v. rewrite Hn. rewrite andb_true_r. reflexivity.
  - injection H as <-. split; [reflexivity|].
    intros v. rewrite andb_false_r. reflexivity.
Qed.

Lemma mark_put_marked (d d' : list (@ClipVertex F)) (i : Z) (entry : ClipVertex)
    (inside : bool) :
  get d i = Ok entry ->
  (if has_flag entry CVF_INTERSECT && inside
   then put d i (set_flags entry (Z.lor (flags entry) CVF_EXIT))
   else Ok d) = Ok d' ->
  marked_data d d'.
Proof.
  intros Hg H. destruct (mark_put d d' i entry inside Hg H) as [Hl Hn].
  split; [exact Hl|]. intros v. rewrite Hn.
  apply get_nd in Hg as [<- _].
  destruct (Z.eqb_spec v i) as [->|]; simpl; [|left; reflexivity].
  destruct (has_flag (nd d i) CVF_INTERSECT) eqn:E; simpl; [|left; reflexivity].
  destruct inside; [right; auto | left; reflexivity].
Qed.

Lemma mark_loop_frame (fuel : nat) (d d' : list (@ClipVertex F)) (i : Z) (inside : bool) :
  mark_loop fuel d i inside = Ok d' -> marked_data d d'.
Proof.
  revert d i inside. induction fuel as [|fuel IH]; intros d i inside; [discriminate|].
  simpl. intros (entry & Hg & H)%bind_Ok.
  apply bind_Ok in H as (d1 & Hd1 & H).
  pose proof (mark_put_marked d d1 i entry inside Hg Hd1) as M1.
  destruct (next entry =? 0).
  - injection H as <-. exact M1.
  - eapply marked_data_trans; [exact M1 | eapply IH; exact H].
Qed.

Lemma mark_single_frame (fuel : nat) (current other r' : @ClipVertices F)
    (dir : ClipFollowDirection) :
  clipPolyMarkEntryExitPointsSingle fuel current other dir = Ok r' ->
  ring_marked current r'.
Proof.
  unfold clipPolyMarkEntryExitPointsSingle, ring_marked.
  destruct (0 <? size current).
  - intros (first & _ & H)%bind_Ok. apply bind_Ok in H as (inside & _ & H).
    apply bind_Ok in H as (d & Hd & H). injection H as <-. simpl.
    repeat (split; [reflexivity|]). eapply mark_loop_frame; exact Hd.
  - intros [= <-]. repeat (split; [reflexivity|]). apply marked_data_refl.
Qed.

End MarkProofs.

(** X17: marking changes nothing but flags, and of the flags only
    [CVF_EXIT] of nodes that carry [CVF_INTERSECT]: counts, capacity,
    slab length, positions, links, neighbours and alphas are as before,
    on every input. *)
Theorem mark_changes_exit_only {F : Type} {FO : FloatOps F} (fuel : nat)
    (a b a' b' : @ClipVertices F) (aDir bDir : ClipFollowDirection) :
  clipPolyMarkEntryExitPoints fuel a b aDir bDir = Ok (a', b') ->
  ring_marked a a' /\ ring_marked b b'.
Proof.
  unfold clipPolyMarkEntryExitPoints.
  intros (a1 & Ha & H)%bind_Ok. apply bind_Ok in H as (b1 & Hb & H).
  injection H as <- <-.
  split; eapply mark_single_frame; eassumption.
Qed.

Lemma mark_changes_exit_only_witness :
  clipPolyMarkEntryExitPoints 100 Inputs.squareRings.1 Inputs.squareRings.2
    CFD_FORWARD CFD_FORWARD = Ok (markedSquares.1, markedSquares.2)
  /\ ring_marked Inputs.squareRings.1 markedSquares.1
  /\ ring_marked Inputs.squareRings.2 markedSquares.2.
Proof.
  assert (H : clipPolyMarkEntryExitPoints 100 Inputs.squareRings.1 Inputs.squareRings.2
                CFD_FORWARD CFD_FORWARD = Ok (markedSquares.1, markedSquares.2))
    by (vm_compute; reflexivity).
  split; [exact H|].
  exact (mark_changes_exit_only 100 Inputs.squareRings.1 Inputs.squareRings.2
           markedSquares.1 markedSquares.2 CFD_FORWARD CFD_FORWARD H).
Defined.

Section MarkTotal.
Context {F : Type} {FO : FloatOps F}.

Lemma get_nd_or_fault (d : list (@ClipVertex F)) (i : Z) :
  get d i = if (0 <=? i) && (i <? zlen d) then Ok (nd d i) else Fault.
Proof.
  destruct (Z.leb_spec 0 i); simpl.
  - destruct (Z.ltb_spec i (zlen d)).
    + apply nd_get. lia.
    + rewrite get_lookup by lia.
      rewrite (proj2 (lookup_ge_None d (Z.to_nat i))); [reflexivity|].
      unfold zlen in *. lia.
  - unfold get. destruct (Z.ltb_spec i 0); [reflexivity | lia].
Qed.

Lemma pip_loop_total_on (d : list (@ClipVertex F)) (p : Vec) (n : nat)
    (i prevIndex cn : Z) :
  0 <= i -> i + Z.of_nat n <= zlen d -> 0 <= prevIndex < zlen d ->
  exists c, pip_loop d p n i prevIndex cn = Ok c.
Proof.
  revert i prevIndex cn.
  induction n as [|n IH]; intros i prevIndex cn Hi Hn Hp; simpl; [eauto|].
  rewrite (nd_get d i) by lia. rewrite (nd_get d prevIndex) by lia. simpl.
  apply IH; lia.
Qed.

Lemma point_inside_total_on (poly : @ClipVertices F) (p : Vec) :
  0 <= originalSize poly <= zlen (data poly) ->
  exists c, clipPolyPointInsidePoly poly p = Ok c.
Proof.
  intros H. unfold clipPolyPointInsidePoly.
  destruct (Z.eq_dec (originalSize poly) 0) as [H0|H0].
  - rewrite H0. simpl. eauto.
  - pose proof (usize_le (originalSize poly - 1) ltac:(lia)).
    destruct (pip_loop_total_on (data poly) p (Z.to_nat (originalSize poly)) 0
                (usize (originalSize poly - 1)) 0) as [c ->]; [lia..|].
    simpl. eauto.
Qed.

Lemma pip_loop_same_pos (d d' : list (@ClipVertex F)) (p : Vec) (n : nat)
    (i prevIndex cn : Z) :
  zlen d' = zlen d -> (forall v, pos (nd d' v) = pos (nd d v)) ->
  pip_loop d' p n i prevIndex cn = pip_loop d p n i prevIndex cn.
Proof.
  intros Hl Hp. revert i prevIndex cn.
  induction n as [|n IH]; intros i prevIndex cn; simpl; [reflexivity|].
  rewrite !get_nd_or_fault, Hl.
  destruct ((0 <=? i) && (i <? zlen d)); [|reflexivity].
  destruct ((0 <=? prevIndex) && (prevIndex <? zlen d)); [|reflexivity].
  simpl. rewrite !Hp. apply IH.
Qed.

Lemma point_inside_marked (r r' : @ClipVertices F) (p : Vec) :
  ring_marked r r' -> clipPolyPointInsidePoly r' p = clipPolyPointInsidePoly r p.
Proof.
  intros (Ho & _ & _ & Hl & Hm). unfold clipPolyPointInsidePoly. rewrite Ho.
  rewrite (pip_loop_same_pos (data r) (data r')); [reflexivity | exact Hl |].
  intros v. destruct (marked_node_fields _ _ (Hm v)) as (-> & _). reflexivity.
Qed.

Section OnRing.
Variable r : @ClipVertices F.
Hypothesis R : ring_ok r.
Variable ord : Z -> Z.
Hypothesis Hrange : forall v, 0 <= v < size r -> 0 <= ord v < size r.
Hypothesis Hprev : forall v, 0 < v < size r -> ord (prev (nd (data r) v)) = ord v - 1.
Hypothesis Hinj : forall u v, 0 <= u < size r -> 0 <= v < size r -> ord u = ord v -> u = v.

Lemma mark_loop_total (fuel : nat) (d : list (@ClipVertex F)) (i : Z) (inside : bool) :
  marked_data (data r) d -> 0 <= i < size r ->
  size r - ord i <= Z.of_nat fuel ->
  exists d', mark_loop fuel d i inside = Ok d'.
Proof.
  revert d i inside. induction fuel as [|fuel IH]; intros d i inside M Hi Hf.
  - specialize (Hrange i Hi). lia.
  - simpl. destruct M as [Hl Hm]. pose proof (ro_size r R) as Hsz.
    rewrite (nd_get d i) by lia. cbn [mbind res_bind].
    destruct (has_flag (nd d i) CVF_INTERSECT && inside) eqn:E.
    + destruct (modify_total d i (fun e => set_flags e (Z.lor (flags e) CVF_EXIT)))
        as [d1 Hd1]; [lia|].
      assert (Hput : put d i (set_flags (nd d i) (Z.lor (flags (nd d i)) CVF_EXIT)) = Ok d1).
      { unfold modify in Hd1. rewrite (nd_get d i) in Hd1 by lia. exact Hd1. }
      rewrite Hput. cbn [mbind res_bind].
      destruct (marked_node_fields _ _ (Hm i)) as (_ & Hn & _).
      destruct (Z.eqb_spec (next (nd d i)) 0); [eauto|].
      apply IH.
      * eapply marked_data_trans; [split; [exact Hl | exact Hm]|].
        eapply (mark_put_marked d d1 i (nd d i) inside); [apply nd_get; lia|].
        rewrite E. exact Hput.
      * rewrite Hn. apply (ro_next r R i Hi).
      * rewrite Hn in *. rewrite (ord_next r R ord Hprev i Hi) by assumption. lia.
    + cbn [mbind res_bind].
      destruct (marked_node_fields _ _ (Hm i)) as (_ & Hn & _).
      destruct (Z.eqb_spec (next (nd d i)) 0); [eauto|].
      apply IH.
      * split; assumption.
      * rewrite Hn. apply (ro_next r R i Hi).
      * rewrite Hn in *. rewrite (ord_next r R ord Hprev i Hi) by assumption. lia.
Qed.

Lemma mark_put_exit (d d' : list (@ClipVertex F)) (i : Z) (inside : bool) :
  0 <= i < zlen d ->
  (if has_flag (nd d i) CVF_INTERSECT && inside
   then put d i (set_flags (nd d i) (Z.lor (flags (nd d i)) CVF_EXIT))
   else Ok d) = Ok d' ->
  has_flag (nd d i) CVF_EXIT = false ->
  forall v, has_flag (nd d' v) CVF_EXIT
            = if v =? i then has_flag (nd d i) CVF_INTERSECT && inside
              else has_flag (nd d v) CVF_EXIT.
Proof.
  intros Hi H Hclear v.
  destruct (mark_put d d' i (nd d i) inside (nd_get d i Hi) H) as [_ Hn].
  rewrite Hn. destruct (Z.eqb_spec v i) as [->|]; simpl; [|reflexivity].
  destruct (has_flag (nd d i) CVF_INTERSECT && inside); [|exact Hclear].
  apply has_flag_set_exit.
Qed.

Lemma mark_loop_pair (c : bool) (fuel : nat) :
  forall (d1 d2 : list (@ClipVertex F)) (i : Z) (in1 in2 : bool) (d1' d2' : list ClipVertex),
  marked_data (data r) d1 -> marked_data (data r) d2 ->
  0 <= i < size r -> in1 = xorb c in2 ->
  (forall v, 0 <= v < size r -> ord i <= ord v ->
     has_flag (nd d1 v) CVF_EXIT = false /\ has_flag (nd d2 v) CVF_EXIT = false) ->
  (forall v, 0 <= v < size r -> ord v < ord i -> is_cross (data r) v = true ->
     has_flag (nd d1 v) CVF_EXIT = xorb c (has_flag (nd d2 v) CVF_EXIT)) ->
  mark_loop fuel d1 i in1 = Ok d1' -> mark_loop fuel d2 i in2 = Ok d2' ->
  forall v, 0 <= v < size r -> is_cross (data r) v = true ->
    has_flag (nd d1' v) CVF_EXIT = xorb c (has_flag (nd d2' v) CVF_EXIT).
Proof.
  induction fuel as [|fuel IH];
    intros d1 d2 i in1 in2 d1' d2' M1 M2 Hi Hin Hpend Hdone H1 H2; [discriminate|].
  pose proof (ro_size r R) as Hsz.
  destruct M1 as [L1 N1]. destruct M2 as [L2 N2].
  simpl in H1, H2.
  rewrite (nd_get d1 i) in H1 by lia. rewrite (nd_get d2 i) in H2 by lia.
  cbn [mbind res_bind] in H1, H2.
  apply bind_Ok in H1 as (e1 & Hp1 & H1). apply bind_Ok in H2 as (e2 & Hp2 & H2).
  destruct (marked_node_fields _ _ (N1 i)) as (_ & Hn1 & _ & _ & _ & _ & Hc1).
  destruct (marked_node_fields _ _ (N2 i)) as (_ & Hn2 & _ & _ & _ & _ & Hc2).
  destruct (Hpend i Hi ltac:(lia)) as [Cl1 Cl2].
  pose proof (mark_put_exit d1 e1 i in1 ltac:(lia) Hp1 Cl1) as X1.
  pose proof (mark_put_exit d2 e2 i in2 ltac:(lia) Hp2 Cl2) as X2.
  assert (M1' : marked_data (data r) e1).
  { eapply marked_data_trans; [split; [exact L1 | exact N1]|].
    eapply (mark_put_marked d1 e1 i (nd d1 i) in1); [apply nd_get; lia | exact Hp1]. }
  assert (M2' : marked_data (data r) e2).
  { eapply marked_data_trans; [split; [exact L2 | exact N2]|].
    eapply (mark_put_marked d2 e2 i (nd d2 i) in2); [apply nd_get; lia | exact Hp2]. }
  rewrite Hc1 in *. rewrite Hc2 in *. rewrite Hn1 in *. rewrite Hn2 in *.
  fold (is_cross (data r) i) in *.
  assert (Hat : forall v, 0 <= v < size r -> ord v <= ord i -> is_cross (data r) v = true ->
            has_flag (nd e1 v) CVF_EXIT = xorb c (has_flag (nd e2 v) CVF_EXIT)).
  { intros v Hv Ho Hx. rewrite X1, X2.
    destruct (Z.eqb_spec v i) as [->|Hne].
    - rewrite Hx. simpl. exact Hin.
    - apply Hdone; try assumption.
      destruct (Z.eq_dec (ord v) (ord i)) as [E|]; [|lia].
      apply Hinj in E; [contradiction | assumption | assumption]. }
  destruct (Z.eqb_spec (next (nd (data r) i)) 0) as [Hz|Hnz].
  - injection H1 as <-. injection H2 as <-.
    intros v Hv Hx. apply Hat; try assumption.
    rewrite (ord_last r R ord Hrange Hprev Hinj i Hi Hz).
    specialize (Hrange v Hv). lia.
  - pose proof (ord_next r R ord Hprev i Hi Hnz) as Ho.
    eapply (IH e1 e2 (next (nd (data r) i))
              (if is_cross (data r) i then negb in1 else in1)
              (if is_cross (data r) i then negb in2 else in2) d1' d2');
      try eassumption.
    + apply (ro_next r R i Hi).
    + rewrite Hin. destruct (is_cross (data r) i), c, in2; reflexivity.
    + intros v Hv Hov. rewrite X1, X2.
      destruct (Z.eqb_spec v i) as [->|Hne]; [lia|].
      apply Hpend; [assumption | lia].
    + intros v Hv Hov Hx. apply Hat; try assumption. lia.
Qed.

End OnRing.

End MarkTotal.

Section MarkRings.
Context {F : Type} {FO : FloatOps F}.

Lemma fresh_exit_clear (r : @ClipVertices F) (v : Z) :
  flags_fresh r -> 0 <= v < size r -> has_flag (nd (data r) v) CVF_EXIT = false.
Proof.
  intros Fr Hv. unfold has_flag. rewrite (Fr v Hv).
  destruct (originalSize r <=? v); reflexivity.
Qed.

Lemma mark_single_total (fuel : nat) (n len : Z) (r other : @ClipVertices F)
    (dir : ClipFollowDirection) :
  ring_found n len r -> 0 <= originalSize other <= zlen (data other) ->
  len <= Z.of_nat fuel ->
  exists r', clipPolyMarkEntryExitPointsSingle fuel r other dir = Ok r'.
Proof.
  intros (R & (ord & Hrange & Hprev & Hinj) & Fr & Ho & Hc & Hl & Hn) Hother Hfuel.
  unfold clipPolyMarkEntryExitPointsSingle.
  destruct (Z.ltb_spec 0 (size r)) as [Hpos|]; [|eauto].
  pose proof (ro_size r R) as Hsz.
  rewrite (nd_get (data r) 0) by lia. cbn [mbind res_bind].
  destruct (point_inside_total_on other (pos (nd (data r) 0)) Hother) as [c ->].
  cbn [mbind res_bind].
  assert (H0 : 0 <= 0 < size r) by lia.
  destruct (ro_next r R 0 H0) as [Hi _].
  pose proof (Hrange _ Hi) as Hoi.
  destruct (mark_loop_total r R ord Hrange Hprev fuel (data r) (next (nd (data r) 0))
              (match dir with CFD_FORWARD => c | CFD_BACKWARD => negb c end)
              (marked_data_refl _) Hi ltac:(lia)) as [d' ->].
  cbn [mbind res_bind]. eauto.
Qed.

Lemma mark_single_pair (fuel : nat) (n len : Z) (r o1 o2 r1 r2 : @ClipVertices F)
    (dir1 dir2 : ClipFollowDirection) :
  ring_found n len r ->
  (forall p, clipPolyPointInsidePoly o1 p = clipPolyPointInsidePoly o2 p) ->
  clipPolyMarkEntryExitPointsSingle fuel r o1 dir1 = Ok r1 ->
  clipPolyMarkEntryExitPointsSingle fuel r o2 dir2 = Ok r2 ->
  forall v, originalSize r <= v < size r ->
    has_flag (nd (data r1) v) CVF_EXIT
    = if same_direction dir1 dir2 then has_flag (nd (data r2) v) CVF_EXIT
      else negb (has_flag (nd (data r2) v) CVF_EXIT).
Proof.
  intros (R & (ord & Hrange & Hprev & Hinj) & Fr & Ho & Hc & Hl & Hn) Hpip H1 H2 v Hv.
  pose proof (ro_size r R) as Hsz. pose proof (ro_orig r R) as Hor.
  unfold clipPolyMarkEntryExitPointsSingle in H1, H2.
  destruct (Z.ltb_spec 0 (size r)) as [Hpos|]; [|lia].
  rewrite (nd_get (data r) 0) in H1, H2 by lia. cbn [mbind res_bind] in H1, H2.
  rewrite Hpip in H1.
  apply bind_Ok in H1 as (c1 & Hc1 & H1). apply bind_Ok in H2 as (c2 & Hc2 & H2).
  assert (c1 = c2) as -> by congruence.
  apply bind_Ok in H1 as (d1 & Hd1 & H1). apply bind_Ok in H2 as (d2 & Hd2 & H2).
  injection H1 as <-. injection H2 as <-. cbn [data set_data].
  assert (H0 : 0 <= 0 < size r) by lia.
  destruct (ro_next r R 0 H0) as [Hi _].
  assert (H1n : 1 <= originalSize r) by lia.
  assert (Hcross : is_cross (data r) v = true).
  { rewrite (ro_flag r R v) by lia. apply Z.leb_le. lia. }
  pose proof (mark_loop_pair r R ord Hrange Hprev Hinj (negb (same_direction dir1 dir2)) fuel
                (data r) (data r) (next (nd (data r) 0))
                (match dir1 with CFD_FORWARD => c2 | CFD_BACKWARD => negb c2 end)
                (match dir2 with CFD_FORWARD => c2 | CFD_BACKWARD => negb c2 end)
                d1 d2 (marked_data_refl _) (marked_data_refl _) Hi) as HP.
  rewrite (fun A B C => HP A B C Hd1 Hd2 v); try assumption; try lia.
  - destruct (same_direction dir1 dir2); simpl; [reflexivity|].
    destruct (has_flag (nd d2 v) CVF_EXIT); reflexivity.
  - destruct dir1, dir2, c2; reflexivity.
  - intros u Hu _. split; apply fresh_exit_clear; assumption.
  - intros u Hu Hou Hx. exfalso.
    rewrite (ro_flag r R u Hu) in Hx. apply Z.leb_le in Hx.
    pose proof (ord_zero r R ord Hrange Hprev Hinj ltac:(lia)) as Hz.
    destruct (Z.eq_dec (next (nd (data r) 0)) 0) as [E0|E0].
    + rewrite E0, Hz in Hou. specialize (Hrange u Hu). lia.
    + rewrite (ord_next r R ord Hprev 0 H0 E0), Hz in Hou.
      assert (ord u = ord 0) as E by (specialize (Hrange u Hu); lia).
      apply Hinj in E; [lia | assumption | assumption].
Qed.

End MarkRings.

(** X18: on the rings [clipPolyFindIntersections] returns, with fuel for one
    walk round each slab, [clipPolyMarkEntryExitPoints] returns, and what
    it returns differs from its input in the [CVF_EXIT] bits of
    intersection nodes only. *)
Theorem mark_returns {F : Type} {FO : FloatOps F} (fuel fuel' : nat)
    (verticesA verticesB : list Vec) (slabA slabB : list ClipVertex)
    (a0 b0 a b : ClipVertices) (aDir bDir : ClipFollowDirection) :
  clipPolyTransformData verticesA slabA = Ok a0 ->
  clipPolyTransformData verticesB slabB = Ok b0 ->
  zlen slabA <= 65536 -> zlen slabB <= 65536 ->
  clipPolyFindIntersections fuel a0 b0 = Ok (a, b) ->
  zlen slabA <= Z.of_nat fuel' -> zlen slabB <= Z.of_nat fuel' ->
  exists a' b',
    clipPolyMarkEntryExitPoints fuel' a b aDir bDir = Ok (a', b')
    /\ ring_marked a a' /\ ring_marked b b'.
Proof.
  intros Ha0 Hb0 Hca Hcb Hrun Hfa Hfb.
  destruct (find_rings_found fuel _ _ _ _ _ _ _ _ Ha0 Hb0 Hca Hcb Hrun) as (Fa & Fb & _).
  pose proof Fa as (Ra & _). pose proof Fb as (Rb & _).
  unfold clipPolyMarkEntryExitPoints.
  destruct (mark_single_total fuel' _ _ a b aDir Fa) as [a' Ha'];
    [pose proof (ro_orig b Rb); pose proof (ro_size b Rb); lia | exact Hfa |].
  rewrite Ha'. cbn [mbind res_bind].
  pose proof (mark_single_frame _ _ _ _ _ Ha') as Ma.
  destruct Ma as (Moa & Msa & Mca & Mla & Mna).
  destruct (mark_single_total fuel' _ _ b a' bDir Fb) as [b' Hb'];
    [rewrite Moa, Mla; pose proof (ro_orig a Ra); pose proof (ro_size a Ra); lia
    | exact Hfb |].
  rewrite Hb'. cbn [mbind res_bind].
  exists a', b'. split; [reflexivity|].
  split; [repeat split; assumption|]. eapply mark_single_frame; exact Hb'.
Qed.

Lemma mark_returns_witness :
  exists a' b',
    clipPolyMarkEntryExitPoints 16 Inputs.squareRings.1 Inputs.squareRings.2
      CFD_FORWARD CFD_BACKWARD = Ok (a', b')
    /\ ring_marked Inputs.squareRings.1 a' /\ ring_marked Inputs.squareRings.2 b'.
Proof.
  assert (Hcap : zlen (Inputs.slab 16) <= 65536) by (unfold zlen; simpl; lia).
  assert (Ha : clipPolyTransformData Inputs.unitSquare (Inputs.slab 16)
               = Ok Inputs.squareRingA) by (vm_compute; reflexivity).
  assert (Hb : clipPolyTransformData Inputs.shiftedSquare (Inputs.slab 16)
               = Ok Inputs.squareRingB) by (vm_compute; reflexivity).
  assert (Hrun : clipPolyFindIntersections 100 Inputs.squareRingA Inputs.squareRingB
                 = Ok (Inputs.squareRings.1, Inputs.squareRings.2))
    by (vm_compute; reflexivity).
  assert (Hfuel : zlen (Inputs.slab 16) <= Z.of_nat 16) by (unfold zlen; simpl; lia).
  exact (mark_returns 100 16 Inputs.unitSquare Inputs.shiftedSquare
           (Inputs.slab 16) (Inputs.slab 16) Inputs.squareRingA Inputs.squareRingB
           Inputs.squareRings.1 Inputs.squareRings.2 CFD_FORWARD CFD_BACKWARD
           Ha Hb Hcap Hcap Hrun Hfuel Hfuel).
Defined.

(** X19: the marks of a ring depend on its own follow direction only, and
    the other direction gives the complementary marks: on the rings
    [clipPolyFindIntersections] returns, two runs of
    [clipPolyMarkEntryExitPoints] set [CVF_EXIT] on the same intersection
    nodes of a ring when they are given the same direction for it, and
    on complementary sets of its intersection nodes when they are given
    different ones. *)
Theorem mark_direction_complement {F : Type} {FO : FloatOps F} (fuel fuel' : nat)
    (verticesA verticesB : list Vec) (slabA slabB : list ClipVertex)
    (a0 b0 a b a1 b1 a2 b2 : ClipVertices)
    (aDir1 bDir1 aDir2 bDir2 : ClipFollowDirection) :
  clipPolyTransformData verticesA slabA = Ok a0 ->
  clipPolyTransformData verticesB slabB = Ok b0 ->
  zlen slabA <= 65536 -> zlen slabB <= 65536 ->
  clipPolyFindIntersections fuel a0 b0 = Ok (a, b) ->
  clipPolyMarkEntryExitPoints fuel' a b aDir1 bDir1 = Ok (a1, b1) ->
  clipPolyMarkEntryExitPoints fuel' a b aDir2 bDir2 = Ok (a2, b2) ->
  (forall v, originalSize a <= v < size a ->
     has_flag (nd (data a1) v) CVF_EXIT
     = if same_direction aDir1 aDir2 then has_flag (nd (data a2) v) CVF_EXIT
       else negb (has_flag (nd (data a2) v) CVF_EXIT))
  /\ (forall v, originalSize b <= v < size b ->
        has_flag (nd (data b1) v) CVF_EXIT
        = if same_direction bDir1 bDir2 then has_flag (nd (data b2) v) CVF_EXIT
          else negb (has_flag (nd (data b2) v) CVF_EXIT)).
Proof.
  intros Ha0 Hb0 Hca Hcb Hrun H1 H2.
  destruct (find_rings_found fuel _ _ _ _ _ _ _ _ Ha0 Hb0 Hca Hcb Hrun) as (Fa & Fb & _).
  unfold clipPolyMarkEntryExitPoints in H1, H2.
  apply bind_Ok in H1 as (a1' & Ha1 & H1). apply bind_Ok in H1 as (b1' & Hb1 & H1).
  apply bind_Ok in H2 as (a2' & Ha2 & H2). apply bind_Ok in H2 as (b2' & Hb2 & H2).
  injection H1 as <- <-. injection H2 as <- <-.
  split.
  - eapply (mark_single_pair fuel' _ _ a b b); [exact Fa | reflexivity | exact Ha1 | exact Ha2].
  - eapply (mark_single_pair fuel' _ _ b a1' a2'); [exact Fb | | exact Hb1 | exact Hb2].
    intros p. rewrite (point_inside_marked a a1' p (mark_single_frame _ _ _ _ _ Ha1)).
    rewrite (point_inside_marked a a2' p (mark_single_frame _ _ _ _ _ Ha2)). reflexivity.
Qed.

Lemma mark_direction_complement_witness :
  (forall v, originalSize Inputs.squareRings.1 <= v < size Inputs.squareRings.1 ->
     has_flag (nd (data markedSquares.1) v) CVF_EXIT
     = if same_direction CFD_FORWARD CFD_BACKWARD
       then has_flag (nd (data markedSquaresBackward.1) v) CVF_EXIT
       else negb (has_flag (nd (data markedSquaresBackward.1) v) CVF_EXIT))
  /\ (forall v, originalSize Inputs.squareRings.2 <= v < size Inputs.squareRings.2 ->
        has_flag (nd (data markedSquares.2) v) CVF_EXIT
        = if same_direction CFD_FORWARD CFD_FORWARD
          then has_flag (nd (data markedSquaresBackward.2) v) CVF_EXIT
          else negb (has_flag (nd (data markedSquaresBackward.2) v) CVF_EXIT)).
Proof.
  assert (Hcap : zlen (Inputs.slab 16) <= 65536) by (unfold zlen; simpl; lia).
  assert (Ha : clipPolyTransformData Inputs.unitSquare (Inputs.slab 16)
               = Ok Inputs.squareRingA) by (vm_compute; reflexivity).
  assert (Hb : clipPolyTransformData Inputs.shiftedSquare (Inputs.slab 16)
               = Ok Inputs.squareRingB) by (vm_compute; reflexivity).
  assert (Hrun : clipPolyFindIntersections 100 Inputs.squareRingA Inputs.squareRingB
                 = Ok (Inputs.squareRings.1, Inputs.squareRings.2))
    by (vm_compute; reflexivity).
  assert (H1 : clipPolyMarkEntryExitPoints 100 Inputs.squareRings.1 Inputs.squareRings.2
                 CFD_FORWARD CFD_FORWARD = Ok (markedSquares.1, markedSquares.2))
    by (vm_compute; reflexivity).
  assert (H2 : clipPolyMarkEntryExitPoints 100 Inputs.squareRings.1 Inputs.squareRings.2
                 CFD_BACKWARD CFD_FORWARD
               = Ok (markedSquaresBackward.1, markedSquaresBackward.2))
    by (vm_compute; reflexivity).
  exact (mark_direction_complement 100 100 Inputs.unitSquare Inputs.shiftedSquare
           (Inputs.slab 16) (Inputs.slab 16) Inputs.squareRingA Inputs.squareRingB
           Inputs.squareRings.1 Inputs.squareRings.2
           markedSquares.1 markedSquares.2 markedSquaresBackward.1 markedSquaresBackward.2
           CFD_FORWARD CFD_FORWARD CFD_BACKWARD CFD_FORWARD
           Ha Hb Hcap Hcap Hrun H1 H2).
Defined.

(** ** Emission: what it writes *)

Lemma laid_out_app (start : Z) (l1 l2 : list ClipPolygonEntry) :
  laid_out start (l1 ++ l2) <-> laid_out start l1 /\ laid_out (layout_end start l1) l2.
Proof.
  revert start. induction l1 as [|e l1 IH]; intros start; simpl; [tauto|].
  rewrite IH. tauto.
Qed.

Lemma layout_end_app (start : Z) (l1 l2 : list ClipPolygonEntry) :
  layout_end start (l1 ++ l2) = layout_end (layout_end start l1) l2.
Proof.
  revert start. induction l1 as [|e l1 IH]; intros start; simpl; [reflexivity|].
  apply IH.
Qed.

Lemma modify_insert {A : Type} (l l' : list A) (i : Z) (f : A -> A) :
  modify l i f = Ok l' ->
  exists x, 0 <= i < zlen l /\ l !! Z.to_nat i = Some x /\ l' = <[Z.to_nat i := f x]> l.
Proof.
  unfold modify. intros (x & Hx & Hp)%bind_Ok.
  apply put_Ok in Hp as [Hr ->]. apply get_Ok in Hx as [_ Hx]. eauto.
Qed.

Section EmitProofs.
Context {F : Type} {FO : FloatOps F}.
Variables a0 b0 : @ClipVertices F.
Variable polys0 : list ClipPolygonEntry.
Variable pool0 : list (@Vec F).
Variables maxPolygons maxCount : Z.
Hypothesis Hcount : 0 <= maxCount.
Hypothesis HorigA : 0 <= originalSize a0.
Hypothesis HorigB : 0 <= originalSize b0.

Local Abbreviation bounds := (emit_bounds a0 b0 polys0 pool0 maxPolygons maxCount).
Local Abbreviation writing := (emit_writing polys0).
Local Abbreviation inner_post := (post_inner a0 b0 polys0 pool0 maxPolygons maxCount).
Local Abbreviation outer_post := (post_outer a0 b0 polys0 pool0 maxPolygons maxCount).
Local Abbreviation fallback_post := (post_fallback a0 b0 polys0 pool0 maxPolygons maxCount).

Lemma processed_node_trans (u v w : @ClipVertex F) :
  processed_node u v -> processed_node v w -> processed_node u w.
Proof.
  intros [-> | ->] [-> | ->].
  - left. reflexivity.
  - right. reflexivity.
  - right. reflexivity.
  - right. unfold set_flags. cbn [flags pos next prev nextPoly neighbor alpha].
    rewrite <- Z.lor_assoc, Z.lor_diag. reflexivity.
Qed.

Lemma ring_processed_refl (r : @ClipVertices F) : ring_processed r r.
Proof. repeat split. intros v. left. reflexivity. Qed.

Lemma ring_processed_step (r0 r : @ClipVertices F) (d : list ClipVertex) (i : Z) :
  ring_processed r0 r -> modify (data r) i set_processed = Ok d ->
  ring_processed r0 (set_data r d).
Proof.
  intros (Ho & Hs & Hc & Hl & Hn) (_ & Hl' & Hn')%modify_spec.
  repeat split; simpl; try congruence.
  intros v. eapply processed_node_trans; [apply Hn|]. rewrite Hn'.
  destruct (v =? i); [right; reflexivity | left; reflexivity].
Qed.

Lemma writing_keeps (s s' : @EmitState F) :
  epolys s' = epolys s -> epolyCount s' = epolyCount s ->
  ecurrentPoly s' = ecurrentPoly s -> eput s <= eput s' ->
  writing s -> writing s'.
Proof.
  intros Hp Hc Hcur Hput (H1 & H2 & e & e0 & H3 & H4 & H5 & H6 & H7 & H8).
  unfold emit_writing. rewrite Hp, Hc, Hcur.
  split; [exact H1|]. split; [exact H2|]. exists e, e0. repeat (split; [assumption|]). lia.
Qed.

Lemma writing_mono (s s' : @EmitState F) :
  same_book s s' -> eput s <= eput s' -> writing s -> writing s'.
Proof. intros (Hp & Hc & Hcur & _). apply writing_keeps; assumption. Qed.

Lemma bounds_cur_data (s : @EmitState F) (d : list ClipVertex) (i : Z) :
  bounds s -> modify (data (ecur s)) i set_processed = Ok d ->
  bounds (with_cur_data s d) /\ same_book s (with_cur_data s d)
  /\ eput (with_cur_data s d) = eput s /\ epool (with_cur_data s d) = epool s
  /\ eonA (with_cur_data s d) = eonA s /\ ei (with_cur_data s d) = ei s
  /\ data (ecur (with_cur_data s d)) = d.
Proof.
  intros [B1 B2 B3 B4 B5 B6 B7 B8] Hd.
  unfold with_cur_data, ecur in *. destruct (eonA s) eqn:E; simpl; rewrite ?E; simpl.
  - split; [constructor; simpl; try assumption; eapply ring_processed_step; eassumption|].
    repeat split.
  - split; [constructor; simpl; try assumption; eapply ring_processed_step; eassumption|].
    repeat split.
Qed.

Lemma bounds_with_i (s : @EmitState F) (i : Z) :
  bounds s -> bounds (with_i s i).
Proof. intros [B1 B2 B3 B4 B5 B6 B7 B8]. constructor; simpl; assumption. Qed.

Lemma bounds_with_swap (s : @EmitState F) :
  bounds s -> bounds (with_swap s).
Proof. intros [B1 B2 B3 B4 B5 B6 B7 B8]. constructor; simpl; assumption. Qed.

Lemma bounds_with_has (s : @EmitState F) :
  bounds s -> bounds (with_has s).
Proof. intros [B1 B2 B3 B4 B5 B6 B7 B8]. constructor; simpl; assumption. Qed.

Lemma emit_walk_post (fuel : nat) (backward : bool) (s : @EmitState F) (f : Flow) :
  bounds s -> writing s -> ehas s = true ->
  emit_walk fuel backward maxCount s = Ok f -> inner_post f.
Proof.
  revert s f. induction fuel as [|fuel IH]; intros s f B W Hh; [discriminate|].
  cbn [emit_walk]. intros (cur & _ & H)%bind_Ok.
  apply bind_Ok in H as (d & Hd & H). cbv zeta in H.
  destruct (bounds_cur_data s d _ B Hd) as (B1 & S1 & P1 & Q1 & A1 & I1 & D1).
  set (s1 := with_i (with_cur_data s d) (if backward then prev cur else next cur)) in *.
  assert (Bs1 : bounds s1) by (apply bounds_with_i; exact B1).
  assert (Ws1 : writing s1).
  { apply (writing_mono s); [|unfold s1; simpl; lia|exact W].
    destruct S1 as (? & ? & ? & ?). repeat split; assumption. }
  assert (Hs1 : ehas s1 = true).
  { unfold s1. simpl. destruct S1 as (_ & _ & _ & ->). exact Hh. }
  clearbody s1.
  apply bind_Ok in H as (current & _ & H).
  destruct (Z.ltb_spec maxCount (eput s1 + 1)).
  - injection H as <-. cbn [post_inner]. split; [exact Bs1 | split; [exact Ws1 | lia]].
  - apply bind_Ok in H as (pool & Hp & H). apply put_Ok in Hp as [Hr ->].
    set (s2 := with_pool s1 (<[Z.to_nat (eput s1) := pos current]> (epool s1))
                         (eput s1 + 1)) in *.
    assert (Bs2 : bounds s2).
    { destruct Bs1 as [B1' B2' B3' B4' B5' B6' B7' B8'].
      constructor; simpl; try assumption.
      - lia.
      - rewrite length_insert. exact B3'.
      - intros i Hi. rewrite list_lookup_insert_ne by lia. apply B4'. lia. }
    assert (Ws2 : writing s2).
    { apply (writing_mono s1); [repeat split | simpl; lia | exact Ws1]. }
    destruct (has_flag current CVF_INTERSECT).
    + injection H as <-. cbn [post_inner]. auto.
    + apply (IH s2); assumption.
Qed.

Lemma emit_trace_post (wfuel fuel : nat) (start : Z) (startOnA : bool)
    (s : @EmitState F) (f : Flow) :
  bounds s -> writing s -> ehas s = true ->
  emit_trace wfuel fuel maxCount start startOnA s = Ok f -> inner_post f.
Proof.
  revert s f. induction fuel as [|fuel IH]; intros s f B W Hh; [discriminate|].
  cbn [emit_trace]. intros (cur & _ & H)%bind_Ok.
  apply bind_Ok in H as (w & Hw & H).
  pose proof (emit_walk_post _ _ _ _ B W Hh Hw) as Pw.
  destruct w as [s1|s1]; [injection H as <-; exact Pw|].
  destruct Pw as (B1 & W1 & H1).
  apply bind_Ok in H as (cur1 & _ & H). cbv zeta in H.
  set (s2 := with_i (with_swap s1) (neighbor cur1)) in *.
  apply bind_Ok in H as (d & Hd & H).
  assert (Bs2 : bounds s2) by (apply bounds_with_i, bounds_with_swap; exact B1).
  destruct (bounds_cur_data s2 d _ Bs2 Hd) as (B3 & S3 & P3 & Q3 & A3 & I3 & D3).
  assert (W3 : writing (with_cur_data s2 d)).
  { apply (writing_mono s1); [|rewrite P3; simpl; lia|exact W1].
    destruct S3 as (E1 & E2 & E3 & E4). repeat split; assumption. }
  assert (H3 : ehas (with_cur_data s2 d) = true).
  { destruct S3 as (_ & _ & _ & ->). exact H1. }
  destruct (_ && _).
  - injection H as <-. cbn [post_inner]. auto.
  - eapply IH; eassumption.
Qed.

Lemma idle_closed (s : @EmitState F) : emit_idle s -> emit_closed s.
Proof.
  intros (Hc & _ & Hp). unfold emit_closed. rewrite Hc, Hp. simpl. auto.
Qed.

(** [emit_close] gives the polygon being written its size. *)
Lemma emit_close_post (s s' : @EmitState F) :
  bounds s -> writing s \/ emit_idle s ->
  emit_close s = Ok s' ->
  bounds s' /\ emit_closed s' /\ epolyCount s' = epolyCount s /\ eput s' = eput s
  /\ ehas s' = ehas s.
Proof.
  intros B Sh. unfold emit_close.
  destruct (Z.ltb_spec (ecurrentPoly s) (epolyCount s)) as [Hlt|Hge].
  - destruct Sh as [W|(Hc & Hcur & _)]; [|lia].
    destruct W as (H1 & H2 & e & e0 & H3 & H4 & H5 & H6 & H7 & H8).
    intros (polys & Hm & H)%bind_Ok. injection H as <-.
    apply modify_insert in Hm as (x & Hr & Hx & ->).
    assert (x = e) as -> by congruence.
    destruct B as [B1 B2 B3 B4 B5 B6 B7 B8].
    split; [constructor; simpl; try assumption|].
    + rewrite length_insert. exact B5.
    + intros k Hk. rewrite list_lookup_insert_ne by lia. apply B6. exact Hk.
    + split; [|simpl; auto]. unfold emit_closed. simpl.
      replace (Z.to_nat (epolyCount s)) with (S (Z.to_nat (ecurrentPoly s))) by lia.
      rewrite (take_S_r _ _ (mkEntry (evertices e) (eput s - evertices e)))
        by (apply list_lookup_insert_eq; unfold zlen in Hr; lia).
      rewrite take_insert_ge by lia.
      rewrite laid_out_app, layout_end_app, H7. simpl.
      split; [split; [exact H6 | split; [reflexivity | split; [lia | exact I]]] | lia].
  - intros [= <-]. split; [exact B|]. split; [|auto].
    destruct Sh as [(H1 & H2 & _)|Hi]; [lia | apply idle_closed; exact Hi].
Qed.

(** [emit_open] begins a polygon at the fill level. *)
Lemma emit_open_post (s s' : @EmitState F) :
  bounds s -> emit_closed s -> epolyCount s + 1 <= maxPolygons ->
  emit_open s = Ok s' ->
  bounds s' /\ writing s' /\ eput s' = eput s /\ ehas s' = ehas s
  /\ epool s' = epool s /\ ea s' = ea s /\ eb s' = eb s.
Proof.
  intros B (C1 & C2) Hroom. unfold emit_open.
  intros (polys & Hm & H)%bind_Ok. injection H as <-.
  apply modify_insert in Hm as (x & Hr & Hx & ->).
  destruct B as [B1 B2 B3 B4 B5 B6 B7 B8].
  split; [constructor; simpl; try assumption|].
  - lia.
  - rewrite length_insert. exact B5.
  - intros k Hk. rewrite list_lookup_insert_ne by lia. apply B6. lia.
  - split; [|simpl; auto 10]. unfold emit_writing. simpl.
    split; [lia|]. split; [lia|].
    exists (mkEntry (eput s) (esize x)), x.
    split; [apply list_lookup_insert_eq; unfold zlen in Hr; lia|].
    split; [rewrite <- (B6 (Z.to_nat (epolyCount s))) by lia; exact Hx|].
    split; [reflexivity|].
    rewrite take_insert_ge by lia. simpl. split; [exact C1|]. split; [exact C2 | lia].
Qed.

Lemma inner_outer_post (f : @Flow F) : inner_post f -> outer_post f.
Proof.
  destruct f as [s|s]; simpl.
  - intros (B & W & Hx). auto.
  - intros (B & W & ->). auto.
Qed.

Lemma shape_cases (s : @EmitState F) :
  (if ehas s then writing s else emit_idle s) -> writing s \/ emit_idle s.
Proof. destruct (ehas s); auto. Qed.

Lemma emit_visit_post (wfuel : nat) (s : @EmitState F) (f : Flow) :
  bounds s -> (if ehas s then writing s else emit_idle s) ->
  emit_visit wfuel maxPolygons maxCount s = Ok f -> outer_post f.
Proof.
  intros B Sh. unfold emit_visit. intros (current & _ & H)%bind_Ok.
  destruct (_ =? CVF_INTERSECT).
  - apply bind_Ok in H as (d & Hd & H). cbv zeta in H.
    destruct (bounds_cur_data s d _ B Hd) as (B1 & S1 & P1 & Q1 & A1 & I1 & D1).
    apply bind_Ok in H as (s2 & Hcl & H).
    assert (Sh1 : writing (with_has (with_cur_data s d))
                  \/ emit_idle (with_has (with_cur_data s d))).
    { destruct S1 as (E1 & E2 & E3 & E4).
      destruct (shape_cases s Sh) as [W|(I1' & I2' & I3')]; [left|right].
      - apply (writing_keeps s); simpl; try assumption. lia.
      - unfold emit_idle. simpl. rewrite E2, E3, P1. auto. }
    destruct (emit_close_post _ _ (bounds_with_has _ B1) Sh1 Hcl)
      as (B2 & C2 & Hc2 & Hp2 & Hh2).
    destruct (Z.ltb_spec maxPolygons (epolyCount s2 + 1)).
    + injection H as <-. simpl. auto.
    + apply bind_Ok in H as (s3 & Hop & H).
      destruct (emit_open_post _ _ B2 C2 ltac:(lia) Hop) as (B3 & W3 & Hp3 & Hh3 & _).
      apply inner_outer_post.
      eapply emit_trace_post; [exact B3 | exact W3 | | exact H].
      rewrite Hh3, Hh2. reflexivity.
  - injection H as <-. simpl. auto.
Qed.

Lemma emit_outer_post (wfuel fuel : nat) (s : @EmitState F) (f : Flow) :
  bounds s -> (if ehas s then writing s else emit_idle s) ->
  emit_outer wfuel fuel maxPolygons maxCount s = Ok f -> outer_post f.
Proof.
  revert s f. induction fuel as [|fuel IH]; intros s f B Sh; [discriminate|].
  cbn [emit_outer]. destruct (ei s =? 0).
  - intros [= <-]. simpl. auto.
  - intros (v & Hv & H)%bind_Ok.
    pose proof (emit_visit_post _ _ _ B Sh Hv) as Pv.
    destruct v as [s1|s1]; [injection H as <-; exact Pv|].
    destruct Pv as [B1 Sh1].
    apply bind_Ok in H as (current & _ & H).
    apply (IH (with_i s1 (next current)) f (bounds_with_i s1 (next current) B1));
      [|exact H].
    simpl. exact Sh1.
Qed.

Lemma emit_copy_frame (n : nat) (j : Z) (d : list (@ClipVertex F)) (pool pool' : list Vec) :
  0 <= j -> emit_copy n j d pool = Ok pool' ->
  length pool' = length pool
  /\ forall i : nat, j + Z.of_nat n <= Z.of_nat i -> pool' !! i = pool !! i.
Proof.
  revert j pool. induction n as [|n IH]; intros j pool Hj; simpl.
  - intros [= <-]. auto.
  - intros (v & _ & H)%bind_Ok. apply bind_Ok in H as (p1 & Hp & H).
    apply put_Ok in Hp as [Hr ->].
    destruct (IH (j + 1) _ ltac:(lia) H) as [Hl Ht].
    split; [rewrite Hl, length_insert; reflexivity|].
    intros i Hi. rewrite Ht by lia. apply list_lookup_insert_ne. lia.
Qed.

Lemma emit_whole_post (ring : @ClipVertices F) (s : @EmitState F) (f : Flow) :
  bounds s -> emit_idle s -> 0 <= originalSize ring ->
  emit_whole maxPolygons maxCount ring s = Ok f -> fallback_post f.
Proof.
  intros B Hi Hring. unfold emit_whole.
  destruct (Z.ltb_spec maxPolygons (epolyCount s + 1)) as [Hlt|Hge].
  - intros [= <-]. simpl. split; [exact B|]. left. apply idle_closed. exact Hi.
  - intros (s1 & Hop & H)%bind_Ok. cbv zeta in H.
    destruct (emit_open_post _ _ B (idle_closed _ Hi) ltac:(lia) Hop)
      as (B1 & W1 & Hp1 & Hh1 & Hq1 & _).
    apply bind_Ok in H as (pool & Hcp & H). injection H as <-.
    set (n := if originalSize ring <? maxCount then originalSize ring else maxCount) in *.
    assert (Hn : 0 <= n <= maxCount).
    { unfold n. destruct (Z.ltb_spec (originalSize ring) maxCount); lia. }
    destruct (emit_copy_frame _ _ _ _ _ (Z.le_refl 0) Hcp) as [Hl Ht].
    destruct Hi as (_ & _ & Hput).
    simpl. split.
    + destruct B1 as [B1' B2' B3' B4' B5' B6' B7' B8'].
      constructor; simpl; try assumption.
      * rewrite Hl. exact B3'.
      * intros i Hi'. rewrite Ht by lia. apply B4'. lia.
    + left. apply (writing_mono s1); [repeat split | simpl; lia | exact W1].
Qed.

Lemma emit_fallback_post (s : @EmitState F) (f : Flow) :
  bounds s -> (if ehas s then writing s else emit_idle s) ->
  emit_fallback maxPolygons maxCount s = Ok f -> fallback_post f.
Proof.
  intros B Sh. unfold emit_fallback.
  destruct (ehas s).
  { intros [= <-]. simpl. auto. }
  pose proof B as [_ _ _ _ _ _ (Hoa & _) (Hob & _)].
  intros (a1 & _ & H)%bind_Ok. apply bind_Ok in H as (inB & _ & H).
  destruct inB.
  { apply (emit_whole_post (ea s) s f B Sh); [lia | exact H]. }
  destruct (size (eb s) =? 0).
  { injection H as <-. simpl. auto. }
  apply bind_Ok in H as (b1 & _ & H). apply bind_Ok in H as (inA & _ & H).
  destruct inA.
  - apply (emit_whole_post (eb s) s f B Sh); [lia | exact H].
  - injection H as <-. simpl. auto.
Qed.

(** The state [clipPolyEmitClippedPolygons] returns in. *)
Lemma emit_final (fuel : nat) (res : ClipPolyResult) (st : @EmitState F) :
  clipPolyEmitClippedPolygons fuel a0 b0 polys0 maxPolygons pool0 maxCount = Ok (res, st) ->
  res = emit_result st /\ bounds st
  /\ (emit_closed st \/ (writing st /\ maxCount <= eput st)).
Proof.
  unfold clipPolyEmitClippedPolygons. cbv zeta.
  set (s0 := mkEmit a0 b0 true 0 1 0 0 polys0 pool0 false).
  assert (B0 : bounds s0).
  { constructor; simpl; auto; try lia; apply ring_processed_refl. }
  assert (I0 : emit_idle s0) by (repeat split).
  destruct (size a0 <? 1).
  { intros [= <- <-]. split; [reflexivity|]. split; [exact B0|].
    left. apply idle_closed. exact I0. }
  intros (first & _ & H)%bind_Ok. apply bind_Ok in H as (o & Ho & H).
  pose proof (emit_outer_post fuel fuel (with_i s0 (next first)) o
                (bounds_with_i _ _ B0) I0 Ho) as Po.
  destruct o as [s1|s1].
  { injection H as <- <-. destruct Po. auto. }
  destruct Po as [B1 Sh1].
  apply bind_Ok in H as (f & Hf & H).
  pose proof (emit_fallback_post s1 f B1 Sh1 Hf) as Pf.
  destruct f as [s2|s2].
  { injection H as <- <-. destruct Pf. auto. }
  destruct Pf as [B2 Sh2].
  apply bind_Ok in H as (s3 & Hcl & H). injection H as <- <-.
  destruct (emit_close_post _ _ B2 Sh2 Hcl) as (B3 & C3 & _).
  auto.
Qed.

End EmitProofs.

(** X20: [clipPolyEmitClippedPolygons] stays within the capacities it is
    given: it reports at most [maxPolygons] polygons and fills the pool up
    to at most [maxCount] (the count it reports is the fill level reduced
    to 16 bits); pool entries from the fill level on and polygon entries
    from the reported count on are as the caller passed them, and with no
    polygon reported nothing was written. *)
Theorem emit_within_capacity {F : Type} {FO : FloatOps F} (fuel : nat)
    (a b : @ClipVertices F) (polygons : list ClipPolygonEntry) (maxPolygons : Z)
    (vertices : list Vec) (maxCount : Z) (res : ClipPolyResult) (st : EmitState) :
  0 <= maxCount -> 0 <= originalSize a -> 0 <= originalSize b ->
  clipPolyEmitClippedPolygons fuel a b polygons maxPolygons vertices maxCount
  = Ok (res, st) ->
  rpolygons res = epolyCount st /\ rvertices res = u16 (eput st)
  /\ 0 <= rpolygons res /\ (rpolygons res = 0 \/ rpolygons res <= maxPolygons)
  /\ 0 <= eput st <= maxCount
  /\ (rpolygons res = 0 -> eput st = 0)
  /\ length (epool st) = length vertices
  /\ (forall i : nat, eput st <= Z.of_nat i -> epool st !! i = vertices !! i)
  /\ length (epolys st) = length polygons
  /\ (forall k : nat, rpolygons res <= Z.of_nat k -> epolys st !! k = polygons !! k).
Proof.
  intros Hc Ha Hb H.
  destruct (emit_final a b polygons vertices maxPolygons maxCount Hc Ha Hb fuel res st H)
    as (-> & [B1 B2 B3 B4 B5 B6 B7 B8] & Sh).
  cbn [emit_result rpolygons rvertices].
  repeat (split; [first [reflexivity | tauto | assumption]|]).
  split; [|auto].
  intros Hz. destruct Sh as [(_ & C2)|((W1 & _) & _)]; [|lia].
  rewrite Hz in C2. simpl in C2. lia.
Qed.

Lemma emit_within_capacity_witness :
  clipPolyEmitClippedPolygons 100 markedSquares.1 markedSquares.2
    (replicate 4 (mkEntry 0 0)) 4 (replicate 16 vzero) 16
  = Ok (emittedSquares.1, emittedSquares.2)
  /\ rpolygons emittedSquares.1 = epolyCount emittedSquares.2
  /\ rvertices emittedSquares.1 = u16 (eput emittedSquares.2)
  /\ 0 <= rpolygons emittedSquares.1
  /\ (rpolygons emittedSquares.1 = 0 \/ rpolygons emittedSquares.1 <= 4)
  /\ 0 <= eput emittedSquares.2 <= 16
  /\ (rpolygons emittedSquares.1 = 0 -> eput emittedSquares.2 = 0)
  /\ length (epool emittedSquares.2) = length (replicate 16 (@vzero spec_float binary32))
  /\ (forall i : nat, eput emittedSquares.2 <= Z.of_nat i ->
        epool emittedSquares.2 !! i = replicate 16 (@vzero spec_float binary32) !! i)
  /\ length (epolys emittedSquares.2) = length (replicate 4 (mkEntry 0 0))
  /\ (forall k : nat, rpolygons emittedSquares.1 <= Z.of_nat k ->
        epolys emittedSquares.2 !! k = replicate 4 (mkEntry 0 0) !! k).
Proof.
  assert (Hc : 0 <= 16) by lia.
  assert (Ha : 0 <= originalSize markedSquares.1) by (simpl; lia).
  assert (Hb : 0 <= originalSize markedSquares.2) by (simpl; lia).
  assert (H : clipPolyEmitClippedPolygons 100 markedSquares.1 markedSquares.2
                (replicate 4 (mkEntry 0 0)) 4 (replicate 16 vzero) 16
              = Ok (emittedSquares.1, emittedSquares.2)) by (vm_compute; reflexivity).
  split; [exact H|].
  exact (emit_within_capacity 100 markedSquares.1 markedSquares.2
           (replicate 4 (mkEntry 0 0)) 4 (replicate 16 vzero) 16
           emittedSquares.1 emittedSquares.2 Hc Ha Hb H).
Defined.

(** X21: unless the pool was filled to its capacity, the polygons reported
    lie one after the other in the pool: the first starts at offset [0],
    each starts where the one before it ends, no size is negative, and
    the last ends at the fill level. *)
Theorem emit_polygons_laid_out {F : Type} {FO : FloatOps F} (fuel : nat)
    (a b : @ClipVertices F) (polygons : list ClipPolygonEntry) (maxPolygons : Z)
    (vertices : list Vec) (maxCount : Z) (res : ClipPolyResult) (st : EmitState) :
  0 <= maxCount -> 0 <= originalSize a -> 0 <= originalSize b ->
  clipPolyEmitClippedPolygons fuel a b polygons maxPolygons vertices maxCount
  = Ok (res, st) ->
  eput st < maxCount ->
  laid_out 0 (take (Z.to_nat (rpolygons res)) (epolys st))
  /\ layout_end 0 (take (Z.to_nat (rpolygons res)) (epolys st)) = eput st.
Proof.
  intros Hc Ha Hb H Hroom.
  destruct (emit_final a b polygons vertices maxPolygons maxCount Hc Ha Hb fuel res st H)
    as (-> & _ & [C|[_ Hfull]]); [exact C | lia].
Qed.

Lemma emit_polygons_laid_out_witness :
  clipPolyEmitClippedPolygons 100 markedSquares.1 markedSquares.2
    (replicate 4 (mkEntry 0 0)) 4 (replicate 16 vzero) 16
  = Ok (emittedSquares.1, emittedSquares.2)
  /\ eput emittedSquares.2 < 16
  /\ laid_out 0 (take (Z.to_nat (rpolygons emittedSquares.1)) (epolys emittedSquares.2))
  /\ layout_end 0 (take (Z.to_nat (rpolygons emittedSquares.1)) (epolys emittedSquares.2))
     = eput emittedSquares.2.
Proof.
  assert (Hc : 0 <= 16) by lia.
  assert (Ha : 0 <= originalSize markedSquares.1) by (simpl; lia).
  assert (Hb : 0 <= originalSize markedSquares.2) by (simpl; lia).
  assert (H : clipPolyEmitClippedPolygons 100 markedSquares.1 markedSquares.2
                (replicate 4 (mkEntry 0 0)) 4 (replicate 16 vzero) 16
              = Ok (emittedSquares.1, emittedSquares.2)) by (vm_compute; reflexivity).
  assert (Hroom : eput emittedSquares.2 < 16) by (simpl; lia).
  split; [exact H|]. split; [exact Hroom|].
  exact (emit_polygons_laid_out 100 markedSquares.1 markedSquares.2
           (replicate 4 (mkEntry 0 0)) 4 (replicate 16 vzero) 16
           emittedSquares.1 emittedSquares.2 Hc Ha Hb H Hroom).
Defined.

(** X22: emission changes nothing of the rings but flags, and of the flags
    it only sets [CVF_PROCESSED]. *)
Theorem emit_rings_processed {F : Type} {FO : FloatOps F} (fuel : nat)
    (a b : @ClipVertices F) (polygons : list ClipPolygonEntry) (maxPolygons : Z)
    (vertices : list Vec) (maxCount : Z) (res : ClipPolyResult) (st : EmitState) :
  0 <= maxCount -> 0 <= originalSize a -> 0 <= originalSize b ->
  clipPolyEmitClippedPolygons fuel a b polygons maxPolygons vertices maxCount
  = Ok (res, st) ->
  ring_processed a (ea st) /\ ring_processed b (eb st).
Proof.
  intros Hc Ha Hb H.
  destruct (emit_final a b polygons vertices maxPolygons maxCount Hc Ha Hb fuel res st H)
    as (_ & [B1 B2 B3 B4 B5 B6 B7 B8] & _).
  auto.
Qed.

Lemma emit_rings_processed_witness :
  clipPolyEmitClippedPolygons 100 markedSquares.1 markedSquares.2
    (replicate 4 (mkEntry 0 0)) 4 (replicate 16 vzero) 16
  = Ok (emittedSquares.1, emittedSquares.2)
  /\ ring_processed markedSquares.1 (ea emittedSquares.2)
  /\ ring_processed markedSquares.2 (eb emittedSquares.2).
Proof.
  assert (Hc : 0 <= 16) by lia.
  assert (Ha : 0 <= originalSize markedSquares.1) by (simpl; lia).
  assert (Hb : 0 <= originalSize markedSquares.2) by (simpl; lia).
  assert (H : clipPolyEmitClippedPolygons 100 markedSquares.1 markedSquares.2
                (replicate 4 (mkEntry 0 0)) 4 (replicate 16 vzero) 16
              = Ok (emittedSquares.1, emittedSquares.2)) by (vm_compute; reflexivity).
  split; [exact H|].
  exact (emit_rings_processed 100 markedSquares.1 markedSquares.2
           (replicate 4 (mkEntry 0 0)) 4 (replicate 16 vzero) 16
           emittedSquares.1 emittedSquares.2 Hc Ha Hb H).
Defined.

(** X23: [clipPolyEmitClippedPolygon] returns the size of the one polygon it
    has room for: the fill level of the pool, never more than [maxCount];
    but when the pool was filled to its capacity while the polygon was
    being written, it returns [0]. *)
Theorem emit_polygon_size {F : Type} {FO : FloatOps F} (fuel : nat)
    (a b : @ClipVertices F) (vertices : list Vec) (maxCount : Z) (n : Z) (st : EmitState) :
  0 <= maxCount -> 0 <= originalSize a -> 0 <= originalSize b ->
  clipPolyEmitClippedPolygon fuel a b vertices maxCount = Ok (n, st) ->
  0 <= eput st <= maxCount
  /\ (n = eput st \/ (n = 0 /\ eput st = maxCount))
  /\ (eput st < maxCount -> n = eput st).
Proof.
  intros Hc Ha Hb. unfold clipPolyEmitClippedPolygon.
  intros ([res st'] & H & H')%bind_Ok. cbn [snd] in H'.
  apply bind_Ok in H' as (e & He & H'). injection H' as <- <-.
  apply get_Ok in He as [_ He]. change (Z.to_nat 0) with 0%nat in He.
  destruct (emit_final a b [mkEntry 0 0] vertices 1 maxCount Hc Ha Hb fuel res st' H)
    as (-> & [B1 B2 B3 B4 B5 B6 B7 B8] & Sh).
  split; [exact B2|].
  assert (Hcases : esize e = eput st' \/ (esize e = 0 /\ maxCount <= eput st')).
  { destruct Sh as [(C1 & C2)|((W1 & W2 & e1 & e0 & W3 & W4 & W5 & _) & Hfull)].
    - left. destruct (Z.eq_dec (epolyCount st') 0) as [Hz|Hnz].
      + rewrite Hz in C2. simpl in C2. rewrite (B6 0%nat) in He by lia.
        injection He as <-. simpl. lia.
      + assert (epolyCount st' = 1) as H1 by lia. rewrite H1 in C1, C2.
        change (Z.to_nat 1) with 1%nat in C1, C2.
        rewrite (take_S_r _ _ e He) in C1, C2. simpl in C1, C2. lia.
    - right. split; [|exact Hfull].
      assert (ecurrentPoly st' = 0) as H0 by lia. rewrite H0 in W3, W4.
      change (Z.to_nat 0) with 0%nat in W3, W4.
      injection W4 as <-. assert (e1 = e) as -> by congruence. simpl in W5. exact W5. }
  split; [destruct Hcases as [?|[? ?]]; [left; assumption | right; split; [assumption | lia]]|].
  intros Hroom. destruct Hcases as [?|[_ ?]]; [assumption | lia].
Qed.

Lemma emit_polygon_size_witness :
  clipPolyEmitClippedPolygon 100 markedSquares.1 markedSquares.2 (replicate 16 vzero) 16
  = Ok (emittedSquare.1, emittedSquare.2)
  /\ 0 <= eput emittedSquare.2 <= 16
  /\ (emittedSquare.1 = eput emittedSquare.2
      \/ (emittedSquare.1 = 0 /\ eput emittedSquare.2 = 16))
  /\ (eput emittedSquare.2 < 16 -> emittedSquare.1 = eput emittedSquare.2).
Proof.
  assert (Hc : 0 <= 16) by lia.
  assert (Ha : 0 <= originalSize markedSquares.1) by (simpl; lia).
  assert (Hb : 0 <= originalSize markedSquares.2) by (simpl; lia).
  assert (H : clipPolyEmitClippedPolygon 100 markedSquares.1 markedSquares.2
                (replicate 16 vzero) 16
              = Ok (emittedSquare.1, emittedSquare.2)) by (vm_compute; reflexivity).
  split; [exact H|].
  exact (emit_polygon_size 100 markedSquares.1 markedSquares.2 (replicate 16 vzero) 16
           emittedSquare.1 emittedSquare.2 Hc Ha Hb H).
Defined.

(** ** Rings without crossings *)

(** X24: where no edges cross the follow directions have no effect: if
    intersection finding returns both rings as they were, marking and
    emission give the same result for every pair of directions (so the
    union and the differences of nested or disjoint polygons come out as
    their intersection does). *)
Theorem directions_ignored_without_crossings {F : Type} {FO : FloatOps F} (fuel : nat)
    (vA vB : list Vec) (slabA slabB : list ClipVertex) (a b : ClipVertices) (pa : Vec)
    (dA dB dA' dB' : ClipFollowDirection)
    (polygons : list ClipPolygonEntry) (maxPolygons : Z)
    (pool : list Vec) (maxCount : Z) :
  clipPolyTransformData vA slabA = Ok a ->
  clipPolyTransformData vB slabB = Ok b ->
  zlen slabA <= 65536 -> zlen slabB <= 65536 ->
  vA !! 0%nat = Some pa ->
  clipPolyFindIntersections fuel a b = Ok (a, b) ->
  (Z.to_nat (zlen vA) <= fuel)%nat -> (Z.to_nat (zlen vB) <= fuel)%nat ->
  clip_after_transform fuel a b dA dB polygons maxPolygons pool maxCount
  = clip_after_transform fuel a b dA' dB' polygons maxPolygons pool maxCount.
Proof.
  intros HA HB HcA HcB Hpa Hfind HfA HfB.
  rewrite !(clip_plain_fallback fuel vA vB slabA slabB a b pa polygons maxPolygons pool
              maxCount HA HB HcA HcB Hpa Hfind HfA HfB).
  reflexivity.
Qed.

Lemma directions_ignored_without_crossings_witness :
  clipPolyFindIntersections 100 Inputs.unitRing Inputs.farSquareRing
  = Ok (Inputs.unitRing, Inputs.farSquareRing)
  /\ clip_after_transform 100 Inputs.unitRing Inputs.farSquareRing CFD_FORWARD CFD_FORWARD
       (replicate 4 (mkEntry 0 0)) 4 (replicate 16 vzero) 16
     = clip_after_transform 100 Inputs.unitRing Inputs.farSquareRing CFD_BACKWARD CFD_FORWARD
         (replicate 4 (mkEntry 0 0)) 4 (replicate 16 vzero) 16.
Proof.
  assert (Hcap : zlen (Inputs.slab 16) <= 65536) by (unfold zlen; simpl; lia).
  assert (Ha : clipPolyTransformData Inputs.unitSquare (Inputs.slab 16)
               = Ok Inputs.unitRing) by (vm_compute; reflexivity).
  assert (Hb : clipPolyTransformData Inputs.farSquare (Inputs.slab 16)
               = Ok Inputs.farSquareRing) by (vm_compute; reflexivity).
  assert (Hpa : Inputs.unitSquare !! 0%nat = Some (Inputs.V32 0 0)) by reflexivity.
  assert (Hfind : clipPolyFindIntersections 100 Inputs.unitRing Inputs.farSquareRing
                  = Ok (Inputs.unitRing, Inputs.farSquareRing))
    by (vm_compute; reflexivity).
  assert (HfA : (Z.to_nat (zlen Inputs.unitSquare) <= 100)%nat)
    by (unfold zlen; simpl; lia).
  assert (HfB : (Z.to_nat (zlen Inputs.farSquare) <= 100)%nat)
    by (unfold zlen; simpl; lia).
  split; [exact Hfind|].
  exact (directions_ignored_without_crossings 100 Inputs.unitSquare Inputs.farSquare
           (Inputs.slab 16) (Inputs.slab 16) Inputs.unitRing Inputs.farSquareRing
           (Inputs.V32 0 0) CFD_FORWARD CFD_FORWARD CFD_BACKWARD CFD_FORWARD
           (replicate 4 (mkEntry 0 0)) 4 (replicate 16 vzero) 16
           Ha Hb Hcap Hcap Hpa Hfind HfA HfB).
Defined.

(** ** Intersection finding on a ring of 65536 vertices *)

Lemma fi_passes_app (w n m : nat) (s s' s'' : FIState) :
  fi_passes w n s = Some s' -> fi_passes w m s' = Some s'' ->
  fi_passes w (n + m) s = Some s''.
Proof.
  revert s. induction n as [|n IH]; intros s H1 H2.
  - injection H1 as ->. exact H2.
  - cbn [fi_passes Nat.add] in *.
    destruct (fi_step w s) as [[t|t|]| |]; try discriminate; eauto.
Qed.

Lemma fi_run_passes (w n : nat) (s s' : FIState) (fuel : nat) :
  fi_passes w n s = Some s' ->
  fi_run w (n + fuel) s = fi_run w fuel s'.
Proof.
  revert s. induction n as [|n IH]; intros s H.
  - injection H as ->. reflexivity.
  - cbn [fi_passes Nat.add fi_run] in *.
    destruct (fi_step w s) as [[t|t|]| |]; try discriminate; cbn [mbind res_bind]; eauto.
Qed.

Lemma fi_passes_some (w n : nat) (s d : FIState) :
  bool_decide (is_Some (fi_passes w n s)) = true ->
  fi_passes w n s = Some (default d (fi_passes w n s)).
Proof.
  intros H. apply bool_decide_eq_true in H as [x ->]. reflexivity.
Qed.

Lemma zero_cross (x y zx zy : spec_float) :
  sf_finite x = true -> sf_finite y = true -> sf_zero zx = true -> sf_zero zy = true ->
  exists sg, SFsub 24 128 (SFmul 24 128 x zy) (SFmul 24 128 y zx) = S754_zero sg.
Proof.
  destruct x as [sx|sx| |sx mx ex], y as [sy|sy| |sy my ey],
           zx as [s1|s1| |s1 m1 e1], zy as [s2|s2| |s2 m2 e2];
    try discriminate; intros _ _ _ _;
    repeat match goal with b : bool |- _ => destruct b end;
    eexists; reflexivity.
Qed.

(** A pass over an edge of B that has no length moves on to the next
    pair. *)
Lemma fi_body_zero_edge (w : nat) (s : @FIState spec_float) :
  let aV := nd (data (fi_a s)) (fi_i s) in
  let aP := nd (data (fi_a s)) (aPrevIndex s) in
  let bV := nd (data (fi_b s)) (fi_j s) in
  let bP := nd (data (fi_b s)) (bPrevIndex s) in
  0 <= fi_i s < zlen (data (fi_a s)) ->
  0 <= aPrevIndex s < zlen (data (fi_a s)) ->
  0 <= fi_j s < zlen (data (fi_b s)) ->
  0 <= bPrevIndex s < zlen (data (fi_b s)) ->
  sf_finite (vx (pos aV) - vx (pos aP))%F = true ->
  sf_finite (vy (pos aV) - vy (pos aP))%F = true ->
  sf_zero (vx (pos bV) - vx (pos bP))%F = true ->
  sf_zero (vy (pos bV) - vy (pos bP))%F = true ->
  fi_body w s = Ok (fi_next_pair s (fi_a s) (fi_b s)).
Proof.
  intros aV aP bV bP Hi Hp Hj Hq Fx Fy Zx Zy.
  unfold fi_body.
  rewrite (nd_get _ _ Hi), (nd_get _ _ Hp), (nd_get _ _ Hj), (nd_get _ _ Hq).
  cbn [mbind res_bind]. fold aV aP bV bP.
  destruct (zero_cross _ _ _ _ Fx Fy Zx Zy) as [sg Hcross].
  unfold clipPolyLineIntersectionFactor at 1. cbv zeta. cbn [vx vy].
  change (@fsub spec_float binary32) with (SFsub 24 128) in *.
  change (@fmul spec_float binary32) with (SFmul 24 128) in *.
  rewrite Hcross.
  change (@fltb spec_float binary32) with SFltb.
  rewrite zero_not_epsilon. cbn [orb].
  match goal with
  | |- context [clipPolyLineIntersectionFactor (pos bP) ?d1 (pos aP) ?d2] =>
      destruct (clipPolyLineIntersectionFactor (pos bP) d1 (pos aP) d2) as [tb|]
  end; [|reflexivity].
  change (@fdiv spec_float binary32) with (SFdiv 24 128).
  change (@fleb spec_float binary32) with SFleb.
  change (@fzero spec_float binary32) with (S754_zero false).
  change (@fone spec_float binary32) with (b32_of_Z 1).
  rewrite div_zero_out_of_range. reflexivity.
Qed.

(** The passes over a run of edges of B that have no length. *)
Lemma fi_passes_zero_edges (w : nat) (p : Vec) (n : nat) (s : @FIState spec_float) :
  let aV := nd (data (fi_a s)) (fi_i s) in
  let aP := nd (data (fi_a s)) (aPrevIndex s) in
  fi_i s < originalSize (fi_a s) ->
  0 <= fi_i s < zlen (data (fi_a s)) ->
  0 <= aPrevIndex s < zlen (data (fi_a s)) ->
  sf_finite (vx (pos aV) - vx (pos aP))%F = true ->
  sf_finite (vy (pos aV) - vy (pos aP))%F = true ->
  1 <= fi_j s -> bPrevIndex s = fi_j s - 1 ->
  fi_j s + Z.of_nat n <= originalSize (fi_b s) ->
  originalSize (fi_b s) <= zlen (data (fi_b s)) ->
  (forall v, fi_j s - 1 <= v < fi_j s + Z.of_nat n ->
     pos (nd (data (fi_b s)) v) = p) ->
  sf_zero (vx p - vx p)%F = true -> sf_zero (vy p - vy p)%F = true ->
  fi_passes w n s = Some (fi_jump s (fi_j s + Z.of_nat n)).
Proof.
  cbv zeta. revert s. induction n as [|n IH];
    intros s Hi Ri Rp Fx Fy Hj Hb Hn Hl HP Zx Zy.
  - cbn [fi_passes]. f_equal. destruct s as [a b i j ap bp]. unfold fi_jump.
    cbn [fi_a fi_b fi_i fi_j aPrevIndex bPrevIndex] in *. subst bp.
    f_equal; lia.
  - cbn [fi_passes]. unfold fi_step. cbv zeta.
    destruct (Z.ltb_spec (fi_i s) (originalSize (fi_a s))) as [_|]; [|lia].
    destruct (Z.ltb_spec (fi_j s) (originalSize (fi_b s))) as [_|]; [|lia].
    cbn [negb].
    rewrite (fi_body_zero_edge w s); try assumption; try lia.
    + unfold fi_next_pair.
      rewrite (IH (mkFI (fi_a s) (fi_b s) (fi_i s) (fi_j s + 1) (aPrevIndex s) (fi_j s)));
        cbn [fi_a fi_b fi_i fi_j aPrevIndex bPrevIndex]; try assumption; try lia.
      * unfold fi_jump. cbn [fi_a fi_b fi_i fi_j aPrevIndex bPrevIndex].
        f_equal. f_equal; lia.
      * intros v Hv. apply HP. lia.
    + rewrite (HP (fi_j s)) by lia. rewrite Hb, (HP (fi_j s - 1)) by lia. exact Zx.
    + rewrite (HP (fi_j s)) by lia. rewrite Hb, (HP (fi_j s - 1)) by lia. exact Zy.
Qed.

Lemma apex_run (d : list (@ClipVertex spec_float)) (lo : nat) (n : nat) :
  forallb (fun x => bool_decide (pos x = wrapApex)) (take n (drop lo d)) = true ->
  (lo + n <= length d)%nat ->
  forall v, Z.of_nat lo <= v < Z.of_nat (lo + n) -> pos (nd d v) = wrapApex.
Proof.
  intros H Hlen v Hv.
  destruct (lookup_lt_is_Some_2 d (Z.to_nat v)) as [x Hx]; [lia|].
  rewrite (lookup_nd d v x) by (auto; lia).
  rewrite forallb_forall in H.
  apply (bool_decide_eq_true_1 _), H, list_elem_of_In.
  apply (list_elem_of_lookup_2 _ (Z.to_nat v - lo)%nat).
  rewrite lookup_take_lt by lia. rewrite lookup_drop.
  replace (lo + (Z.to_nat v - lo))%nat with (Z.to_nat v) by lia. exact Hx.
Qed.

Lemma wrap_row (s : @FIState spec_float) :
  wrap_row_ok s = true ->
  fi_passes wrapFuel (3 + (Z.to_nat 65533 + 1)) s = Some (wrapRow s).
Proof.
  unfold wrap_row_ok, wrapRow. cbv zeta.
  set (s1 := default s (fi_passes wrapFuel 3 s)).
  intros H. apply andb_prop in H as [H H3]. apply andb_prop in H as [H1 H2].
  apply (fi_passes_some _ _ _ s) in H1, H3. fold s1 in H1.
  apply (fi_passes_app _ _ _ _ _ _ H1).
  apply (fi_passes_app _ _ _ _ (fi_jump s1 65536)); [|exact H3].
  unfold zero_edges_ready in H2. cbv zeta in H2.
  apply andb_prop in H2 as [H2 Kapex]. apply andb_prop in H2 as [H2 Klen].
  apply andb_prop in H2 as [H2 Korig]. apply andb_prop in H2 as [H2 Kprev].
  apply andb_prop in H2 as [H2 Kj]. apply andb_prop in H2 as [H2 Fy].
  apply andb_prop in H2 as [H2 Fx]. apply andb_prop in H2 as [H2 Kp2].
  apply andb_prop in H2 as [H2 Kp1]. apply andb_prop in H2 as [H2 Ki2].
  apply andb_prop in H2 as [Ki0 Ki1].
  apply Z.ltb_lt in Ki0, Ki2, Kp2. apply Z.leb_le in Ki1, Kp1, Klen.
  apply Z.eqb_eq in Kj, Kprev, Korig.
  assert (E : fi_jump s1 65536 = fi_jump s1 (fi_j s1 + Z.of_nat (Z.to_nat 65533))).
  { rewrite Kj. reflexivity. }
  rewrite E.
  apply (fi_passes_zero_edges wrapFuel wrapApex); try assumption; try lia.
  - intros v Hv. apply (apex_run _ 2 (Z.to_nat 65534) Kapex); unfold zlen in *; lia.
  - vm_compute. reflexivity.
  - vm_compute. reflexivity.
Qed.

Lemma wrap_passes :
  fi_passes wrapFuel
    ((3 + (Z.to_nat 65533 + 1)) + ((3 + (Z.to_nat 65533 + 1)) + (3 + (Z.to_nat 65533 + 1))))
    wrap0 = Some wrap3.
Proof.
  assert (H0 : wrap_row_ok wrap0 = true) by (vm_compute; reflexivity).
  assert (H1 : wrap_row_ok wrap1 = true) by (vm_compute; reflexivity).
  assert (H2 : wrap_row_ok wrap2 = true) by (vm_compute; reflexivity).
  apply (fi_passes_app _ _ _ _ wrap1); [exact (wrap_row wrap0 H0)|].
  apply (fi_passes_app _ _ _ _ wrap2); [exact (wrap_row wrap1 H1)|].
  exact (wrap_row wrap2 H2).
Qed.

Lemma ring_of_ok (m : res (@ClipVertices spec_float)) :
  match m with Ok _ => true | _ => false end = true -> m = Ok (Inputs.ring_of m).
Proof. destruct m; [reflexivity | discriminate | discriminate]. Qed.

(** C1 fails as stated: [wrapPolygon] has [65536] vertices and is
    transformed into a slab of [65540] entries, [wrapTriangle] into a slab
    of eight. The first intersection node of the large ring is appended at
    index [65536], which the 16-bit [neighbor] field of its partner stores
    as [0]: after [clipPolyFindIntersections] has returned, node [3] of
    ring A carries [CVF_INTERSECT] and its [neighbor] is [0], the first
    vertex of B, which does not carry the flag. *)
Lemma neighbor_wraps_counterexample :
  clipPolyTransformData wrapTriangle (Inputs.slab 8) = Ok wrapRingA
  /\ clipPolyTransformData wrapPolygon (Inputs.slab (Z.to_nat 65540)) = Ok wrapRingB
  /\ zlen wrapPolygon = 65536
  /\ exists a b,
       clipPolyFindIntersections wrapFuel wrapRingA wrapRingB = Ok (a, b)
       /\ size a = 5 /\ is_cross (data a) 3 = true
       /\ neighbor (nd (data a) 3) = 0
       /\ is_cross (data b) 0 = false
       /\ ~ (forall v, 0 <= v < size a -> is_cross (data a) v = true ->
               let k := neighbor (nd (data a) v) in
               0 <= k < size b /\ size b <= zlen (data b)
               /\ is_cross (data b) k = true
               /\ neighbor (nd (data b) k) = v
               /\ pos (nd (data b) k) = pos (nd (data a) v)).
Proof.
  split; [apply ring_of_ok; vm_compute; reflexivity|].
  split; [apply ring_of_ok; vm_compute; reflexivity|].
  split; [vm_compute; reflexivity|].
  exists (fi_a wrap3), (fi_b wrap3).
  assert (Hs : size (fi_a wrap3) = 5) by (vm_compute; reflexivity).
  assert (Hc : is_cross (data (fi_a wrap3)) 3 = true) by (vm_compute; reflexivity).
  assert (Hn : neighbor (nd (data (fi_a wrap3)) 3) = 0) by (vm_compute; reflexivity).
  assert (Hb : is_cross (data (fi_b wrap3)) 0 = false) by (vm_compute; reflexivity).
  split.
  { unfold clipPolyFindIntersections. change (fi_init wrapRingA wrapRingB) with wrap0.
    assert (E : ((3 + (Z.to_nat 65533 + 1)) + ((3 + (Z.to_nat 65533 + 1))
                  + (3 + (Z.to_nat 65533 + 1))) + 1)%nat = wrapFuel)
      by (unfold wrapFuel; lia).
    rewrite <- E at 2.
    rewrite (fi_run_passes _ _ _ _ _ wrap_passes).
    assert (D : fi_step wrapFuel wrap3 = Ok (Done (fi_a wrap3) (fi_b wrap3))).
    { unfold fi_step. cbv zeta.
      assert (Hi : (fi_i wrap3 <? originalSize (fi_a wrap3)) = false)
        by (vm_compute; reflexivity).
      rewrite Hi. reflexivity. }
    cbn [fi_run]. rewrite D. reflexivity. }
  split; [exact Hs|]. split; [exact Hc|]. split; [exact Hn|]. split; [exact Hb|].
  intros H. specialize (H 3 ltac:(lia) Hc). cbv zeta in H.
  rewrite Hn in H. destruct H as (_ & _ & H & _). congruence.
Qed.

(** ** Containment in single precision *)

